(** * Crossword generator (CS50 AI, [generate.py]): a shallow embedding

    The development follows [src/generate.py] method by method.  The
    [CrosswordCreator] object is a record [State]; its methods are
    computations in a small state-and-exception monad [M].  Python
    dictionaries are association lists in insertion order, Python sets are
    lists without repetition (the list order stands for the iteration
    order of the set), and the set objects held by [self.domains] live in
    an explicit heap, so that sharing between domains can be expressed. *)

From Stdlib Require Import List String Ascii Arith Bool Lia PeanoNat.
From Stdlib Require Import Permutation Sorted.
Import ListNotations.

Set Implicit Arguments.

(** ** Python run-time fragments *)

(** The exceptions the methods of [generate.py] can raise. *)
Inductive exn : Type :=
| IndexError
| KeyError
| TypeError
| UnboundLocalError.

(** The outcome of running a piece of Python code.  [OutOfFuel] is not a
    Python outcome: it marks that a fuel-bounded model of a loop or of a
    recursion was cut short. *)
Inductive outcome (A : Type) : Type :=
| Return (a : A)
| Raise (e : exn)
| OutOfFuel.

Arguments Return {A} a.
Arguments Raise {A} e.
Arguments OutOfFuel {A}.

(** Dictionaries keep insertion order; assigning to an existing key keeps
    its position. *)
Section Dict.
Context {K V : Type}.
Variable eqb : K -> K -> bool.

Fixpoint dict_get (d : list (K * V)) (k : K) : option V :=
  match d with
  | [] => None
  | (k', v) :: d' => if eqb k k' then Some v else dict_get d' k
  end.

Fixpoint dict_set (d : list (K * V)) (k : K) (v : V) : list (K * V) :=
  match d with
  | [] => [(k, v)]
  | (k', v') :: d' =>
      if eqb k k' then (k', v) :: d' else (k', v') :: dict_set d' k v
  end.

Definition dict_keys (d : list (K * V)) : list K := map fst d.
End Dict.

(** [s[k]] on a string. *)
Definition str_index (s : string) (k : nat) : outcome ascii :=
  match String.get k s with
  | Some c => Return c
  | None => Raise IndexError
  end.

(** [wx[ov[0]] == wy[ov[1]]], evaluated left to right: subscripting [None]
    is a [TypeError], an index past the end of a word an [IndexError]. *)
Definition chars_match (ov : option (nat * nat)) (wx wy : string)
  : outcome bool :=
  match ov with
  | None => Raise TypeError
  | Some (kx, ky) =>
      match str_index wx kx with
      | Return cx =>
          match str_index wy ky with
          | Return cy => Return (Ascii.eqb cx cy)
          | Raise e => Raise e
          | OutOfFuel => OutOfFuel
          end
      | Raise e => Raise e
      | OutOfFuel => OutOfFuel
      end
  end.

(** [word in s] and [s.remove(word)] on a set of words. *)
Definition set_mem (w : string) (s : list string) : bool :=
  existsb (String.eqb w) s.

Definition set_remove (w : string) (s : list string) : list string :=
  filter (fun w' => negb (String.eqb w w')) s.

(** [sorted(keys, key=...)]: Python's sort is stable and ascending. *)
Fixpoint insert_by {A : Type} (key : A -> nat) (x : A) (l : list A) : list A :=
  match l with
  | [] => [x]
  | y :: l' => if key x <=? key y then x :: l else y :: insert_by key x l'
  end.

Definition sorted_by {A : Type} (key : A -> nat) (l : list A) : list A :=
  fold_right (insert_by key) [] l.

(** ** The puzzle model *)

Inductive Direction : Type := ACROSS | DOWN.

Definition Direction_eqb (d1 d2 : Direction) : bool :=
  match d1, d2 with
  | ACROSS, ACROSS | DOWN, DOWN => true
  | _, _ => false
  end.

(** A [Variable] of [crossword.py]: one slot of the grid.  (The record is
    called [Var.t] because [Variable] is a vernacular command.) *)
Module Var.
Record t : Type := mk { i : nat; j : nat; direction : Direction; length : nat }.

(** [Variable.__eq__]: all four attributes match. *)
Definition eqb (v1 v2 : t) : bool :=
  (i v1 =? i v2) && (j v1 =? j v2)
  && Direction_eqb (direction v1) (direction v2)
  && (length v1 =? length v2).

(** The cells a slot covers, first cell first. *)
Definition cells (v : t) : list (nat * nat) :=
  map (fun k => match direction v with
                | DOWN => (i v + k, j v)
                | ACROSS => (i v, j v + k)
                end) (seq 0 (length v)).
End Var.

Definition arc : Type := (Var.t * Var.t)%type.

Definition arc_eqb (a1 a2 : arc) : bool :=
  Var.eqb (fst a1) (fst a2) && Var.eqb (snd a1) (snd a2).

(** Modelled from the spec: the [Crossword] class is not part of
    [generate.py].  Section 3 of the specification gives its content: the
    variable set, the vocabulary, and the overlap table, which holds, for
    every pair of distinct variables, either [None] or the pair of indices
    of the shared cell.  [variables] and [words] are sets (lists in
    iteration order), [overlaps] is a dictionary keyed by ordered pairs. *)
Record Crossword : Type := mkCrossword {
  variables : list Var.t;
  words : list string;
  overlaps : list (arc * option (nat * nat))
}.

Definition overlap_of (cw : Crossword) (x y : Var.t) : option (option (nat * nat)) :=
  dict_get arc_eqb (overlaps cw) (x, y).

(** Modelled from the spec: [Crossword.neighbors(var)], the variables that
    overlap [var] (section 4.6: "the number of variables it overlaps"),
    read off the table entry of [(v, var)]. *)
Definition neighbors (cw : Crossword) (var : Var.t) : list Var.t :=
  filter (fun v => negb (Var.eqb v var)
                   && match overlap_of cw v var with
                      | Some (Some _) => true
                      | _ => false
                      end) (variables cw).

(** Modelled from the spec: the overlap table "computed once from
    geometry": two slots overlap iff they share a cell, and the entry is
    the position of that cell in each slot. *)
Fixpoint index_of (c : nat * nat) (l : list (nat * nat)) : option nat :=
  match l with
  | [] => None
  | c' :: l' =>
      if (fst c =? fst c') && (snd c =? snd c') then Some 0
      else option_map S (index_of c l')
  end.

Fixpoint first_shared (k : nat) (l1 l2 : list (nat * nat)) : option (nat * nat) :=
  match l1 with
  | [] => None
  | c :: l1' =>
      match index_of c l2 with
      | Some k2 => Some (k, k2)
      | None => first_shared (S k) l1' l2
      end
  end.

Definition geometric_overlap (v1 v2 : Var.t) : option (nat * nat) :=
  first_shared 0 (Var.cells v1) (Var.cells v2).

Definition build_overlaps (vars : list Var.t) : list (arc * option (nat * nat)) :=
  flat_map (fun v1 =>
    flat_map (fun v2 =>
      if Var.eqb v1 v2 then [] else [((v1, v2), geometric_overlap v1 v2)])
      vars) vars.

Definition make_crossword (vars : list Var.t) (ws : list string) : Crossword :=
  mkCrossword vars ws (build_overlaps vars).

(** ** The creator object and its monad *)

Definition loc : Type := nat.

(** [self.domains] maps each variable to a set object; the set objects
    live in [heap].  [backtrack_calls] is a ghost counter: the number of
    times [backtrack] has been entered. *)
Record State : Type := mkState {
  domains : list (Var.t * loc);
  heap : list (list string);
  backtrack_calls : nat
}.

Definition M (A : Type) : Type := State -> outcome A * State.

Definition ret {A : Type} (a : A) : M A := fun st => (Return a, st).

Definition raise {A : Type} (e : exn) : M A := fun st => (Raise e, st).

Definition out_of_fuel {A : Type} : M A := fun st => (OutOfFuel, st).

Definition bind {A B : Type} (m : M A) (f : A -> M B) : M B :=
  fun st =>
    match m st with
    | (Return a, st') => f a st'
    | (Raise e, st') => (Raise e, st')
    | (OutOfFuel, st') => (OutOfFuel, st')
    end.

Definition lift {A : Type} (o : outcome A) : M A := fun st => (o, st).

Declare Scope py_scope.
Delimit Scope py_scope with py.
Notation "x <- m ;; k" := (bind m (fun x => k))
  (at level 61, m at next level, right associativity) : py_scope.
Notation "m ;;; k" := (bind m (fun _ => k))
  (at level 61, right associativity) : py_scope.
Open Scope py_scope.

(** A [for] loop whose body runs for its effect. *)
Fixpoint for_each {A : Type} (l : list A) (body : A -> M unit) : M unit :=
  match l with
  | [] => ret tt
  | x :: l' => body x ;;; for_each l' body
  end.

(** Reading and writing a set object.  A location outside the heap (none
    arises: locations come from [__init__]) reads as the empty set and is
    not written. *)
Definition heap_get (h : list (list string)) (l : loc) : list string :=
  nth l h [].

Fixpoint heap_set (h : list (list string)) (l : loc) (s : list string)
  : list (list string) :=
  match h, l with
  | [], _ => []
  | _ :: h', 0 => s :: h'
  | s' :: h', S l' => s' :: heap_set h' l' s
  end.

(** [self.domains[x]], read. *)
Definition domain_of (x : Var.t) : M (list string) :=
  fun st =>
    match dict_get Var.eqb (domains st) x with
    | Some l => (Return (heap_get (heap st) l), st)
    | None => (Raise KeyError, st)
    end.

(** [self.domains[x].remove(value)]: mutates the set object in place. *)
Definition domain_remove (x : Var.t) (value : string) : M unit :=
  fun st =>
    match dict_get Var.eqb (domains st) x with
    | Some l =>
        let s := heap_get (heap st) l in
        if set_mem value s
        then (Return tt,
              mkState (domains st) (heap_set (heap st) l (set_remove value s))
                      (backtrack_calls st))
        else (Raise KeyError, st)
    | None => (Raise KeyError, st)
    end.

(** Counts one more call of [backtrack]. *)
Definition enter_backtrack : M unit :=
  fun st => (Return tt, mkState (domains st) (heap st) (S (backtrack_calls st))).

(** The vocabulary set object of the crossword sits at location 0. *)
Definition words_loc : loc := 0.

(** [CrosswordCreator.__init__]: every variable gets
    [self.crossword.words.copy()], a freshly allocated set. *)
Definition init_step (ws : list string) (st : State) (var : Var.t) : State :=
  mkState (dict_set Var.eqb (domains st) var (List.length (heap st)))
          (heap st ++ [ws])
          (backtrack_calls st).

Definition init (cw : Crossword) : State :=
  fold_left (init_step (words cw)) (variables cw) (mkState [] [words cw] 0).

Section Creator.
Variable cw : Crossword.

(** *** [enforce_node_consistency] *)
Definition enforce_node_consistency : M unit :=
  fun st0 =>
    for_each (dict_keys (domains st0)) (fun variable =>
      dom <- domain_of variable ;;
      let values_to_be_removed :=
        filter (fun value => Var.length variable <? String.length value) dom in
      for_each values_to_be_removed (fun value => domain_remove variable value))
    st0.

(** *** [revise] *)

(** The inner loop over [self.domains[y]]: an [IndexError] is caught and
    the loop continues; a match breaks out. *)
Fixpoint find_support (ov : option (nat * nat)) (val_x : string)
         (dy : list string) : outcome bool :=
  match dy with
  | [] => Return false
  | val_y :: rest =>
      match chars_match ov val_x val_y with
      | Return true => Return true
      | Return false => find_support ov val_x rest
      | Raise IndexError => find_support ov val_x rest
      | Raise e => Raise e
      | OutOfFuel => OutOfFuel
      end
  end.

(** The outer loop: collects [x_values_to_be_removed]. *)
Fixpoint revise_scan (ov : option (nat * nat)) (y : Var.t)
         (dx : list string) : M (list string) :=
  match dx with
  | [] => ret []
  | val_x :: rest =>
      dy <- domain_of y ;;
      found_y <- lift (find_support ov val_x dy) ;;
      removed <- revise_scan ov y rest ;;
      ret (if found_y then removed else val_x :: removed)
  end.

Definition revise (x y : Var.t) : M bool :=
  match overlap_of cw x y with
  | None => raise KeyError
  | Some overlap_index =>
      dx <- domain_of x ;;
      x_values_to_be_removed <- revise_scan overlap_index y dx ;;
      for_each x_values_to_be_removed (fun value => domain_remove x value) ;;;
      ret (match x_values_to_be_removed with [] => false | _ => true end)
  end.

(** *** [ac3] *)

(** The [while] loop of [ac3], bounded by [fuel]. *)
Fixpoint ac3_loop (fuel : nat) (arc_queue : list arc) : M bool :=
  match arc_queue with
  | [] => ret true
  | a :: rest =>
      match fuel with
      | 0 => out_of_fuel
      | S fuel' =>
          match dict_get arc_eqb (overlaps cw) a with
          | None => raise KeyError
          | Some None => ac3_loop fuel' rest
          | Some (Some _) =>
              revision_made <- revise (fst a) (snd a) ;;
              dx <- domain_of (fst a) ;;
              match dx with
              | [] => ret false
              | _ :: _ =>
                  if revision_made
                  then ac3_loop fuel'
                         (rest ++ filter (fun potential_arc =>
                                            Var.eqb (fst a) (snd potential_arc))
                                         (dict_keys (overlaps cw)))
                  else ac3_loop fuel' rest
              end
          end
      end
  end.

(** The number of words in all set objects. *)
Definition heap_size (h : list (list string)) : nat :=
  list_sum (map (@List.length string) h).

(** Every pass of the loop either shortens the queue or removes a word
    and adds at most one arc per table entry, so this many passes are
    enough (see [nto_ac3]). *)
Definition ac3_fuel (st : State) : nat :=
  List.length (overlaps cw) + S (List.length (overlaps cw)) * heap_size (heap st).

(** With [arcs] given, [arc_queue] is never bound and the loop header
    reads an unbound local. *)
Definition ac3 (arcs : option (list arc)) : M bool :=
  match arcs with
  | None => fun st => ac3_loop (ac3_fuel st) (dict_keys (overlaps cw)) st
  | Some _ => raise UnboundLocalError
  end.

(** *** Assignments *)

(** An assignment maps variables to a word or to [None]. *)
Definition Assignment : Type := list (Var.t * option string).

Definition is_None {A : Type} (o : option A) : bool :=
  match o with None => true | Some _ => false end.

(** *** [assignment_complete] *)
Definition assignment_complete (assignment : Assignment) : bool :=
  forallb (fun kv => negb (is_None (snd kv))) assignment.

(** *** [consistent] *)

(** The loop over [comp_var]: [true] when some other variable holds the
    same word. *)
Definition shares_word (assignment : Assignment) (var : Var.t) (w : string)
  : bool :=
  existsb (fun kv =>
             negb (Var.eqb var (fst kv))
             && match snd kv with
                | Some w' => String.eqb w w'
                | None => false
                end) assignment.

(** The loop over the neighbours of [var]: [Return false] stands for the
    [return False] inside the loop, [Return true] for running through. *)
Fixpoint neighbors_agree (assignment : Assignment) (var : Var.t) (w : string)
         (var_neighbors : list Var.t) : outcome bool :=
  match var_neighbors with
  | [] => Return true
  | neighbor_var :: rest =>
      match dict_get Var.eqb assignment neighbor_var with
      | None => Raise KeyError
      | Some None => neighbors_agree assignment var w rest
      | Some (Some w') =>
          match overlap_of cw var neighbor_var with
          | None => Raise KeyError
          | Some None => neighbors_agree assignment var w rest
          | Some (Some overlap_index) =>
              match chars_match (Some overlap_index) w w' with
              | Return true => neighbors_agree assignment var w rest
              | Return false => Return false
              | Raise e => Raise e
              | OutOfFuel => OutOfFuel
              end
          end
      end
  end.

(** The outer loop, over the entries still to visit. *)
Fixpoint consistent_loop (assignment : Assignment) (todo : Assignment)
  : outcome bool :=
  match todo with
  | [] => Return true
  | (var, None) :: rest => consistent_loop assignment rest
  | (var, Some w) :: rest =>
      if shares_word assignment var w then Return false
      else if negb (String.length w =? Var.length var) then Return false
      else match neighbors_agree assignment var w (neighbors cw var) with
           | Return true => consistent_loop assignment rest
           | Return false => Return false
           | Raise e => Raise e
           | OutOfFuel => OutOfFuel
           end
  end.

Definition consistent (assignment : Assignment) : outcome bool :=
  consistent_loop assignment assignment.

(** *** [order_domain_values] *)

(** The loop over one neighbour's domain; [num] is [num_ruled_out]. *)
Fixpoint ruled_out_in (var neighbor_var : Var.t) (value : string)
         (dn : list string) (num : nat) : outcome nat :=
  match dn with
  | [] => Return num
  | comp_value :: rest =>
      if String.eqb comp_value value
      then ruled_out_in var neighbor_var value rest (S num)
      else match overlap_of cw var neighbor_var with
           | None => Raise KeyError
           | Some vars_overlap_index =>
               match chars_match vars_overlap_index value comp_value with
               | Return true => ruled_out_in var neighbor_var value rest num
               | Return false =>
                   ruled_out_in var neighbor_var value rest (S num)
               | Raise IndexError =>
                   ruled_out_in var neighbor_var value rest (S num)
               | Raise e => Raise e
               | OutOfFuel => OutOfFuel
               end
           end
  end.

(** The loop over the neighbours of [var]. *)
Fixpoint num_ruled_out (assignment : Assignment) (var : Var.t)
         (value : string) (var_neighbors : list Var.t) (num : nat) : M nat :=
  match var_neighbors with
  | [] => ret num
  | neighbor_var :: rest =>
      match dict_get Var.eqb assignment neighbor_var with
      | None => raise KeyError
      | Some (Some _) => num_ruled_out assignment var value rest num
      | Some None =>
          dn <- domain_of neighbor_var ;;
          num' <- lift (ruled_out_in var neighbor_var value dn num) ;;
          num_ruled_out assignment var value rest num'
      end
  end.

Fixpoint elimination_counts (assignment : Assignment) (var : Var.t)
         (values : list string) : M (list (string * nat)) :=
  match values with
  | [] => ret []
  | value :: rest =>
      n <- num_ruled_out assignment var value (neighbors cw var) 0 ;;
      counts <- elimination_counts assignment var rest ;;
      ret ((value, n) :: counts)
  end.

Definition order_domain_values (var : Var.t) (assignment : Assignment)
  : M (list string) :=
  all_var_values <- domain_of var ;;
  value_elimination_dict <- elimination_counts assignment var all_var_values ;;
  ret (map fst (sorted_by snd value_elimination_dict)).

(** *** [select_unassigned_variable] *)
Fixpoint select_unassigned_variable (assignment : Assignment)
  : option Var.t :=
  match assignment with
  | [] => None
  | (var, None) :: _ => Some var
  | (_, Some _) :: rest => select_unassigned_variable rest
  end.

(** *** [backtrack] *)

(** [for var in self.crossword.variables: assignment[var] = None]. *)
Definition blank_assignment : Assignment :=
  fold_left (fun a var => dict_set Var.eqb a var None) (variables cw) [].

(** The loop over the ordered values.  [rec] is the recursive call.  The
    assignment is one dictionary mutated in place, so it is threaded
    through; the boolean tells whether [result] was an assignment (it is
    then the threaded dictionary itself) or [None]. *)
Fixpoint try_values (rec : Assignment -> M (bool * Assignment))
         (var : Var.t) (values : list string) (assignment : Assignment)
  : M (bool * Assignment) :=
  match values with
  | [] => ret (false, assignment)
  | value :: rest =>
      let deep_copy_assignment := dict_set Var.eqb assignment var (Some value) in
      ok <- lift (consistent deep_copy_assignment) ;;
      if ok then
        r <- rec (dict_set Var.eqb assignment var (Some value)) ;;
        if fst r then ret r
        else try_values rec var rest (dict_set Var.eqb (snd r) var None)
      else try_values rec var rest assignment
  end.

Fixpoint backtrack_rec (fuel : nat) (assignment : Assignment)
  : M (bool * Assignment) :=
  match fuel with
  | 0 => out_of_fuel
  | S fuel' =>
      enter_backtrack ;;;
      let assignment :=
        match assignment with
        | [] => blank_assignment
        | _ :: _ => assignment
        end in
      if assignment_complete assignment then ret (true, assignment)
      else
        match select_unassigned_variable assignment with
        | None => raise KeyError
        | Some var =>
            values <- order_domain_values var assignment ;;
            try_values (backtrack_rec fuel') var values assignment
        end
  end.

(** The recursion is as deep as there are unassigned variables. *)
Definition backtrack (assignment : Assignment) : M (option Assignment) :=
  r <- backtrack_rec (S (List.length assignment + List.length (variables cw)))
                     assignment ;;
  ret (if fst r then Some (snd r) else None).

(** *** [solve] *)
Definition solve : M (option Assignment) :=
  enforce_node_consistency ;;;
  ac3 None ;;;
  backtrack [].
End Creator.

(** ** Notions used to state the properties *)

(** The current domain of a variable, as a list ([[]] for a variable that
    has no entry in [self.domains]). *)
Definition dom (st : State) (v : Var.t) : list string :=
  match dict_get Var.eqb (domains st) v with
  | Some l => heap_get (heap st) l
  | None => []
  end.

(** The set objects of distinct entries of [self.domains] are distinct
    objects. *)
Definition no_alias (st : State) : Prop :=
  NoDup (map snd (domains st)).

(** Every set object holds a set: no word twice. *)
Definition sets_ok (st : State) : Prop :=
  Forall (@NoDup string) (heap st).

(** Two states with the same domains (they may differ in the ghost
    counter). *)
Definition same_store (st st' : State) : Prop :=
  domains st' = domains st /\ heap st' = heap st.

(** [wx] and [wy] agree at the overlap indices: both characters exist and
    are equal. *)
Definition agree (kx ky : nat) (wx wy : string) : Prop :=
  exists c, String.get kx wx = Some c /\ String.get ky wy = Some c.

Definition agreeb (kx ky : nat) (wx wy : string) : bool :=
  match String.get kx wx, String.get ky wy with
  | Some cx, Some cy => Ascii.eqb cx cy
  | _, _ => false
  end.

(** [wx] has a supporting word in [dy]. *)
Definition has_support (kx ky : nat) (dy : list string) (wx : string) : Prop :=
  exists wy, In wy dy /\ agree kx ky wx wy.

Definition supportedb (kx ky : nat) (dy : list string) (wx : string) : bool :=
  existsb (agreeb kx ky wx) dy.

(** The state with the set object at [l] replaced. *)
Definition with_domain (st : State) (l : loc) (s : list string) : State :=
  mkState (domains st) (heap_set (heap st) l s) (backtrack_calls st).

Definition mem_var (v : Var.t) (l : list Var.t) : bool := existsb (Var.eqb v) l.

Definition swap_overlap (o : option (nat * nat)) : option (nat * nat) :=
  match o with
  | Some (kx, ky) => Some (ky, kx)
  | None => None
  end.

Definition overlap_eqb (o1 o2 : option (nat * nat)) : bool :=
  match o1, o2 with
  | None, None => true
  | Some (a, b), Some (c, d) => (a =? c) && (b =? d)
  | _, _ => false
  end.

Definition entry_ok (cw : Crossword) (e : arc * option (nat * nat)) : bool :=
  let '((x, y), o) := e in
  mem_var x (variables cw) && mem_var y (variables cw)
  && negb (Var.eqb x y)
  && match overlap_of cw x y, overlap_of cw y x with
     | Some o1, Some o2 => overlap_eqb o2 (swap_overlap o1)
     | _, _ => false
     end.

Fixpoint nodup_words (l : list string) : bool :=
  match l with
  | [] => true
  | w :: l' => negb (set_mem w l') && nodup_words l'
  end.

(** The puzzle-model invariants of section 3 of the specification, as a
    check: every table key is an ordered pair of distinct variables of the
    puzzle, the table is symmetric (the entry of [(y, x)] is the entry of
    [(x, y)] swapped), and the vocabulary is a set. *)
Definition wf_crossword (cw : Crossword) : bool :=
  forallb (entry_ok cw) (overlaps cw) && nodup_words (words cw).

(** A satisfying assignment: every variable of the puzzle holds a word of
    the vocabulary of the slot's length, distinct variables hold distinct
    words, and the words of overlapping variables agree at the overlap
    indices. *)
Definition satisfies (cw : Crossword) (a : Assignment) : Prop :=
  (forall v, In v (variables cw) ->
     exists w, dict_get Var.eqb a v = Some (Some w)
               /\ In w (words cw) /\ String.length w = Var.length v)
  /\ (forall v1 v2 w1 w2,
        In v1 (variables cw) -> In v2 (variables cw) -> v1 <> v2 ->
        dict_get Var.eqb a v1 = Some (Some w1) ->
        dict_get Var.eqb a v2 = Some (Some w2) -> w1 <> w2)
  /\ (forall x y kx ky wx wy,
        overlap_of cw x y = Some (Some (kx, ky)) ->
        dict_get Var.eqb a x = Some (Some wx) ->
        dict_get Var.eqb a y = Some (Some wy) -> agree kx ky wx wy).

(** ** Small puzzles

    The scenarios of section 8 of the specification, and a few more. *)

Open Scope string_scope.

(** Two slots of length 2 crossing in the top right cell of a 2 by 2
    grid: character 1 of the across word is character 0 of the down
    word. *)
Definition across2 : Var.t := Var.mk 0 0 ACROSS 2.
Definition down2 : Var.t := Var.mk 0 1 DOWN 2.
Definition puzzle_2x2 : Crossword :=
  make_crossword [across2; down2] ["AT"; "TO"; "OX"].

(** A single slot of length 3. *)
Definition across3 : Var.t := Var.mk 2 0 ACROSS 3.
Definition puzzle_single : Crossword :=
  make_crossword [across3] ["AB"; "CAT"; "DOG"].

(** Two slots of length 3 crossing in the bottom left cell: character 0 of
    the across word is character 2 of the down word. *)
Definition down3 : Var.t := Var.mk 0 0 DOWN 3.
Definition puzzle_no_solution : Crossword :=
  make_crossword [across3; down3] ["CAT"; "DOG"].
Definition puzzle_cross3 : Crossword :=
  make_crossword [across3; down3] ["CAT"; "DOC"; "AT"].

(** A slot of length 3 and, apart from it, a slot of length 2. *)
Definition far_down2 : Var.t := Var.mk 0 5 DOWN 2.
Definition puzzle_apart : Crossword :=
  make_crossword [across3; far_down2] ["CAT"; "DOG"; "AT"].

(** A single slot of length 2 with a vocabulary of longer words. *)
Definition puzzle_too_long : Crossword :=
  make_crossword [far_down2] ["CAT"; "DOG"].

Close Scope string_scope.

(** The state a computation ends in, and its outcome. *)
Definition final_state {A : Type} (r : outcome A * State) : State := snd r.
Definition result {A : Type} (r : outcome A * State) : outcome A := fst r.

(** ** Notions used in the proofs *)

(** Every run of [m], however it ends, takes a state to an [R]-related
    one. *)
Definition preserves {A : Type} (R : State -> State -> Prop) (m : M A) : Prop :=
  forall st o st', m st = (o, st') -> R st st'.

(** Only the set object at [lx] may have changed. *)
Definition only_at (lx : option loc) (st st' : State) : Prop :=
  domains st' = domains st
  /\ backtrack_calls st' = backtrack_calls st
  /\ forall l, lx <> Some l -> heap_get (heap st') l = heap_get (heap st) l.

(** The relation kept by a computation that writes at most to the set
    object of [x]. *)
Definition writes_only (x : Var.t) (st st' : State) : Prop :=
  only_at (dict_get Var.eqb (domains st) x) st st'.

(** What holds while [__init__] fills [self.domains]: the set objects
    allocated so far are distinct, none is the vocabulary object, and
    each holds the vocabulary. *)
Definition init_inv (ws : list string) (st : State) : Prop :=
  NoDup (map snd (domains st))
  /\ (forall l, In l (map snd (domains st)) -> 0 < l < List.length (heap st))
  /\ Forall (eq ws) (heap st)
  /\ 0 < List.length (heap st).

(** The words [enforce_node_consistency] keeps: those not longer than the
    slot. *)
Definition fits (v : Var.t) (w : string) : bool :=
  negb (Var.length v <? String.length w).

(** The body of the loop of [enforce_node_consistency]. *)
Definition node_body (variable : Var.t) : M unit :=
  dom <- domain_of variable ;;
  for_each (filter (fun value => Var.length variable <? String.length value) dom)
           (fun value => domain_remove variable value).

(** [st'] is [st] with some words removed from some set objects. *)
Definition shrinks (st st' : State) : Prop :=
  domains st' = domains st
  /\ backtrack_calls st' = backtrack_calls st
  /\ List.length (heap st') = List.length (heap st)
  /\ forall l, exists f, heap_get (heap st') l = filter f (heap_get (heap st) l).

(** The arc [(x, y)] is consistent: every word of the domain of [x] has a
    support in the domain of [y], and the domain of [x] is not empty. *)
Definition arc_ok (st : State) (x y : Var.t) (kx ky : nat) : Prop :=
  (forall wx, In wx (dom st x) -> supportedb kx ky (dom st y) wx = true)
  /\ dom st x <> [].

(** The loop invariant: an arc with a defined overlap is waiting in the
    queue or is consistent. *)
Definition ac3_inv (cw : Crossword) (q : list arc) (st : State) : Prop :=
  forall x y kx ky,
    overlap_of cw x y = Some (Some (kx, ky)) ->
    In (x, y) q \/ arc_ok st x y kx ky.

(** The search reads the domains and only counts its calls. *)
Definition search_rel (st st' : State) : Prop :=
  same_store st st' /\ backtrack_calls st <= backtrack_calls st'.

(** The dictionary [backtrack] works on: the argument, or the blank
    assignment when the argument is empty. *)
Definition working_assignment (cw : Crossword) (a : Assignment) : Assignment :=
  match a with
  | [] => blank_assignment cw
  | _ :: _ => a
  end.

(** What a returning call of [backtrack] on [a] guarantees of the
    dictionary it leaves and of its result. *)
Definition bt_post (cw : Crossword) (st0 : State) (a : Assignment)
           (r : bool * Assignment) : Prop :=
  dict_keys (snd r) = dict_keys a
  /\ (forall v w, In (v, Some w) (snd r) ->
                  In (v, Some w) a \/ In w (dom st0 v))
  /\ (fst r = true ->
      assignment_complete (snd r) = true
      /\ (snd r = a \/ consistent cw (snd r) = Return true)).

(** The number of unassigned entries. *)
Definition unassigned (a : Assignment) : nat :=
  List.length (filter (fun kv => is_None (snd kv)) a).

(** The assignments the search works on: the keys are those of the blank
    assignment, and every word held belongs to a variable of [P] and comes
    from the domain of its variable. *)
Definition good (cw : Crossword) (st0 : State) (P : Var.t -> Prop)
           (a : Assignment) : Prop :=
  dict_keys a = dict_keys (blank_assignment cw)
  /\ forall v w, In (v, Some w) a -> P v /\ In w (dom st0 v).

(** [a] is part of [s]. *)
Definition part_of (a s : Assignment) : Prop :=
  forall v w, In (v, Some w) a -> dict_get Var.eqb s v = Some (Some w).

(** A satisfying assignment whose words are all still in the domains. *)
Definition viable (cw : Crossword) (st0 : State) (s : Assignment) : Prop :=
  satisfies cw s
  /\ forall v w, In v (variables cw) ->
                 dict_get Var.eqb s v = Some (Some w) -> In w (dom st0 v).

(** What a call of the search on [a] does: it returns; when it fails the
    dictionary is as it was; and it succeeds when [a] is part of a viable
    satisfying assignment. *)
Definition bt_total (cw : Crossword) (st0 : State) (a : Assignment)
           (run : outcome (bool * Assignment) * State) : Prop :=
  exists r st',
    run = (Return r, st')
    /\ (fst r = false -> snd r = a)
    /\ (forall s, viable cw st0 s -> part_of a s -> fst r = true).

(** Every arc with a defined overlap joins two variables that have a
    domain. *)
Definition arcs_have_domains (cw : Crossword) (st : State) : Prop :=
  forall x y o,
    overlap_of cw x y = Some (Some o) ->
    (exists l, dict_get Var.eqb (domains st) x = Some l)
    /\ (exists l, dict_get Var.eqb (domains st) y = Some l).

(** Every word of the satisfying assignment [s] is in its domain. *)
Definition holds_solution (cw : Crossword) (s : Assignment) (st : State) : Prop :=
  forall v w, In v (variables cw) ->
              dict_get Var.eqb s v = Some (Some w) -> In w (dom st v).

(** A check for [satisfies] on concrete puzzles. *)
Definition satisfiesb (cw : Crossword) (a : Assignment) : bool :=
  forallb (fun v =>
    match dict_get Var.eqb a v with
    | Some (Some w) => set_mem w (words cw) && (String.length w =? Var.length v)
    | _ => false
    end) (variables cw)
  && forallb (fun v1 =>
       forallb (fun v2 =>
         Var.eqb v1 v2
         || match dict_get Var.eqb a v1, dict_get Var.eqb a v2 with
            | Some (Some w1), Some (Some w2) => negb (String.eqb w1 w2)
            | _, _ => true
            end) (variables cw)) (variables cw)
  && forallb (fun e : arc * option (nat * nat) =>
       match snd e with
       | Some (kx, ky) =>
           match dict_get Var.eqb a (fst (fst e)),
                 dict_get Var.eqb a (snd (fst e)) with
           | Some (Some wx), Some (Some wy) => agreeb kx ky wx wy
           | _, _ => true
           end
       | None => true
       end) (overlaps cw).

(** The ordered pairs of distinct variables, in the order in which two
    nested loops over the variable set produce them (the outer loop gives
    the first component). *)
Definition product_arcs (vars : list Var.t) : list arc :=
  flat_map (fun v1 =>
    flat_map (fun v2 => if Var.eqb v1 v2 then [] else [(v1, v2)]) vars) vars.

Fixpoint arcs_eqb (l1 l2 : list arc) : bool :=
  match l1, l2 with
  | [], [] => true
  | a1 :: l1', a2 :: l2' => arc_eqb a1 a2 && arcs_eqb l1' l2'
  | _, _ => false
  end.

Fixpoint nodup_vars (l : list Var.t) : bool :=
  match l with
  | [] => true
  | v :: l' => negb (mem_var v l') && nodup_vars l'
  end.

(** The variable set has no repetition and the overlap table lists its
    keys in the order of [product_arcs]: the table was filled by two
    nested loops over the variable set, and the set is iterated in the
    same order every time. *)
Definition table_in_order (cw : Crossword) : bool :=
  nodup_vars (variables cw)
  && arcs_eqb (dict_keys (overlaps cw)) (product_arcs (variables cw)).

(** The words of the domain at the head of an arc are long enough for the
    overlap index of the arc. *)
Definition arc_indexed (cw : Crossword) (st : State) (a : arc) : Prop :=
  forall kx ky w,
    overlap_of cw (fst a) (snd a) = Some (Some (kx, ky)) ->
    In w (dom st (fst a)) -> String.get kx w <> None.

(** The run ends as Python code ends, by returning or by raising, and a
    returned value satisfies [Q]: the fuel of the model was enough. *)
Definition settles {A : Type} (Q : A -> Prop) (run : outcome A * State) : Prop :=
  match fst run with
  | Return r => Q r
  | Raise _ => True
  | OutOfFuel => False
  end.

(** No run of [m] is cut short for lack of fuel. *)
Definition never_times_out {A : Type} (m : M A) : Prop :=
  forall st, settles (fun _ => True) (m st).

(** A failed call leaves the dictionary as it was. *)
Definition restores (a : Assignment) (r : bool * Assignment) : Prop :=
  fst r = false -> snd r = a.

(** The words of a neighbour's domain [dn] that [value] rules out: the
    word itself, and the words that do not agree with it at the overlap
    indices (a word too short for its index agrees with nothing). *)
Definition ruled_out_by (kx ky : nat) (value : string) (dn : list string)
  : nat :=
  List.length
    (filter (fun comp_value =>
               String.eqb comp_value value
               || negb (agreeb kx ky value comp_value)) dn).

(** The number of words [value] rules out for the unassigned neighbours
    of [var]. *)
Definition eliminations (cw : Crossword) (st : State) (a : Assignment)
           (var : Var.t) (value : string) : nat :=
  list_sum
    (map (fun nb =>
            match dict_get Var.eqb a nb, overlap_of cw var nb with
            | Some None, Some (Some (kx, ky)) =>
                ruled_out_by kx ky value (dom st nb)
            | _, _ => 0
            end) (neighbors cw var)).

(** ** [letter_grid]

    The method reads [self.crossword.height] and [self.crossword.width]
    and nothing else of the creator; the two numbers are parameters
    here. *)

Definition Grid : Type := list (list (option ascii)).

(** [[[None for _ in range(width)] for _ in range(height)]]. *)
Definition blank_grid (height width : nat) : Grid :=
  repeat (repeat None width) height.

(** [l[n] = x] for [n] within [l]. *)
Fixpoint list_update {A : Type} (l : list A) (n : nat) (x : A) : list A :=
  match l, n with
  | [], _ => []
  | _ :: l', 0 => x :: l'
  | y :: l', S n' => y :: list_update l' n' x
  end.

(** [letters[i][j]], for reading. *)
Definition grid_get (letters : Grid) (i j : nat) : option ascii :=
  match nth_error letters i with
  | Some row =>
      match nth_error row j with
      | Some c => c
      | None => None
      end
  | None => None
  end.

(** [letters[i][j] = c]: an [IndexError] when [i] is not a row or [j] is
    not a column of that row. *)
Definition grid_set (letters : Grid) (i j : nat) (c : ascii) : outcome Grid :=
  match nth_error letters i with
  | None => Raise IndexError
  | Some row =>
      if j <? List.length row
      then Return (list_update letters i (list_update row j (Some c)))
      else Raise IndexError
  end.

(** The cell [(i, j)] the loop body computes for character [k]. *)
Definition cell (variable : Var.t) (k : nat) : nat * nat :=
  let direction := Var.direction variable in
  (Var.i variable + (if Direction_eqb direction DOWN then k else 0),
   Var.j variable + (if Direction_eqb direction ACROSS then k else 0)).

(** The inner loop, over [k in range(len(word))]. *)
Fixpoint write_word (variable : Var.t) (word : string) (ks : list nat)
         (letters : Grid) : outcome Grid :=
  match ks with
  | [] => Return letters
  | k :: rest =>
      let '(i, j) := cell variable k in
      match str_index word k with
      | Return c =>
          match grid_set letters i j c with
          | Return letters' => write_word variable word rest letters'
          | Raise e => Raise e
          | OutOfFuel => OutOfFuel
          end
      | Raise e => Raise e
      | OutOfFuel => OutOfFuel
      end
  end.

(** The outer loop, over [assignment.items()]; [len(None)] is a
    [TypeError]. *)
Fixpoint letter_grid_loop (items : Assignment) (letters : Grid)
  : outcome Grid :=
  match items with
  | [] => Return letters
  | (variable, None) :: _ => Raise TypeError
  | (variable, Some word) :: rest =>
      match write_word variable word (seq 0 (String.length word)) letters with
      | Return letters' => letter_grid_loop rest letters'
      | Raise e => Raise e
      | OutOfFuel => OutOfFuel
      end
  end.

Definition letter_grid (height width : nat) (assignment : Assignment)
  : outcome Grid :=
  letter_grid_loop assignment (blank_grid height width).

(** A grid of [height] rows of [width] cells. *)
Definition grid_shape (height width : nat) (g : Grid) : Prop :=
  List.length g = height /\ forall row, In row g -> List.length row = width.

(** The characters written so far, as a set of triples (variable, word,
    index), and what the grid shows of them: every written character is
    shown in its cell, and a cell no written character falls on is
    empty. *)
Definition shows (W : Var.t -> string -> nat -> Prop) (g : Grid) : Prop :=
  (forall v w k, W v w k -> grid_get g (fst (cell v k)) (snd (cell v k))
                            = String.get k w)
  /\ (forall i j, (forall v w k, W v w k -> cell v k <> (i, j)) ->
                  grid_get g i j = None).

(** The characters of the words of [a]. *)
Definition chars_of (a : Assignment) (v : Var.t) (w : string) (k : nat)
  : Prop :=
  In (v, Some w) a /\ k < String.length w.

(** Characters that fall on the same cell are the same character. *)
Definition cells_agree (a : Assignment) : Prop :=
  forall v1 w1 k1 v2 w2 k2,
    chars_of a v1 w1 k1 -> chars_of a v2 w2 k2 ->
    cell v1 k1 = cell v2 k2 -> String.get k1 w1 = String.get k2 w2.

(** ** Basic facts: equality tests, dictionaries, the heap *)

Unset Implicit Arguments.

Lemma Direction_eqb_eq (d1 d2 : Direction) :
  Direction_eqb d1 d2 = true <-> d1 = d2.
Proof. destruct d1, d2; simpl; split; congruence. Qed.

Lemma Var_eqb_eq (v1 v2 : Var.t) : Var.eqb v1 v2 = true <-> v1 = v2.
Proof.
  destruct v1 as [i1 j1 d1 n1], v2 as [i2 j2 d2 n2]; unfold Var.eqb; simpl.
  rewrite !andb_true_iff, !Nat.eqb_eq, Direction_eqb_eq.
  split.
  - intros [[[-> ->] ->] ->]; reflexivity.
  - intros H; injection H as -> -> -> ->; auto.
Qed.

Lemma Var_eqb_refl (v : Var.t) : Var.eqb v v = true.
Proof. apply Var_eqb_eq; reflexivity. Qed.

Lemma Var_eqb_neq (v1 v2 : Var.t) : Var.eqb v1 v2 = false <-> v1 <> v2.
Proof.
  rewrite <- Var_eqb_eq. destruct (Var.eqb v1 v2); split; congruence.
Qed.

Lemma Var_eqb_sym (v1 v2 : Var.t) : Var.eqb v1 v2 = Var.eqb v2 v1.
Proof.
  destruct (Var.eqb v1 v2) eqn:E1, (Var.eqb v2 v1) eqn:E2; auto.
  - apply Var_eqb_eq in E1. subst. rewrite Var_eqb_refl in E2. discriminate.
  - apply Var_eqb_eq in E2. subst. rewrite Var_eqb_refl in E1. discriminate.
Qed.

Lemma arc_eqb_eq (a1 a2 : arc) : arc_eqb a1 a2 = true <-> a1 = a2.
Proof.
  destruct a1 as [x1 y1], a2 as [x2 y2]; unfold arc_eqb; simpl.
  rewrite andb_true_iff, !Var_eqb_eq. split.
  - intros [-> ->]; reflexivity.
  - intros H; injection H as -> ->; auto.
Qed.

Lemma mem_var_In (v : Var.t) (l : list Var.t) : mem_var v l = true <-> In v l.
Proof.
  unfold mem_var. rewrite existsb_exists. split.
  - intros [x [Hin Heq]]. apply Var_eqb_eq in Heq. subst. assumption.
  - intros Hin. exists v. split; [assumption | apply Var_eqb_refl].
Qed.

Lemma set_mem_In (w : string) (s : list string) : set_mem w s = true <-> In w s.
Proof.
  unfold set_mem. rewrite existsb_exists. split.
  - intros [x [Hin Heq]]. apply String.eqb_eq in Heq. subst. assumption.
  - intros Hin. exists w. split; [assumption | apply String.eqb_refl].
Qed.

Lemma nodup_words_NoDup (l : list string) : nodup_words l = true <-> NoDup l.
Proof.
  induction l as [|w l IH]; simpl.
  - split; [constructor | reflexivity].
  - rewrite andb_true_iff, negb_true_iff, IH. split.
    + intros [Hm Hn]. constructor; [|assumption].
      rewrite <- set_mem_In. congruence.
    + intros H. inversion H; subst. split; [|assumption].
      destruct (set_mem w l) eqn:E; [|reflexivity].
      apply set_mem_In in E. contradiction.
Qed.

Section DictFacts.
Context {K V : Type}.
Variable eqb : K -> K -> bool.
Hypothesis eqb_eq : forall k1 k2, eqb k1 k2 = true <-> k1 = k2.

Lemma dict_get_In (d : list (K * V)) (k : K) (v : V) :
  dict_get eqb d k = Some v -> In (k, v) d.
Proof.
  induction d as [|[k' v'] d IH]; simpl; [discriminate|].
  destruct (eqb k k') eqn:E.
  - apply eqb_eq in E. subst. intros H. injection H as ->. left; reflexivity.
  - intros H. right. apply IH. assumption.
Qed.

Lemma dict_get_key (d : list (K * V)) (k : K) (v : V) :
  dict_get eqb d k = Some v -> In k (dict_keys d).
Proof.
  intros H. apply dict_get_In in H. unfold dict_keys.
  apply in_map_iff. exists (k, v). split; [reflexivity | assumption].
Qed.

Lemma dict_key_get (d : list (K * V)) (k : K) :
  In k (dict_keys d) -> exists v, dict_get eqb d k = Some v.
Proof.
  induction d as [|[k' v'] d IH]; simpl; [contradiction|].
  intros [Heq | Hin].
  - subst. exists v'.
    assert (E : eqb k k = true) by (apply eqb_eq; reflexivity).
    rewrite E. reflexivity.
  - destruct (eqb k k'); [exists v'; reflexivity | apply IH; assumption].
Qed.

Lemma dict_get_set_same (d : list (K * V)) (k : K) (v : V) :
  dict_get eqb (dict_set eqb d k v) k = Some v.
Proof.
  assert (E : eqb k k = true) by (apply eqb_eq; reflexivity).
  induction d as [|[k' v'] d IH]; simpl.
  - rewrite E. reflexivity.
  - destruct (eqb k k') eqn:E'; simpl; rewrite ?E'; auto.
Qed.

Lemma dict_get_set_other (d : list (K * V)) (k k0 : K) (v : V) :
  k0 <> k -> dict_get eqb (dict_set eqb d k v) k0 = dict_get eqb d k0.
Proof.
  intros Hne.
  assert (E : eqb k0 k = false).
  { destruct (eqb k0 k) eqn:E; [|reflexivity].
    apply eqb_eq in E. contradiction. }
  induction d as [|[k' v'] d IH]; simpl.
  - rewrite E. reflexivity.
  - destruct (eqb k k') eqn:E'; simpl.
    + apply eqb_eq in E'. subst k'. rewrite E. reflexivity.
    + destruct (eqb k0 k'); auto.
Qed.

Lemma dict_keys_set_present (d : list (K * V)) (k : K) (v v0 : V) :
  dict_get eqb d k = Some v0 ->
  dict_keys (dict_set eqb d k v) = dict_keys d.
Proof.
  induction d as [|[k' v'] d IH]; simpl; [discriminate|].
  destruct (eqb k k') eqn:E; simpl; [reflexivity|].
  intros H. rewrite IH by assumption. reflexivity.
Qed.

Lemma dict_set_restore (d : list (K * V)) (k : K) (v v0 : V) :
  dict_get eqb d k = Some v0 ->
  dict_set eqb (dict_set eqb d k v) k v0 = d.
Proof.
  induction d as [|[k' v'] d IH]; simpl; [discriminate|].
  destruct (eqb k k') eqn:E; simpl; rewrite E.
  - intros H. injection H as ->. reflexivity.
  - intros H. rewrite IH by assumption. reflexivity.
Qed.

Lemma dict_set_In (d : list (K * V)) (k : K) (v : V) (k0 : K) (v1 : V) :
  In (k0, v1) (dict_set eqb d k v) -> In (k0, v1) d \/ v1 = v.
Proof.
  induction d as [|[k' v'] d IH]; simpl.
  - intros [H | []]. injection H as _ <-. right; reflexivity.
  - destruct (eqb k k') eqn:E; simpl.
    + intros [H | H]; [injection H as _ <-; right; reflexivity | left; right; assumption].
    + intros [H | H]; [left; left; assumption|].
      destruct (IH H); [left; right; assumption | right; assumption].
Qed.
End DictFacts.

Lemma heap_get_set_same (h : list (list string)) (l : loc) (s : list string) :
  l < List.length h -> heap_get (heap_set h l s) l = s.
Proof.
  revert l. induction h as [|s' h IH]; intros [|l] Hl; simpl in *; try lia.
  - reflexivity.
  - unfold heap_get in *. simpl. apply IH. lia.
Qed.

Lemma heap_get_set_other (h : list (list string)) (l l' : loc) (s : list string) :
  l' <> l -> heap_get (heap_set h l s) l' = heap_get h l'.
Proof.
  revert l l'. induction h as [|s' h IH]; intros [|l] [|l'] Hne; simpl;
    try reflexivity; try congruence.
  unfold heap_get in *. simpl. apply IH. congruence.
Qed.

Lemma heap_get_out (h : list (list string)) (l : loc) :
  List.length h <= l -> heap_get h l = [].
Proof. intros H. unfold heap_get. apply nth_overflow. assumption. Qed.

Lemma heap_get_nonempty (h : list (list string)) (l : loc) (w : string) :
  In w (heap_get h l) -> l < List.length h.
Proof.
  intros H. destruct (Nat.lt_ge_cases l (List.length h)) as [|Hge]; [assumption|].
  rewrite heap_get_out in H by assumption. contradiction.
Qed.

Lemma heap_set_length (h : list (list string)) (l : loc) (s : list string) :
  List.length (heap_set h l s) = List.length h.
Proof.
  revert l. induction h as [|s' h IH]; intros [|l]; simpl; auto.
Qed.

Lemma heap_set_same (h : list (list string)) (l : loc) :
  heap_set h l (heap_get h l) = h.
Proof.
  revert l. induction h as [|s' h IH]; intros [|l]; simpl; try reflexivity.
  unfold heap_get in *. simpl. rewrite IH. reflexivity.
Qed.

Lemma heap_set_set (h : list (list string)) (l : loc) (s1 s2 : list string) :
  heap_set (heap_set h l s1) l s2 = heap_set h l s2.
Proof.
  revert l. induction h as [|s' h IH]; intros [|l]; simpl; try reflexivity.
  rewrite IH. reflexivity.
Qed.

Lemma heap_get_set_filter (h : list (list string)) (l : loc)
      (f : string -> bool) :
  heap_get (heap_set h l (filter f (heap_get h l))) l = filter f (heap_get h l).
Proof.
  destruct (Nat.lt_ge_cases l (List.length h)) as [Hlt | Hge].
  - apply heap_get_set_same. assumption.
  - rewrite (heap_get_out h l Hge). simpl. apply heap_get_out.
    rewrite heap_set_length. assumption.
Qed.

Lemma heap_size_set (h : list (list string)) (l : loc) (s : list string) :
  l < List.length h ->
  heap_size (heap_set h l s) + List.length (heap_get h l)
  = heap_size h + List.length s.
Proof.
  unfold heap_size, heap_get.
  revert l. induction h as [|s' h IH]; intros [|l] Hl; simpl in *; try lia.
  specialize (IH l ltac:(lia)). lia.
Qed.

Lemma filter_length_le {A : Type} (f : A -> bool) (l : list A) :
  List.length (filter f l) <= List.length l.
Proof. induction l as [|x l IH]; simpl; [lia | destruct (f x); simpl; lia]. Qed.

Lemma filter_length_lt {A : Type} (f : A -> bool) (l : list A) (x : A) :
  In x l -> f x = false -> List.length (filter f l) < List.length l.
Proof.
  induction l as [|y l IH]; simpl; [contradiction|].
  intros [-> | Hin] Hf.
  - rewrite Hf. pose proof (filter_length_le f l). lia.
  - specialize (IH Hin Hf). destruct (f y); simpl; lia.
Qed.

Lemma filter_all {A : Type} (f : A -> bool) (l : list A) :
  forallb f l = true -> filter f l = l.
Proof.
  induction l as [|x l IH]; simpl; [reflexivity|].
  rewrite andb_true_iff. intros [-> H]. rewrite IH by assumption. reflexivity.
Qed.

Lemma filter_filter {A : Type} (f g : A -> bool) (l : list A) :
  filter g (filter f l) = filter (fun x => f x && g x) l.
Proof.
  induction l as [|x l IH]; simpl; [reflexivity|].
  destruct (f x); simpl; [destruct (g x)|]; rewrite IH; reflexivity.
Qed.

(** ** The monad: inversion principles *)

Lemma bind_Return {A B : Type} (m : M A) (f : A -> M B) st b st' :
  bind m f st = (Return b, st') ->
  exists a st1, m st = (Return a, st1) /\ f a st1 = (Return b, st').
Proof.
  unfold bind. destruct (m st) as [[a | e |] st1]; intros H; try discriminate.
  exists a, st1. split; [reflexivity | assumption].
Qed.

Lemma bind_run {A B : Type} (m : M A) (f : A -> M B) st a st1 :
  m st = (Return a, st1) -> bind m f st = f a st1.
Proof. unfold bind. intros ->. reflexivity. Qed.

Tactic Notation "inv_bind" hyp(H) "as" ident(a) ident(s) ident(E) :=
  apply bind_Return in H; destruct H as (a & s & E & H).

(** Reading a domain never changes the state. *)
Lemma domain_of_state (x : Var.t) st o st' :
  domain_of x st = (o, st') -> st' = st.
Proof.
  unfold domain_of. destruct (dict_get Var.eqb (domains st) x); intros H;
    injection H as _ <-; reflexivity.
Qed.

Lemma domain_of_Return (x : Var.t) st d st' :
  domain_of x st = (Return d, st') ->
  st' = st /\ d = dom st x /\ exists l, dict_get Var.eqb (domains st) x = Some l.
Proof.
  unfold domain_of, dom. destruct (dict_get Var.eqb (domains st) x) as [l|];
    intros H; [|discriminate].
  injection H as <- <-. repeat split. exists l. reflexivity.
Qed.

Lemma domain_of_run (x : Var.t) st l :
  dict_get Var.eqb (domains st) x = Some l ->
  domain_of x st = (Return (dom st x), st).
Proof. unfold domain_of, dom. intros ->. reflexivity. Qed.

Lemma lift_Return {A : Type} (o : outcome A) st a st' :
  lift o st = (Return a, st') -> o = Return a /\ st' = st.
Proof. unfold lift. intros H. injection H as -> <-. auto. Qed.

(** ** [revise] *)

Lemma agreeb_agree (kx ky : nat) (wx wy : string) :
  agreeb kx ky wx wy = true <-> agree kx ky wx wy.
Proof.
  unfold agreeb, agree.
  destruct (String.get kx wx) as [cx|], (String.get ky wy) as [cy|]; split;
    try discriminate; try (intros [c [H1 H2]]; discriminate).
  - intros H. apply Ascii.eqb_eq in H. subst. exists cy. auto.
  - intros [c [H1 H2]]. injection H1 as ->. injection H2 as ->.
    apply Ascii.eqb_refl.
Qed.

Lemma supportedb_has_support (kx ky : nat) (dy : list string) (wx : string) :
  supportedb kx ky dy wx = true <-> has_support kx ky dy wx.
Proof.
  unfold supportedb, has_support. rewrite existsb_exists.
  split; intros [wy [Hin H]]; exists wy; (split; [assumption|]);
    apply agreeb_agree; assumption.
Qed.

Lemma chars_match_Some (kx ky : nat) (wx wy : string) :
  chars_match (Some (kx, ky)) wx wy
  = match String.get kx wx, String.get ky wy with
    | Some cx, Some cy => Return (Ascii.eqb cx cy)
    | _, _ => Raise IndexError
    end.
Proof.
  unfold chars_match, str_index.
  destruct (String.get kx wx), (String.get ky wy); reflexivity.
Qed.

Lemma find_support_Some (kx ky : nat) (val_x : string) (dy : list string) :
  find_support (Some (kx, ky)) val_x dy = Return (supportedb kx ky dy val_x).
Proof.
  induction dy as [|val_y dy IH]; [reflexivity|].
  cbn [find_support]. rewrite chars_match_Some. unfold supportedb in *.
  cbn [existsb]. unfold agreeb at 1.
  destruct (String.get kx val_x) as [cx|]; [|exact IH].
  destruct (String.get ky val_y) as [cy|]; [|exact IH].
  destruct (Ascii.eqb cx cy); [reflexivity | exact IH].
Qed.

Section ReviseFacts.
Variable cw : Crossword.

Lemma revise_scan_run (kx ky : nat) (y : Var.t) (dx : list string) st :
  dx = [] \/ (exists l, dict_get Var.eqb (domains st) y = Some l) ->
  revise_scan (Some (kx, ky)) y dx st
  = (Return (filter (fun w => negb (supportedb kx ky (dom st y) w)) dx), st).
Proof.
  induction dx as [|val_x dx IH]; [reflexivity|].
  intros [Hnil | [l Hl]]; [discriminate|].
  cbn [revise_scan].
  rewrite (bind_run _ _ _ _ _ (domain_of_run _ _ _ Hl)).
  unfold lift at 1. rewrite find_support_Some.
  unfold bind at 1. rewrite (bind_run _ _ _ _ _ (IH (or_intror (ex_intro _ l Hl)))).
  unfold ret. cbn [filter].
  destruct (supportedb kx ky (dom st y) val_x); reflexivity.
Qed.

Lemma revise_scan_inv (kx ky : nat) (y : Var.t) (dx removed : list string)
      st st' :
  revise_scan (Some (kx, ky)) y dx st = (Return removed, st') ->
  st' = st
  /\ removed = filter (fun w => negb (supportedb kx ky (dom st y) w)) dx.
Proof.
  destruct dx as [|val_x dx].
  - intros H. injection H as <- <-. auto.
  - intros H. pose proof H as H0. cbn [revise_scan] in H0.
    inv_bind H0 as dy s1 E.
    apply domain_of_Return in E. destruct E as (_ & _ & l & Hl).
    rewrite revise_scan_run in H by (right; exists l; exact Hl).
    injection H as <- <-. auto.
Qed.

(** The removal loop, when it runs through. *)
Lemma remove_all_inv (x : Var.t) (l : loc) (removed : list string) st st' :
  dict_get Var.eqb (domains st) x = Some l ->
  for_each removed (fun value => domain_remove x value) st = (Return tt, st') ->
  st' = with_domain st l
          (filter (fun w => negb (set_mem w removed)) (heap_get (heap st) l)).
Proof.
  revert st. induction removed as [|v removed IH]; intros st Hl H.
  - injection H as <-. unfold with_domain. simpl.
    rewrite filter_all by (apply forallb_forall; reflexivity).
    rewrite heap_set_same. destruct st; reflexivity.
  - cbn [for_each] in H. inv_bind H as u s1 E.
    unfold domain_remove in E. rewrite Hl in E.
    destruct (set_mem v (heap_get (heap st) l)) eqn:Hm; [|discriminate].
    injection E as _ <-.
    apply IH in H; [|exact Hl]. subst st'. unfold with_domain. simpl.
    apply set_mem_In, heap_get_nonempty in Hm.
    rewrite heap_get_set_same by assumption.
    rewrite heap_set_set. unfold set_remove. rewrite filter_filter.
    f_equal. f_equal. apply filter_ext. intros w.
    rewrite String.eqb_sym. destruct (String.eqb w v); reflexivity.
Qed.

Lemma remove_all_run (x : Var.t) (l : loc) (removed : list string) st :
  dict_get Var.eqb (domains st) x = Some l ->
  NoDup removed ->
  (forall w, In w removed -> In w (heap_get (heap st) l)) ->
  exists st',
    for_each removed (fun value => domain_remove x value) st = (Return tt, st').
Proof.
  revert st. induction removed as [|v removed IH]; intros st Hl Hnd Hin.
  - exists st. reflexivity.
  - cbn [for_each]. inversion Hnd as [|? ? Hv Hnd']; subst.
    pose proof (Hin v (or_introl eq_refl)) as Hv_in.
    assert (E : domain_remove x v st
                = (Return tt, with_domain st l
                                (set_remove v (heap_get (heap st) l)))).
    { unfold domain_remove. rewrite Hl.
      apply set_mem_In in Hv_in. rewrite Hv_in. reflexivity. }
    rewrite (bind_run _ _ _ _ _ E). apply IH; [exact Hl | exact Hnd' |].
    intros w Hw. simpl.
    rewrite heap_get_set_same by (eapply heap_get_nonempty; exact Hv_in).
    unfold set_remove. apply filter_In. split; [apply Hin; right; exact Hw|].
    apply negb_true_iff. apply String.eqb_neq. intros ->. contradiction.
Qed.

(** What a returning call of [revise] did. *)
Lemma revise_inv (x y : Var.t) (kx ky : nat) (b : bool) st st' :
  overlap_of cw x y = Some (Some (kx, ky)) ->
  revise cw x y st = (Return b, st') ->
  exists lx,
    dict_get Var.eqb (domains st) x = Some lx
    /\ st' = with_domain st lx
               (filter (supportedb kx ky (dom st y)) (dom st x))
    /\ b = negb (forallb (supportedb kx ky (dom st y)) (dom st x)).
Proof.
  intros Hov H. unfold revise in H. rewrite Hov in H.
  inv_bind H as dx s1 E1.
  apply domain_of_Return in E1. destruct E1 as (-> & -> & lx & Hlx).
  inv_bind H as removed s2 E2.
  apply revise_scan_inv in E2. destruct E2 as (-> & ->).
  inv_bind H as u s3 E3. destruct u.
  apply (remove_all_inv _ _ _ _ _ Hlx) in E3.
  injection H as <- <-. exists lx. split; [exact Hlx|].
  assert (Hdom : dom st x = heap_get (heap st) lx)
    by (unfold dom; rewrite Hlx; reflexivity).
  split.
  - subst s3. rewrite <- Hdom. f_equal.
    apply filter_ext_in. intros w Hw.
    destruct (supportedb kx ky (dom st y) w) eqn:Hs.
    + apply negb_true_iff.
      destruct (set_mem w _) eqn:Hm; [|reflexivity].
      apply set_mem_In, filter_In in Hm. destruct Hm as [_ Hm].
      rewrite Hs in Hm. discriminate.
    + apply negb_false_iff. apply set_mem_In. apply filter_In.
      split; [exact Hw | rewrite Hs; reflexivity].
  - clear. induction (dom st x) as [|w d IHd]; [reflexivity|].
    cbn [filter forallb].
    destruct (supportedb kx ky (dom st y) w); simpl;
      [exact IHd | reflexivity].
Qed.
End ReviseFacts.

(** ** Frame reasoning: relations every run of a computation respects *)

Section Preserves.
Variable R : State -> State -> Prop.
Hypothesis R_refl : forall st, R st st.
Hypothesis R_trans : forall s1 s2 s3, R s1 s2 -> R s2 s3 -> R s1 s3.

Lemma preserves_ret {A : Type} (a : A) : preserves R (ret a).
Proof. intros st o st' H. injection H as _ <-. apply R_refl. Qed.

Lemma preserves_raise {A : Type} (e : exn) : preserves R (@raise A e).
Proof. intros st o st' H. injection H as _ <-. apply R_refl. Qed.

Lemma preserves_out_of_fuel {A : Type} : preserves R (@out_of_fuel A).
Proof. intros st o st' H. injection H as _ <-. apply R_refl. Qed.

Lemma preserves_lift {A : Type} (o : outcome A) : preserves R (lift o).
Proof. intros st o' st' H. injection H as _ <-. apply R_refl. Qed.

Lemma preserves_domain_of (x : Var.t) : preserves R (domain_of x).
Proof.
  intros st o st' H. apply domain_of_state in H. subst. apply R_refl.
Qed.

Lemma preserves_bind {A B : Type} (m : M A) (f : A -> M B) :
  preserves R m -> (forall a, preserves R (f a)) -> preserves R (bind m f).
Proof.
  intros Hm Hf st o st' H. unfold bind in H.
  destruct (m st) as [[a | e |] st1] eqn:E.
  - eapply R_trans; [eapply Hm; exact E | eapply Hf; exact H].
  - injection H as _ <-. eapply Hm; exact E.
  - injection H as _ <-. eapply Hm; exact E.
Qed.

Lemma preserves_for_each {A : Type} (l : list A) (body : A -> M unit) :
  (forall x, In x l -> preserves R (body x)) -> preserves R (for_each l body).
Proof.
  induction l as [|x l IH]; intros Hb; cbn [for_each].
  - apply preserves_ret.
  - apply preserves_bind; [apply Hb; left; reflexivity|].
    intros _. apply IH. intros x' Hx'. apply Hb. right. assumption.
Qed.
End Preserves.

Lemma only_at_refl lx st : only_at lx st st.
Proof. unfold only_at. auto. Qed.

Lemma only_at_trans lx s1 s2 s3 :
  only_at lx s1 s2 -> only_at lx s2 s3 -> only_at lx s1 s3.
Proof.
  unfold only_at. intros (D1 & C1 & H1) (D2 & C2 & H2).
  repeat split; try congruence.
  intros l Hl. rewrite H2, H1 by assumption. reflexivity.
Qed.

Lemma same_store_refl st : same_store st st.
Proof. unfold same_store. auto. Qed.

Lemma same_store_trans s1 s2 s3 :
  same_store s1 s2 -> same_store s2 s3 -> same_store s1 s3.
Proof. unfold same_store. intros [] []. split; congruence. Qed.

Lemma same_store_dom st st' v : same_store st st' -> dom st' v = dom st v.
Proof. unfold same_store, dom. intros [-> ->]. reflexivity. Qed.

Lemma no_alias_locs (d : list (Var.t * loc)) (x z : Var.t) (lx lz : loc) :
  NoDup (map snd d) ->
  dict_get Var.eqb d x = Some lx -> dict_get Var.eqb d z = Some lz ->
  z <> x -> lz <> lx.
Proof.
  induction d as [|[k l] d IH]; simpl; [discriminate|].
  intros Hnd Hx Hz Hne. inversion Hnd as [|? ? Hl Hnd']; subst.
  destruct (Var.eqb x k) eqn:Ex, (Var.eqb z k) eqn:Ez.
  - apply Var_eqb_eq in Ex, Ez. congruence.
  - injection Hx as Hx. apply (dict_get_In _ Var_eqb_eq) in Hz.
    intros Heq. apply Hl. apply in_map_iff. exists (z, lz).
    split; [simpl; congruence | assumption].
  - injection Hz as Hz. apply (dict_get_In _ Var_eqb_eq) in Hx.
    intros Heq. apply Hl. apply in_map_iff. exists (x, lx).
    split; [simpl; congruence | assumption].
  - apply IH; assumption.
Qed.

Lemma only_at_dom (st st' : State) (x z : Var.t) :
  no_alias st ->
  only_at (dict_get Var.eqb (domains st) x) st st' ->
  z <> x -> dom st' z = dom st z.
Proof.
  intros Hna (Hd & _ & Hh) Hne. unfold dom. rewrite Hd.
  destruct (dict_get Var.eqb (domains st) z) as [lz|] eqn:Ez; [|reflexivity].
  apply Hh. intros Hx.
  exact (no_alias_locs _ _ _ _ _ Hna Hx Ez Hne eq_refl).
Qed.

Lemma domain_remove_only_at (x : Var.t) (value : string) (lx : option loc) :
  preserves
    (fun st st' => dict_get Var.eqb (domains st) x = lx -> only_at lx st st')
    (domain_remove x value).
Proof.
  intros st o st' H Hlx. unfold domain_remove in H. rewrite Hlx in H.
  destruct lx as [l|]; [|injection H as _ <-; apply only_at_refl].
  destruct (set_mem value (heap_get (heap st) l));
    [|injection H as _ <-; apply only_at_refl].
  injection H as _ <-. unfold only_at. simpl. repeat split.
  intros l' Hl'. apply heap_get_set_other. congruence.
Qed.

Lemma writes_only_refl x st : writes_only x st st.
Proof. apply only_at_refl. Qed.

Lemma writes_only_trans x s1 s2 s3 :
  writes_only x s1 s2 -> writes_only x s2 s3 -> writes_only x s1 s3.
Proof.
  unfold writes_only. intros H1 H2.
  assert (E : domains s2 = domains s1) by apply H1.
  rewrite E in H2. eapply only_at_trans; eassumption.
Qed.

Lemma domain_remove_writes_only (x : Var.t) (value : string) :
  preserves (writes_only x) (domain_remove x value).
Proof.
  intros st o st' H.
  exact (domain_remove_only_at x value _ st o st' H eq_refl).
Qed.

Ltac pres_bind refl trans :=
  apply preserves_bind; [apply trans | | intros ?].

Ltac pres_leaf refl :=
  first [ apply preserves_ret, refl
        | apply preserves_raise, refl
        | apply preserves_out_of_fuel, refl
        | apply preserves_lift, refl
        | apply preserves_domain_of, refl ].

Lemma revise_scan_writes_only x ov y dx :
  preserves (writes_only x) (revise_scan ov y dx).
Proof.
  induction dx as [|val_x dx IH]; cbn [revise_scan].
  - pres_leaf writes_only_refl.
  - pres_bind writes_only_refl writes_only_trans;
      [pres_leaf writes_only_refl|].
    pres_bind writes_only_refl writes_only_trans;
      [pres_leaf writes_only_refl|].
    pres_bind writes_only_refl writes_only_trans;
      [exact IH | pres_leaf writes_only_refl].
Qed.

(** [revise(x, y)] writes to the set object of [x] and to nothing else,
    however it ends. *)
Lemma revise_writes_only (cw : Crossword) (x y : Var.t) :
  preserves (writes_only x) (revise cw x y).
Proof.
  unfold revise. destruct (overlap_of cw x y) as [ov|];
    [|pres_leaf writes_only_refl].
  pres_bind writes_only_refl writes_only_trans;
    [pres_leaf writes_only_refl|].
  pres_bind writes_only_refl writes_only_trans;
    [apply revise_scan_writes_only|].
  pres_bind writes_only_refl writes_only_trans;
    [|pres_leaf writes_only_refl].
  apply preserves_for_each;
    [apply writes_only_refl | apply writes_only_trans |].
  intros v _. apply domain_remove_writes_only.
Qed.

(** ** [__init__]: the initial domains *)

Lemma dict_set_snd_In {K V : Type} (eqb : K -> K -> bool)
      (d : list (K * V)) (k : K) (v v1 : V) :
  In v1 (map snd (dict_set eqb d k v)) -> In v1 (map snd d) \/ v1 = v.
Proof.
  induction d as [|[k' v'] d IH]; simpl.
  - intros [<- | []]. right; reflexivity.
  - destruct (eqb k k'); simpl.
    + intros [<- | H]; [right; reflexivity | left; right; assumption].
    + intros [<- | H]; [left; left; reflexivity|].
      destruct (IH H); [left; right; assumption | right; assumption].
Qed.

Lemma dict_set_snd_NoDup {K V : Type} (eqb : K -> K -> bool)
      (d : list (K * V)) (k : K) (v : V) :
  NoDup (map snd d) -> ~ In v (map snd d) ->
  NoDup (map snd (dict_set eqb d k v)).
Proof.
  induction d as [|[k' v'] d IH]; simpl; intros Hnd Hv.
  - constructor; [intros [] | constructor].
  - inversion Hnd as [|? ? Hv' Hnd']; subst.
    destruct (eqb k k'); simpl.
    + constructor; [tauto | assumption].
    + constructor.
      * intros H. apply dict_set_snd_In in H. destruct H as [H | ->]; tauto.
      * apply IH; tauto.
Qed.

Lemma init_step_inv (ws : list string) (st : State) (var : Var.t) :
  init_inv ws st -> init_inv ws (init_step ws st var).
Proof.
  intros (Hnd & Hl & Hh & Hpos). unfold init_inv, init_step. simpl.
  rewrite length_app. simpl. repeat split.
  - apply dict_set_snd_NoDup; [assumption|].
    intros H. apply Hl in H. lia.
  - apply dict_set_snd_In in H. destruct H as [H | ->]; [apply Hl in H|]; lia.
  - apply dict_set_snd_In in H. destruct H as [H | ->]; [apply Hl in H|]; lia.
  - apply Forall_app. split; [assumption | constructor; auto].
  - lia.
Qed.

Lemma init_fold_inv (ws : list string) (vars : list Var.t) (st : State) :
  init_inv ws st -> init_inv ws (fold_left (init_step ws) vars st).
Proof.
  revert st. induction vars as [|v vars IH]; intros st H; simpl;
    [assumption | apply IH, init_step_inv, H].
Qed.

Lemma init_fold_keys (ws : list string) (vars : list Var.t) (st : State)
      (v : Var.t) :
  In v vars \/ (exists l, dict_get Var.eqb (domains st) v = Some l) ->
  exists l,
    dict_get Var.eqb (domains (fold_left (init_step ws) vars st)) v = Some l.
Proof.
  revert st. induction vars as [|v0 vars IH]; intros st H; simpl.
  - destruct H as [[] | H]. exact H.
  - apply IH.
    destruct (Var.eqb v v0) eqn:E.
    + apply Var_eqb_eq in E. subst v0. right. simpl.
      exists (List.length (heap st)). apply (dict_get_set_same _ Var_eqb_eq).
    + apply Var_eqb_neq in E. destruct H as [[-> | H] | [l H]];
        [congruence | left; exact H | right].
      exists l. simpl. rewrite (dict_get_set_other _ Var_eqb_eq); auto.
Qed.

Lemma init_init_inv (cw : Crossword) : init_inv (words cw) (init cw).
Proof.
  apply init_fold_inv. unfold init_inv. simpl.
  repeat split; try constructor; auto; try contradiction.
Qed.

Lemma heap_get_Forall (P : list string -> Prop) (h : list (list string))
      (l : loc) :
  Forall P h -> l < List.length h -> P (heap_get h l).
Proof.
  intros H Hl. rewrite Forall_forall in H. apply H. apply nth_In. assumption.
Qed.

Lemma init_no_alias (cw : Crossword) : no_alias (init cw).
Proof. apply init_init_inv. Qed.

Lemma init_domain (cw : Crossword) (v : Var.t) :
  In v (variables cw) ->
  exists l,
    dict_get Var.eqb (domains (init cw)) v = Some l
    /\ l <> words_loc
    /\ heap_get (heap (init cw)) l = words cw.
Proof.
  intros Hv. destruct (init_init_inv cw) as (_ & Hl & Hh & _).
  destruct (init_fold_keys (words cw) (variables cw) (mkState [] [words cw] 0) v
              (or_introl Hv)) as [l El].
  exists l. fold (init cw) in El. split; [exact El|].
  assert (Hin : In l (map snd (domains (init cw)))).
  { apply (dict_get_In _ Var_eqb_eq) in El. apply in_map_iff.
    exists (v, l). auto. }
  apply Hl in Hin. split; [unfold words_loc; lia|].
  symmetry. apply (heap_get_Forall (eq (words cw))); [assumption | lia].
Qed.

Lemma init_dom (cw : Crossword) (v : Var.t) :
  In v (variables cw) -> dom (init cw) v = words cw.
Proof.
  intros Hv. destruct (init_domain cw v Hv) as (l & El & _ & Hw).
  unfold dom. rewrite El. exact Hw.
Qed.

Lemma init_sets_ok (cw : Crossword) : NoDup (words cw) -> sets_ok (init cw).
Proof.
  intros Hnd. destruct (init_init_inv cw) as (_ & _ & Hh & _).
  unfold sets_ok. eapply Forall_impl; [|exact Hh].
  intros s <-. exact Hnd.
Qed.

(** ** [revise]: the contract and the frame *)

Lemma dom_with_domain_same (st : State) (x : Var.t) (lx : loc)
      (f : string -> bool) :
  dict_get Var.eqb (domains st) x = Some lx ->
  dom (with_domain st lx (filter f (dom st x))) x = filter f (dom st x).
Proof.
  intros Hlx. unfold dom, with_domain. simpl. rewrite Hlx.
  apply heap_get_set_filter.
Qed.

Lemma dom_with_domain_other (st : State) (x z : Var.t) (lx : loc)
      (s : list string) :
  no_alias st -> dict_get Var.eqb (domains st) x = Some lx -> z <> x ->
  dom (with_domain st lx s) z = dom st z.
Proof.
  intros Hna Hlx Hne. unfold dom, with_domain. simpl.
  destruct (dict_get Var.eqb (domains st) z) as [lz|] eqn:Ez; [|reflexivity].
  apply heap_get_set_other.
  exact (no_alias_locs _ _ _ _ _ Hna Hlx Ez Hne).
Qed.

Lemma NoDup_filter {A : Type} (f : A -> bool) (l : list A) :
  NoDup l -> NoDup (filter f l).
Proof.
  induction 1 as [|x l Hx Hnd IH]; simpl; [constructor|].
  destruct (f x); [constructor|]; auto.
  intros H. apply filter_In in H. tauto.
Qed.

Lemma revise_run (cw : Crossword) (x y : Var.t) (kx ky : nat) (lx : loc) st :
  overlap_of cw x y = Some (Some (kx, ky)) ->
  dict_get Var.eqb (domains st) x = Some lx ->
  dom st x = [] \/ (exists ly, dict_get Var.eqb (domains st) y = Some ly) ->
  NoDup (dom st x) ->
  revise cw x y st
  = (Return (negb (forallb (supportedb kx ky (dom st y)) (dom st x))),
     with_domain st lx (filter (supportedb kx ky (dom st y)) (dom st x))).
Proof.
  intros Hov Hlx Hy Hnd.
  assert (Hex : exists b st', revise cw x y st = (Return b, st')).
  { unfold revise. rewrite Hov.
    rewrite (bind_run _ _ _ _ _ (domain_of_run _ _ _ Hlx)).
    rewrite (bind_run _ _ _ _ _ (revise_scan_run kx ky y _ st Hy)).
    destruct (remove_all_run x lx
                (filter (fun w => negb (supportedb kx ky (dom st y) w)) (dom st x))
                st Hlx) as [st' E].
    - apply NoDup_filter. exact Hnd.
    - intros w Hw. apply filter_In in Hw. destruct Hw as [Hw _].
      unfold dom in Hw. rewrite Hlx in Hw. exact Hw.
    - rewrite (bind_run _ _ _ _ _ E). eexists. eexists. reflexivity. }
  destruct Hex as (b & st' & E). rewrite E.
  destruct (revise_inv cw x y kx ky b st st' Hov E) as (lx' & Hlx' & -> & ->).
  congruence.
Qed.

Lemma forallb_false_exists {A : Type} (f : A -> bool) (l : list A) :
  forallb f l = false <-> exists x, In x l /\ f x = false.
Proof.
  induction l as [|x l IH]; simpl.
  - split; [discriminate | intros [x [[] _]]].
  - rewrite andb_false_iff, IH. split.
    + intros [H | [x' [H1 H2]]]; [exists x; auto | exists x'; auto].
    + intros [x' [[-> | H1] H2]]; [left; exact H2 | right; exists x'; auto].
Qed.

(** C6 — the contract of [revise]: for variables [x] and [y] with a defined
    overlap [(kx, ky)], the call returns; a word stays in the domain of [x]
    exactly when it was there and some word of the domain of [y] carries at
    index [ky] the character the word carries at index [kx] (a word too
    short for its index neither stays nor supports); and the result is
    [True] exactly when some word was removed. *)
Theorem revise_contract (cw : Crossword) (st : State) (x y : Var.t)
        (kx ky : nat) (lx ly : loc) :
  overlap_of cw x y = Some (Some (kx, ky)) ->
  dict_get Var.eqb (domains st) x = Some lx ->
  dict_get Var.eqb (domains st) y = Some ly ->
  NoDup (dom st x) ->
  exists b st',
    revise cw x y st = (Return b, st')
    /\ (forall wx, In wx (dom st' x) <->
                   In wx (dom st x)
                   /\ exists wy, In wy (dom st y)
                        /\ exists c, String.get kx wx = Some c
                                     /\ String.get ky wy = Some c)
    /\ (b = true <-> exists wx, In wx (dom st x) /\ ~ In wx (dom st' x)).
Proof.
  intros Hov Hlx Hly Hnd.
  exists (negb (forallb (supportedb kx ky (dom st y)) (dom st x))).
  exists (with_domain st lx (filter (supportedb kx ky (dom st y)) (dom st x))).
  split.
  - apply revise_run; try assumption. right. exists ly. exact Hly.
  - rewrite (dom_with_domain_same st x lx _ Hlx). split.
    + intros wx. rewrite filter_In, supportedb_has_support. reflexivity.
    + rewrite negb_true_iff, forallb_false_exists. split.
      * intros [wx [Hin Hs]]. exists wx. split; [exact Hin|].
        rewrite filter_In. intros [_ H]. congruence.
      * intros [wx [Hin Hout]]. exists wx. split; [exact Hin|].
        destruct (supportedb kx ky (dom st y) wx) eqn:Hs; [|reflexivity].
        exfalso. apply Hout. apply filter_In. auto.
Qed.

(** C10 — domain isolation: [__init__] gives every variable its own copy of
    the vocabulary (a set object of its own, distinct from the vocabulary
    object and from the copy of every other variable, holding the
    vocabulary), and [revise(x, y)], however it ends, leaves [self.domains]
    and every set object other than that of [x] as they were: the domain
    of [y] and of every variable other than [x] is what it was before the
    call. *)
Theorem domain_isolation (cw : Crossword) :
  (forall v, In v (variables cw) ->
     exists l, dict_get Var.eqb (domains (init cw)) v = Some l
               /\ l <> words_loc
               /\ heap_get (heap (init cw)) l = words cw)
  /\ no_alias (init cw)
  /\ (forall st x y o st',
        revise cw x y st = (o, st') ->
        domains st' = domains st
        /\ (forall l, dict_get Var.eqb (domains st) x <> Some l ->
                      heap_get (heap st') l = heap_get (heap st) l)
        /\ (no_alias st -> forall z, z <> x -> dom st' z = dom st z)).
Proof.
  split; [apply init_domain|]. split; [apply init_no_alias|].
  intros st x y o st' H. apply revise_writes_only in H.
  split; [apply H|]. split; [apply H|].
  intros Hna z Hz. eapply only_at_dom; eassumption.
Qed.

(** ** [enforce_node_consistency] *)

Lemma sets_ok_dom (st : State) (v : Var.t) : sets_ok st -> NoDup (dom st v).
Proof.
  intros H. unfold dom. destruct (dict_get Var.eqb (domains st) v) as [l|];
    [|constructor].
  destruct (Nat.lt_ge_cases l (List.length (heap st))) as [Hlt | Hge].
  - apply heap_get_Forall; assumption.
  - rewrite heap_get_out by assumption. constructor.
Qed.

Lemma heap_set_Forall (P : list string -> Prop) (h : list (list string))
      (l : loc) (s : list string) :
  Forall P h -> P s -> Forall P (heap_set h l s).
Proof.
  intros Hh Hs. revert l. induction Hh as [|s' h Hs' Hh IH]; intros [|l]; simpl;
    constructor; auto.
Qed.

Lemma sets_ok_with_domain (st : State) (v : Var.t) (l : loc)
      (f : string -> bool) :
  sets_ok st -> sets_ok (with_domain st l (filter f (dom st v))).
Proof.
  intros H. unfold sets_ok, with_domain. simpl.
  apply heap_set_Forall; [exact H | apply NoDup_filter, sets_ok_dom, H].
Qed.

Lemma remove_filter_run (x : Var.t) (l : loc) (f : string -> bool) st :
  dict_get Var.eqb (domains st) x = Some l ->
  NoDup (dom st x) ->
  for_each (filter f (dom st x)) (fun value => domain_remove x value) st
  = (Return tt, with_domain st l (filter (fun w => negb (f w)) (dom st x))).
Proof.
  intros Hl Hnd.
  assert (Hdom : dom st x = heap_get (heap st) l)
    by (unfold dom; rewrite Hl; reflexivity).
  destruct (remove_all_run x l (filter f (dom st x)) st Hl) as [st' E].
  - apply NoDup_filter. exact Hnd.
  - intros w Hw. apply filter_In in Hw. rewrite <- Hdom. tauto.
  - rewrite E. f_equal. rewrite (remove_all_inv _ _ _ _ _ Hl E).
    rewrite <- Hdom. f_equal. apply filter_ext_in. intros w Hw.
    f_equal. destruct (f w) eqn:Hf.
    + apply set_mem_In. apply filter_In. auto.
    + destruct (set_mem w (filter f (dom st x))) eqn:Hm; [|reflexivity].
      apply set_mem_In, filter_In in Hm. destruct Hm. congruence.
Qed.

Lemma node_body_run (v : Var.t) (l : loc) st :
  dict_get Var.eqb (domains st) v = Some l ->
  NoDup (dom st v) ->
  node_body v st = (Return tt, with_domain st l (filter (fits v) (dom st v))).
Proof.
  intros Hl Hnd. unfold node_body.
  rewrite (bind_run _ _ _ _ _ (domain_of_run _ _ _ Hl)).
  apply (remove_filter_run v l _ st Hl Hnd).
Qed.

Lemma filter_idem {A : Type} (f : A -> bool) (l : list A) :
  filter f (filter f l) = filter f l.
Proof.
  rewrite filter_filter. apply filter_ext. intros x. destruct (f x); reflexivity.
Qed.

Lemma enforce_loop (ks : list Var.t) st :
  no_alias st -> sets_ok st ->
  (forall k, In k ks -> exists l, dict_get Var.eqb (domains st) k = Some l) ->
  exists st',
    for_each ks node_body st = (Return tt, st')
    /\ domains st' = domains st
    /\ backtrack_calls st' = backtrack_calls st
    /\ sets_ok st'
    /\ forall v, dom st' v
                 = if mem_var v ks then filter (fits v) (dom st v) else dom st v.
Proof.
  revert st. induction ks as [|k ks IH]; intros st Hna Hso Hk.
  - exists st. simpl. auto.
  - destruct (Hk k (or_introl eq_refl)) as [l Hl].
    pose proof (node_body_run k l st Hl (sets_ok_dom st k Hso)) as E.
    set (st1 := with_domain st l (filter (fits k) (dom st k))) in *.
    destruct (IH st1) as (st' & E' & Hd & Hc & Hso' & Hdom).
    + exact Hna.
    + apply sets_ok_with_domain. exact Hso.
    + intros k' Hk'. apply Hk. right. exact Hk'.
    + exists st'. cbn [for_each]. rewrite (bind_run _ _ _ _ _ E).
      split; [exact E'|]. split; [exact Hd|]. split; [exact Hc|].
      split; [exact Hso'|].
      intros v. rewrite Hdom. cbn [mem_var existsb].
      destruct (Var.eqb v k) eqn:Evk; simpl.
      * apply Var_eqb_eq in Evk. subst v.
        unfold st1. rewrite (dom_with_domain_same st k l _ Hl).
        fold (mem_var k ks). destruct (mem_var k ks);
          [apply filter_idem | reflexivity].
      * apply Var_eqb_neq in Evk. unfold st1.
        rewrite (dom_with_domain_other st k v l _ Hna Hl Evk).
        reflexivity.
Qed.

Lemma enforce_node_consistency_run st :
  no_alias st -> sets_ok st ->
  exists st',
    enforce_node_consistency st = (Return tt, st')
    /\ domains st' = domains st
    /\ backtrack_calls st' = backtrack_calls st
    /\ sets_ok st'
    /\ forall v, dom st' v = filter (fits v) (dom st v).
Proof.
  intros Hna Hso.
  destruct (enforce_loop (dict_keys (domains st)) st Hna Hso)
    as (st' & E & Hd & Hc & Hso' & Hdom).
  - intros k Hk. apply (dict_key_get _ Var_eqb_eq). exact Hk.
  - exists st'. split; [exact E|]. repeat (split; [assumption|]).
    intros v. rewrite Hdom.
    destruct (mem_var v (dict_keys (domains st))) eqn:Hm; [reflexivity|].
    unfold dom. destruct (dict_get Var.eqb (domains st) v) as [l|] eqn:El;
      [|reflexivity].
    apply (dict_get_key _ Var_eqb_eq) in El. apply mem_var_In in El. congruence.
Qed.

(** ** Monotonic shrinkage *)

Lemma shrinks_refl st : shrinks st st.
Proof.
  unfold shrinks. repeat split. intros l. exists (fun _ => true).
  symmetry. apply filter_all. apply forallb_forall. reflexivity.
Qed.

Lemma shrinks_trans s1 s2 s3 : shrinks s1 s2 -> shrinks s2 s3 -> shrinks s1 s3.
Proof.
  intros (D1 & C1 & L1 & H1) (D2 & C2 & L2 & H2).
  unfold shrinks. repeat split; try congruence.
  intros l. destruct (H1 l) as [f Hf]. destruct (H2 l) as [g Hg].
  exists (fun w => f w && g w). rewrite Hg, Hf. apply filter_filter.
Qed.

Lemma shrinks_with_domain (st : State) (l : loc) (f : string -> bool) :
  shrinks st (with_domain st l (filter f (heap_get (heap st) l))).
Proof.
  unfold shrinks, with_domain. simpl. repeat split.
  - apply heap_set_length.
  - intros l'. destruct (Nat.eq_dec l' l) as [-> | Hne].
    + exists f. apply heap_get_set_filter.
    + exists (fun _ => true). rewrite heap_get_set_other by assumption.
      symmetry. apply filter_all. apply forallb_forall. reflexivity.
Qed.

Lemma domain_remove_shrinks (x : Var.t) (value : string) :
  preserves shrinks (domain_remove x value).
Proof.
  intros st o st' H. unfold domain_remove in H.
  destruct (dict_get Var.eqb (domains st) x) as [l|];
    [|injection H as _ <-; apply shrinks_refl].
  destruct (set_mem value (heap_get (heap st) l));
    [|injection H as _ <-; apply shrinks_refl].
  injection H as _ <-. apply (shrinks_with_domain st l).
Qed.

Lemma revise_scan_same ov y dx :
  preserves (fun st st' => st' = st) (revise_scan ov y dx).
Proof.
  assert (Hr : forall st : State, st = st) by reflexivity.
  assert (Ht : forall s1 s2 s3 : State, s2 = s1 -> s3 = s2 -> s3 = s1)
    by congruence.
  induction dx as [|val_x dx IH]; cbn [revise_scan].
  - pres_leaf Hr.
  - pres_bind Hr Ht; [pres_leaf Hr|].
    pres_bind Hr Ht; [pres_leaf Hr|].
    pres_bind Hr Ht; [exact IH | pres_leaf Hr].
Qed.

Lemma revise_shrinks (cw : Crossword) (x y : Var.t) :
  preserves shrinks (revise cw x y).
Proof.
  unfold revise. destruct (overlap_of cw x y) as [ov|];
    [|pres_leaf shrinks_refl].
  pres_bind shrinks_refl shrinks_trans; [pres_leaf shrinks_refl|].
  pres_bind shrinks_refl shrinks_trans.
  - intros st o st' H. apply revise_scan_same in H. subst. apply shrinks_refl.
  - pres_bind shrinks_refl shrinks_trans; [|pres_leaf shrinks_refl].
    apply preserves_for_each; [apply shrinks_refl | apply shrinks_trans |].
    intros v _. apply domain_remove_shrinks.
Qed.

Lemma ac3_loop_shrinks (cw : Crossword) (fuel : nat) (q : list arc) :
  preserves shrinks (ac3_loop cw fuel q).
Proof.
  revert q. induction fuel as [|fuel IH]; intros [|a rest]; cbn [ac3_loop];
    try pres_leaf shrinks_refl.
  destruct (dict_get arc_eqb (overlaps cw) a) as [[ov|]|];
    [| apply IH | pres_leaf shrinks_refl].
  pres_bind shrinks_refl shrinks_trans; [apply revise_shrinks|].
  pres_bind shrinks_refl shrinks_trans; [pres_leaf shrinks_refl|].
  destruct a1; [pres_leaf shrinks_refl|].
  destruct a0; apply IH.
Qed.

Lemma ac3_shrinks (cw : Crossword) (arcs : option (list arc)) :
  preserves shrinks (ac3 cw arcs).
Proof.
  destruct arcs; [pres_leaf shrinks_refl|].
  intros st o st' H. unfold ac3 in H. eapply ac3_loop_shrinks. exact H.
Qed.

Lemma enforce_node_consistency_shrinks :
  preserves shrinks enforce_node_consistency.
Proof.
  intros st o st' H. unfold enforce_node_consistency in H.
  revert H. apply preserves_for_each; [apply shrinks_refl | apply shrinks_trans|].
  intros v _. pres_bind shrinks_refl shrinks_trans; [pres_leaf shrinks_refl|].
  apply preserves_for_each; [apply shrinks_refl | apply shrinks_trans |].
  intros w _. apply domain_remove_shrinks.
Qed.

Lemma shrinks_dom (st st' : State) (v : Var.t) :
  shrinks st st' -> exists f, dom st' v = filter f (dom st v).
Proof.
  intros (Hd & _ & _ & Hh). unfold dom. rewrite Hd.
  destruct (dict_get Var.eqb (domains st) v) as [l|]; [apply Hh|].
  exists (fun _ => true). reflexivity.
Qed.

Lemma shrinks_incl (st st' : State) (v : Var.t) (w : string) :
  shrinks st st' -> In w (dom st' v) -> In w (dom st v).
Proof.
  intros H Hw. destruct (shrinks_dom st st' v H) as [f Hf].
  rewrite Hf in Hw. apply filter_In in Hw. tauto.
Qed.

Lemma shrinks_no_alias (st st' : State) :
  shrinks st st' -> no_alias st -> no_alias st'.
Proof. intros (Hd & _) H. unfold no_alias. rewrite Hd. exact H. Qed.

Lemma shrinks_sets_ok (st st' : State) :
  shrinks st st' -> sets_ok st -> sets_ok st'.
Proof.
  intros (_ & _ & Hlen & Hh) Hso. unfold sets_ok in *.
  apply Forall_forall. intros s Hs.
  destruct (In_nth _ _ [] Hs) as (l & Hl & <-).
  destruct (Hh l) as [f Hf]. unfold heap_get in Hf. rewrite Hf.
  apply NoDup_filter. apply (heap_get_Forall _ _ _ Hso). lia.
Qed.

(** ** [ac3]: arc consistency at the fixpoint *)

Section Ac3Facts.
Variable cw : Crossword.

Lemma overlap_of_key (x y : Var.t) (o : option (nat * nat)) :
  overlap_of cw x y = Some o -> In (x, y) (dict_keys (overlaps cw)).
Proof. apply (dict_get_key _ arc_eqb_eq). Qed.

Lemma ac3_inv_initial st : ac3_inv cw (dict_keys (overlaps cw)) st.
Proof. intros x y kx ky H. left. eapply overlap_of_key. exact H. Qed.

Lemma ac3_inv_skip (a : arc) (rest : list arc) st :
  dict_get arc_eqb (overlaps cw) a = Some None ->
  ac3_inv cw (a :: rest) st -> ac3_inv cw rest st.
Proof.
  intros Ha Hinv x y kx ky Hov.
  destruct (Hinv x y kx ky Hov) as [[Heq | Hin] | Hok]; auto.
  subst a. unfold overlap_of in Hov. congruence.
Qed.

(** After [revise(X, Y)] left the domain of [X] non-empty. *)
Lemma ac3_inv_revised (X Y : Var.t) (kx ky : nat) (lx : loc)
      (rest : list arc) st :
  no_alias st ->
  ac3_inv cw ((X, Y) :: rest) st ->
  overlap_of cw X Y = Some (Some (kx, ky)) ->
  dict_get Var.eqb (domains st) X = Some lx ->
  let st1 := with_domain st lx
               (filter (supportedb kx ky (dom st Y)) (dom st X)) in
  dom st1 X <> [] ->
  ac3_inv cw (rest ++ filter (fun potential_arc =>
                                Var.eqb X (snd potential_arc))
                             (dict_keys (overlaps cw))) st1.
Proof.
  intros Hna Hinv HXY Hlx st1 Hne x y kx' ky' Hov.
  assert (HdX : dom st1 X = filter (supportedb kx ky (dom st Y)) (dom st X))
    by (unfold st1; apply (dom_with_domain_same st X lx _ Hlx)).
  assert (Hother : forall z, z <> X -> dom st1 z = dom st z)
    by (intros z Hz; unfold st1;
        apply (dom_with_domain_other st X z lx _ Hna Hlx Hz)).
  destruct (Var.eqb X y) eqn:EXy.
  - left. apply in_or_app. right. apply filter_In. split.
    + eapply overlap_of_key. exact Hov.
    + exact EXy.
  - apply Var_eqb_neq in EXy.
    assert (Hy : dom st1 y = dom st y) by (apply Hother; congruence).
    destruct (Hinv x y kx' ky' Hov) as [[Heq | Hin] | [Hsup Hnonempty]].
    + injection Heq as <- <-. right.
      rewrite HXY in Hov. injection Hov as <- <-.
      split; [|exact Hne].
      intros wx Hwx. rewrite Hy. rewrite HdX in Hwx.
      apply filter_In in Hwx. tauto.
    + left. apply in_or_app. left. exact Hin.
    + right. destruct (Var.eqb x X) eqn:ExX.
      * apply Var_eqb_eq in ExX. subst x. split; [|exact Hne].
        intros wx Hwx. rewrite Hy. apply Hsup.
        rewrite HdX in Hwx. apply filter_In in Hwx. tauto.
      * apply Var_eqb_neq in ExX. unfold arc_ok.
        rewrite Hy, (Hother x ExX). split; assumption.
Qed.

(** After [revise(X, Y)] removed nothing. *)
Lemma ac3_inv_unrevised (X Y : Var.t) (kx ky : nat) (lx : loc)
      (rest : list arc) st :
  ac3_inv cw ((X, Y) :: rest) st ->
  overlap_of cw X Y = Some (Some (kx, ky)) ->
  dict_get Var.eqb (domains st) X = Some lx ->
  forallb (supportedb kx ky (dom st Y)) (dom st X) = true ->
  let st1 := with_domain st lx
               (filter (supportedb kx ky (dom st Y)) (dom st X)) in
  dom st1 X <> [] ->
  ac3_inv cw rest st1.
Proof.
  intros Hinv HXY Hlx Hall st1 Hne.
  assert (Hsame : forall z, dom st1 z = dom st z).
  { intros z. unfold st1, dom at 1, with_domain. simpl.
    rewrite (filter_all _ _ Hall).
    unfold dom at 1. rewrite Hlx. rewrite heap_set_same. reflexivity. }
  intros x y kx' ky' Hov.
  destruct (Hinv x y kx' ky' Hov) as [[Heq | Hin] | [Hsup Hnonempty]].
  - injection Heq as <- <-. right.
    rewrite HXY in Hov. injection Hov as <- <-. split; [|exact Hne].
    intros wx Hwx. rewrite !Hsame in *.
    rewrite forallb_forall in Hall. apply Hall. exact Hwx.
  - left. exact Hin.
  - right. unfold arc_ok. rewrite !Hsame. split; assumption.
Qed.

Lemma ac3_loop_sound (fuel : nat) (q : list arc) st st' :
  no_alias st -> ac3_inv cw q st ->
  ac3_loop cw fuel q st = (Return true, st') ->
  ac3_inv cw [] st'.
Proof.
  revert q st. induction fuel as [|fuel IH]; intros [|[X Y] rest] st Hna Hinv H;
    cbn [ac3_loop] in H; try discriminate.
  - injection H as <-. exact Hinv.
  - injection H as <-. exact Hinv.
  - destruct (dict_get arc_eqb (overlaps cw) (X, Y)) as [[[kx ky]|]|] eqn:Ea;
      try discriminate.
    + cbn [fst snd] in H. inv_bind H as b s1 E1.
      destruct (revise_inv cw X Y kx ky b st s1 Ea E1) as (lx & Hlx & Hs1 & Hb).
      inv_bind H as dx s2 E2.
      apply domain_of_Return in E2. destruct E2 as (-> & -> & _).
      assert (Hna1 : no_alias s1) by (subst s1; exact Hna).
      destruct (dom s1 X) as [|w d] eqn:Hd; [discriminate|].
      assert (Hne : dom s1 X <> []) by (rewrite Hd; discriminate).
      subst s1. destruct b.
      * eapply IH; [exact Hna1 | | exact H].
        apply ac3_inv_revised; assumption.
      * eapply IH; [exact Hna1 | | exact H].
        symmetry in Hb. apply negb_false_iff in Hb.
        eapply ac3_inv_unrevised; eassumption.
    + eapply IH; [exact Hna | | exact H].
      eapply ac3_inv_skip; eassumption.
Qed.

(** A run that reports [False] leaves the domain at the head of some arc
    with a defined overlap empty. *)
Lemma ac3_loop_false (fuel : nat) (q : list arc) st st' :
  ac3_loop cw fuel q st = (Return false, st') ->
  exists x y, In (x, y) (q ++ dict_keys (overlaps cw))
              /\ (exists o, overlap_of cw x y = Some (Some o))
              /\ (exists l, dict_get Var.eqb (domains st') x = Some l)
              /\ dom st' x = [].
Proof.
  revert q st. induction fuel as [|fuel IH]; intros [|[X Y] rest] st H;
    cbn [ac3_loop] in H; try discriminate.
  destruct (dict_get arc_eqb (overlaps cw) (X, Y)) as [[[kx ky]|]|] eqn:Ea;
    try discriminate.
  - cbn [fst snd] in H. inv_bind H as b s1 E1. inv_bind H as dx s2 E2.
    apply domain_of_Return in E2. destruct E2 as (-> & -> & l & Hl).
    destruct (dom s1 X) as [|w d] eqn:Hd.
    + injection H as <-. exists X, Y. split; [left; reflexivity|].
      split; [exists (kx, ky); exact Ea|]. split; [exists l; exact Hl | exact Hd].
    + assert (Hin : forall q',
                (exists x y, In (x, y) (q' ++ dict_keys (overlaps cw))
                   /\ (exists o, overlap_of cw x y = Some (Some o))
                   /\ (exists l, dict_get Var.eqb (domains st') x = Some l)
                   /\ dom st' x = []) ->
                incl q' (rest ++ dict_keys (overlaps cw)) ->
                exists x y, In (x, y) (((X, Y) :: rest) ++ dict_keys (overlaps cw))
                   /\ (exists o, overlap_of cw x y = Some (Some o))
                   /\ (exists l, dict_get Var.eqb (domains st') x = Some l)
                   /\ dom st' x = []).
      { intros q' (x & y & Hxy & Hrest) Hincl. exists x, y.
        split; [|exact Hrest]. right.
        apply in_app_or in Hxy. destruct Hxy as [Hxy | Hxy].
        - apply Hincl. exact Hxy.
        - apply in_or_app. right. exact Hxy. }
      destruct b.
      * eapply Hin; [eapply IH; exact H|].
        intros a Ha. apply in_app_or in Ha. apply in_or_app.
        destruct Ha as [Ha | Ha]; [left; exact Ha|].
        right. apply filter_In in Ha. tauto.
      * eapply Hin; [eapply IH; exact H|].
        intros a Ha. apply in_or_app. left. exact Ha.
  - destruct (IH _ _ H) as (x & y & Hxy & Hrest). exists x, y.
    split; [right; exact Hxy | exact Hrest].
Qed.
End Ac3Facts.

(** Arc consistency of a state, in the words of the specification. *)
Lemma arc_ok_has_support (st : State) (x y : Var.t) (kx ky : nat) :
  arc_ok st x y kx ky ->
  (forall wx, In wx (dom st x) ->
     exists wy, In wy (dom st y) /\ agree kx ky wx wy)
  /\ dom st x <> [] /\ dom st y <> [].
Proof.
  intros [Hsup Hne]. split; [|split; [exact Hne|]].
  - intros wx Hwx. apply supportedb_has_support. apply Hsup. exact Hwx.
  - destruct (dom st x) as [|w d] eqn:E; [congruence|].
    specialize (Hsup w (or_introl eq_refl)).
    apply supportedb_has_support in Hsup. destruct Hsup as (wy & Hwy & _).
    intros Hy. rewrite Hy in Hwy. contradiction.
Qed.

(** The postcondition of a successful [ac3()] over the arcs: whenever
    [ac3] is called without a queue on a creator whose domains are separate
    set objects and returns [True], then for every ordered pair [(x, y)]
    with a defined overlap every word left in the domain of [x] has a word
    in the domain of [y] that agrees with it at the overlap indices, and
    the domains of [x] and of [y] are not empty. *)
Lemma ac3_arc_consistent (cw : Crossword) (st st' : State) :
  no_alias st ->
  ac3 cw None st = (Return true, st') ->
  forall x y kx ky,
    overlap_of cw x y = Some (Some (kx, ky)) ->
    (forall wx, In wx (dom st' x) ->
       exists wy, In wy (dom st' y)
                  /\ exists c, String.get kx wx = Some c
                               /\ String.get ky wy = Some c)
    /\ dom st' x <> [] /\ dom st' y <> [].
Proof.
  intros Hna H x y kx ky Hov. unfold ac3 in H.
  apply ac3_loop_sound in H; [|exact Hna | apply ac3_inv_initial].
  destruct (H x y kx ky Hov) as [[] | Hok].
  apply arc_ok_has_support. exact Hok.
Qed.

Example ac3_arc_consistent_2x2 :
  dom (final_state (ac3 puzzle_2x2 None (init puzzle_2x2))) across2 <> [].
Proof.
  eapply (ac3_arc_consistent puzzle_2x2 (init puzzle_2x2)
            (final_state (ac3 puzzle_2x2 None (init puzzle_2x2)))
            ltac:(apply init_no_alias) ltac:(reflexivity)
            across2 down2 1 0 ltac:(reflexivity)).
Qed.

(** C5 — the postcondition of a successful [ac3()], on a single slot of
    length 2 with the vocabulary CAT, DOG: node consistency empties the
    domain of the slot; the puzzle has no arc, so [ac3()] looks at no
    domain and returns [True] although a domain is empty. *)
Theorem ac3_true_with_empty_domain :
  let st := final_state (enforce_node_consistency (init puzzle_too_long)) in
  exists st',
    ac3 puzzle_too_long None st = (Return true, st')
    /\ In far_down2 (variables puzzle_too_long)
    /\ dom st' far_down2 = [].
Proof.
  eexists. split; [vm_compute; reflexivity|].
  split; [left; reflexivity | vm_compute; reflexivity].
Qed.

(** C9 — [ac3] with a queue supplied: the queue is never bound to
    [arc_queue], and the call ends in an [UnboundLocalError] whatever the
    list. *)
Theorem ac3_supplied_queue_unbound (cw : Crossword) (arcs : list arc)
        (st : State) :
  ac3 cw (Some arcs) st = (Raise UnboundLocalError, st).
Proof. reflexivity. Qed.

(** C3 — node consistency on the single slot of length 3 with the
    vocabulary AB, CAT, DOG: the call returns and the word AB, of length 2,
    is still in the domain. *)
Theorem node_consistency_keeps_short_word :
  let r := enforce_node_consistency (init puzzle_single) in
  result r = Return tt
  /\ dom (final_state r) across3 = ["AB"; "CAT"; "DOG"]%string
  /\ String.length "AB" <> Var.length across3.
Proof. vm_compute. repeat split. discriminate. Qed.

(** C7 — the consistency check on two crossing slots of length 3, the
    across one holding CAT and the down one holding AT: the comparison at
    the overlap reads index 2 of AT and the call ends in an [IndexError]
    instead of returning [False]. *)
Theorem consistent_raises_on_short_word :
  overlap_of puzzle_cross3 across3 down3 = Some (Some (0, 2))
  /\ consistent puzzle_cross3
       [(across3, Some "CAT"%string); (down3, Some "AT"%string)]
     = Raise IndexError.
Proof. split; reflexivity. Qed.

(** C8 — variable selection on the puzzle of two slots apart, after node
    consistency, for the assignment that lists the slot of length 3 first
    and has both slots unassigned: the first unassigned variable is
    returned although the other one has fewer words left. *)
Theorem select_ignores_remaining_values :
  let st := final_state (enforce_node_consistency (init puzzle_apart)) in
  select_unassigned_variable [(across3, None); (far_down2, None)]
  = Some across3
  /\ dom st across3 = ["CAT"; "DOG"; "AT"]%string
  /\ dom st far_down2 = ["AT"]%string
  /\ List.length (dom st far_down2) < List.length (dom st across3).
Proof. vm_compute. repeat split; lia. Qed.

Lemma revise_contract_witness :
  exists b st',
    revise puzzle_2x2 across2 down2 (init puzzle_2x2) = (Return b, st')
    /\ b = true.
Proof.
  destruct (revise_contract puzzle_2x2 (init puzzle_2x2) across2 down2 1 0 1 2)
    as (b & st' & Hrun & Hkeep & Hb).
  - reflexivity.
  - reflexivity.
  - reflexivity.
  - vm_compute. repeat constructor; simpl; intuition discriminate.
  - exists b, st'. split; [exact Hrun|].
    apply Hb. exists "OX"%string. split.
    + vm_compute. tauto.
    + rewrite Hkeep. intros [_ (wy & Hwy & c & Hc1 & Hc2)].
      vm_compute in Hwy, Hc1.
      injection Hc1 as <-.
      destruct Hwy as [<- | [<- | [<- | []]]]; vm_compute in Hc2; discriminate.
Defined.

Lemma domain_isolation_witness :
  dom (final_state (revise puzzle_2x2 across2 down2 (init puzzle_2x2))) down2
  = words puzzle_2x2.
Proof.
  destruct (domain_isolation puzzle_2x2) as (_ & Hna & Hrev).
  destruct (Hrev (init puzzle_2x2) across2 down2
              (result (revise puzzle_2x2 across2 down2 (init puzzle_2x2)))
              (final_state (revise puzzle_2x2 across2 down2 (init puzzle_2x2))))
    as (_ & _ & Hdom).
  - reflexivity.
  - rewrite (Hdom Hna down2) by discriminate. reflexivity.
Defined.

(** ** The search: frames *)

Lemma unchanged_refl : forall st : State, st = st.
Proof. reflexivity. Qed.

Lemma unchanged_trans : forall s1 s2 s3 : State, s2 = s1 -> s3 = s2 -> s3 = s1.
Proof. congruence. Qed.

Section SearchFrames.
Variable cw : Crossword.

Lemma num_ruled_out_same a var value nbs num :
  preserves (fun st st' => st' = st) (num_ruled_out cw a var value nbs num).
Proof.
  revert num. induction nbs as [|nb nbs IH]; intros num; cbn [num_ruled_out].
  - pres_leaf unchanged_refl.
  - destruct (dict_get Var.eqb a nb) as [[w|]|];
      [apply IH | | pres_leaf unchanged_refl].
    pres_bind unchanged_refl unchanged_trans; [pres_leaf unchanged_refl|].
    pres_bind unchanged_refl unchanged_trans; [pres_leaf unchanged_refl|].
    apply IH.
Qed.

Lemma elimination_counts_same a var values :
  preserves (fun st st' => st' = st) (elimination_counts cw a var values).
Proof.
  induction values as [|value values IH]; cbn [elimination_counts].
  - pres_leaf unchanged_refl.
  - pres_bind unchanged_refl unchanged_trans; [apply num_ruled_out_same|].
    pres_bind unchanged_refl unchanged_trans;
      [exact IH | pres_leaf unchanged_refl].
Qed.

Lemma order_domain_values_same var a :
  preserves (fun st st' => st' = st) (order_domain_values cw var a).
Proof.
  unfold order_domain_values.
  pres_bind unchanged_refl unchanged_trans; [pres_leaf unchanged_refl|].
  pres_bind unchanged_refl unchanged_trans;
    [apply elimination_counts_same | pres_leaf unchanged_refl].
Qed.

Lemma search_rel_refl st : search_rel st st.
Proof. split; [apply same_store_refl | lia]. Qed.

Lemma search_rel_trans s1 s2 s3 :
  search_rel s1 s2 -> search_rel s2 s3 -> search_rel s1 s3.
Proof.
  intros [H1 L1] [H2 L2]. split; [eapply same_store_trans; eassumption | lia].
Qed.

Lemma try_values_search_rel rec var values a :
  (forall a', preserves search_rel (rec a')) ->
  preserves search_rel (try_values cw rec var values a).
Proof.
  intros Hrec. revert a. induction values as [|value rest IH]; intros a;
    cbn [try_values].
  - pres_leaf search_rel_refl.
  - pres_bind search_rel_refl search_rel_trans; [pres_leaf search_rel_refl|].
    destruct a0; [|apply IH].
    pres_bind search_rel_refl search_rel_trans; [apply Hrec|].
    destruct (fst a0); [pres_leaf search_rel_refl | apply IH].
Qed.

Lemma backtrack_rec_search_rel fuel a :
  preserves search_rel (backtrack_rec cw fuel a).
Proof.
  revert a. induction fuel as [|fuel IH]; intros a; cbn [backtrack_rec].
  - pres_leaf search_rel_refl.
  - pres_bind search_rel_refl search_rel_trans.
    + intros st o st' H. injection H as _ <-.
      split; simpl; [split; reflexivity | lia].
    + match goal with
      | |- context [assignment_complete ?a0] =>
          destruct (assignment_complete a0); [pres_leaf search_rel_refl|];
          destruct (select_unassigned_variable a0);
            [|pres_leaf search_rel_refl]
      end.
      pres_bind search_rel_refl search_rel_trans.
      * intros st o st' H. apply order_domain_values_same in H. subst.
        apply search_rel_refl.
      * apply try_values_search_rel. exact IH.
Qed.

(** Every call of [backtrack] is counted. *)
Lemma backtrack_rec_counted fuel a st o st' :
  backtrack_rec cw (S fuel) a st = (o, st') ->
  same_store st st' /\ backtrack_calls st < backtrack_calls st'.
Proof.
  intros H. cbn [backtrack_rec] in H. unfold bind at 1 in H.
  unfold enter_backtrack at 1 in H.
  set (st1 := mkState (domains st) (heap st) (S (backtrack_calls st))) in H.
  assert (Hrel : search_rel st1 st').
  { revert H.
    match goal with
    | |- ?m st1 = _ -> _ => assert (Hp : preserves search_rel m)
    end.
    { match goal with
      | |- context [assignment_complete ?a0] =>
          destruct (assignment_complete a0); [pres_leaf search_rel_refl|];
          destruct (select_unassigned_variable a0);
            [|pres_leaf search_rel_refl]
      end.
      pres_bind search_rel_refl search_rel_trans.
      - intros s o' s' H. apply order_domain_values_same in H. subst.
        apply search_rel_refl.
      - apply try_values_search_rel. apply backtrack_rec_search_rel. }
    intros H. eapply Hp. exact H. }
  destruct Hrel as [[Hd Hh] Hc]. simpl in *. split; [split; assumption | lia].
Qed.
End SearchFrames.

(** ** The search: assignments, ordering, consistency *)

Lemma insert_by_In {A : Type} (key : A -> nat) (x y : A) (l : list A) :
  In y (insert_by key x l) <-> y = x \/ In y l.
Proof.
  induction l as [|z l IH]; simpl.
  - intuition.
  - destruct (key x <=? key z); simpl; [intuition|].
    rewrite IH. intuition.
Qed.

Lemma sorted_by_In {A : Type} (key : A -> nat) (y : A) (l : list A) :
  In y (sorted_by key l) <-> In y l.
Proof.
  unfold sorted_by. induction l as [|x l IH]; simpl; [reflexivity|].
  rewrite insert_by_In, IH. intuition.
Qed.

Section SearchFacts.
Variable cw : Crossword.

Lemma blank_fold_get (vars : list Var.t) (a : Assignment) (v : Var.t) :
  dict_get Var.eqb
    (fold_left (fun a var => dict_set Var.eqb a var None) vars a) v
  = if mem_var v vars then Some None else dict_get Var.eqb a v.
Proof.
  revert a. induction vars as [|v0 vars IH]; intros a; simpl; [reflexivity|].
  rewrite IH. destruct (mem_var v vars) eqn:Hm; simpl.
  - rewrite orb_true_r. reflexivity.
  - rewrite orb_false_r. destruct (Var.eqb v v0) eqn:E.
    + apply Var_eqb_eq in E. subst. apply (dict_get_set_same _ Var_eqb_eq).
    + apply Var_eqb_neq in E. apply (dict_get_set_other _ Var_eqb_eq). exact E.
Qed.

Lemma blank_get (v : Var.t) :
  dict_get Var.eqb (blank_assignment cw) v
  = if mem_var v (variables cw) then Some None else None.
Proof. unfold blank_assignment. rewrite blank_fold_get. reflexivity. Qed.

Lemma blank_fold_values (vars : list Var.t) (a : Assignment) :
  (forall kv : Var.t * option string, In kv a -> snd kv = None) ->
  forall kv : Var.t * option string,
    In kv (fold_left (fun a var => dict_set Var.eqb a var None) vars a) ->
    snd kv = None.
Proof.
  revert a. induction vars as [|v0 vars IH]; intros a Ha kv; simpl; [apply Ha|].
  apply IH. intros [k o] H. apply dict_set_In in H.
  destruct H as [H | H]; [apply (Ha _ H) | exact H].
Qed.

Lemma blank_values (kv : Var.t * option string) :
  In kv (blank_assignment cw) -> snd kv = None.
Proof. apply blank_fold_values. intros ? []. Qed.

Lemma dict_set_keys_NoDup (a : Assignment) (v : Var.t) (o : option string) :
  NoDup (dict_keys a) -> NoDup (dict_keys (dict_set Var.eqb a v o)).
Proof.
  unfold dict_keys. induction a as [|[k o'] a IH]; simpl; intros Hnd.
  - constructor; [intros [] | constructor].
  - inversion Hnd as [|? ? Hk Hnd']; subst.
    destruct (Var.eqb v k) eqn:E; simpl; [constructor; assumption|].
    constructor; [|apply IH; exact Hnd'].
    intros H. apply in_map_iff in H. destruct H as ([k' o''] & Hk' & Hin).
    simpl in Hk'. subst k'.
    assert (Hex : exists o1, dict_get Var.eqb (dict_set Var.eqb a v o) k = Some o1).
    { apply (dict_key_get _ Var_eqb_eq). apply in_map_iff.
      exists (k, o''). auto. }
    destruct Hex as [o1 Ho1].
    rewrite (dict_get_set_other _ Var_eqb_eq) in Ho1
      by (apply Var_eqb_neq; rewrite Var_eqb_sym; exact E).
    apply (dict_get_key _ Var_eqb_eq) in Ho1. contradiction.
Qed.

Lemma blank_keys_NoDup : NoDup (dict_keys (blank_assignment cw)).
Proof.
  unfold blank_assignment.
  assert (H : forall vars (a : Assignment), NoDup (dict_keys a) ->
            NoDup (dict_keys
              (fold_left (fun a var => dict_set Var.eqb a var None) vars a))).
  { induction vars as [|v vars IH]; intros a Ha; simpl; [exact Ha|].
    apply IH. apply dict_set_keys_NoDup. exact Ha. }
  apply H. constructor.
Qed.

(** A complete assignment holds a word for each of its keys. *)
Lemma complete_get (a : Assignment) (v : Var.t) (o : option string) :
  assignment_complete a = true -> dict_get Var.eqb a v = Some o ->
  exists w, o = Some w.
Proof.
  intros Hc Hg. apply (dict_get_In _ Var_eqb_eq) in Hg.
  unfold assignment_complete in Hc. rewrite forallb_forall in Hc.
  specialize (Hc _ Hg). simpl in Hc. destruct o as [w|]; [|discriminate].
  exists w. reflexivity.
Qed.

(** The check of an assignment without words. *)
Lemma consistent_loop_None (a todo : Assignment) :
  (forall kv : Var.t * option string, In kv todo -> snd kv = None) ->
  consistent_loop cw a todo = Return true.
Proof.
  induction todo as [|[v o] todo IH]; intros H; [reflexivity|].
  pose proof (H (v, o) (or_introl eq_refl)) as Ho. simpl in Ho. subst o.
  cbn [consistent_loop]. apply IH. intros kv Hkv. apply H. right. exact Hkv.
Qed.

Lemma consistent_blank : consistent cw (blank_assignment cw) = Return true.
Proof. apply consistent_loop_None. apply blank_values. Qed.

(** What a passed check says of each assigned entry. *)
Lemma consistent_loop_true (a todo : Assignment) (v : Var.t) (w : string) :
  consistent_loop cw a todo = Return true ->
  In (v, Some w) todo ->
  shares_word a v w = false
  /\ String.length w = Var.length v
  /\ neighbors_agree cw a v w (neighbors cw v) = Return true.
Proof.
  induction todo as [|[v0 [w0|]] todo IH]; intros H Hin.
  - contradiction.
  - cbn [consistent_loop] in H.
    destruct (shares_word a v0 w0) eqn:Hs; [discriminate|].
    destruct (String.length w0 =? Var.length v0) eqn:Hl;
      [|discriminate]. simpl in H.
    destruct (neighbors_agree cw a v0 w0 (neighbors cw v0))
      as [[|] | e |] eqn:Hn; try discriminate.
    destruct Hin as [Heq | Hin].
    + injection Heq as <- <-. apply Nat.eqb_eq in Hl. auto.
    + apply IH; assumption.
  - cbn [consistent_loop] in H. destruct Hin as [Heq | Hin];
      [discriminate | apply IH; assumption].
Qed.

Lemma neighbors_agree_true (a : Assignment) (v : Var.t) (w : string)
      (nbs : list Var.t) (y : Var.t) (wy : string) (kx ky : nat) :
  neighbors_agree cw a v w nbs = Return true ->
  In y nbs ->
  dict_get Var.eqb a y = Some (Some wy) ->
  overlap_of cw v y = Some (Some (kx, ky)) ->
  agree kx ky w wy.
Proof.
  induction nbs as [|nb nbs IH]; intros H Hin Hy Hov; [contradiction|].
  cbn [neighbors_agree] in H.
  destruct Hin as [-> | Hin].
  - rewrite Hy, Hov in H.
    destruct (chars_match (Some (kx, ky)) w wy) as [[|] | e |] eqn:Hc;
      try discriminate.
    rewrite chars_match_Some in Hc. apply agreeb_agree. unfold agreeb.
    destruct (String.get kx w), (String.get ky wy); try discriminate.
    injection Hc as ->. reflexivity.
  - apply IH; try assumption.
    destruct (dict_get Var.eqb a nb) as [[w'|]|]; try discriminate;
      [|exact H].
    destruct (overlap_of cw v nb) as [[ov|]|]; try discriminate; [|exact H].
    destruct (chars_match (Some ov) w w') as [[|] | e |]; try discriminate.
    exact H.
Qed.

Lemma shares_word_false (a : Assignment) (v v' : Var.t) (w w' : string) :
  shares_word a v w = false -> In (v', Some w') a -> v <> v' -> w <> w'.
Proof.
  intros Hs Hin Hne ->. unfold shares_word in Hs.
  assert (H : existsb (fun kv : Var.t * option string =>
                negb (Var.eqb v (fst kv))
                && match snd kv with
                   | Some w'0 => String.eqb w' w'0
                   | None => false
                   end) a = true).
  { apply existsb_exists. exists (v', Some w'). split; [exact Hin|]. simpl.
    apply Var_eqb_neq in Hne. rewrite Hne, String.eqb_refl. reflexivity. }
  congruence.
Qed.

(** A passed check, read as the three constraints. *)
Lemma consistent_true (a : Assignment) :
  consistent cw a = Return true ->
  (forall v1 v2 w1 w2,
     dict_get Var.eqb a v1 = Some (Some w1) ->
     dict_get Var.eqb a v2 = Some (Some w2) -> v1 <> v2 -> w1 <> w2)
  /\ (forall v w, dict_get Var.eqb a v = Some (Some w) ->
                  String.length w = Var.length v)
  /\ (forall x y kx ky wx wy,
        In y (neighbors cw x) ->
        overlap_of cw x y = Some (Some (kx, ky)) ->
        dict_get Var.eqb a x = Some (Some wx) ->
        dict_get Var.eqb a y = Some (Some wy) -> agree kx ky wx wy).
Proof.
  intros Hc. unfold consistent in Hc. repeat split.
  - intros v1 v2 w1 w2 H1 H2 Hne.
    apply (dict_get_In _ Var_eqb_eq) in H1, H2.
    destruct (consistent_loop_true a a v1 w1 Hc H1) as (Hs & _).
    eapply shares_word_false; eassumption.
  - intros v w H. apply (dict_get_In _ Var_eqb_eq) in H.
    apply (consistent_loop_true a a v w Hc H).
  - intros x y kx ky wx wy Hnb Hov Hx Hy.
    apply (dict_get_In _ Var_eqb_eq) in Hx.
    destruct (consistent_loop_true a a x wx Hc Hx) as (_ & _ & Hn).
    eapply neighbors_agree_true; eassumption.
Qed.

(** [order_domain_values] returns the words of the domain. *)
Lemma elimination_counts_fst a var values st counts st' :
  elimination_counts cw a var values st = (Return counts, st') ->
  map fst counts = values.
Proof.
  revert st counts st'. induction values as [|value values IH];
    intros st counts st' H; cbn [elimination_counts] in H.
  - injection H as <- _. reflexivity.
  - inv_bind H as n s1 E1. inv_bind H as cs s2 E2.
    injection H as <- _. simpl. f_equal. eapply IH. exact E2.
Qed.

Lemma order_domain_values_In var a st values st' :
  order_domain_values cw var a st = (Return values, st') ->
  st' = st /\ forall w, In w values <-> In w (dom st var).
Proof.
  intros H. pose proof (order_domain_values_same cw var a _ _ _ H) as ->.
  split; [reflexivity|]. unfold order_domain_values in H.
  inv_bind H as all s1 E1.
  apply domain_of_Return in E1. destruct E1 as (-> & -> & _).
  inv_bind H as counts s2 E2. apply elimination_counts_fst in E2.
  injection H as <- _. intros w. rewrite <- E2.
  rewrite !in_map_iff. split; intros (kv & Hk & Hin); exists kv;
    (split; [exact Hk|]); apply (sorted_by_In snd kv counts); exact Hin.
Qed.

Lemma select_unassigned_key (a : Assignment) (var : Var.t) :
  select_unassigned_variable a = Some var -> In (var, None) a.
Proof.
  induction a as [|[v [w|]] a IH]; simpl; intros H; try discriminate.
  - right. apply IH. exact H.
  - injection H as ->. left. reflexivity.
Qed.

Lemma In_dict_get_NoDup (a : Assignment) (v : Var.t) (o : option string) :
  NoDup (dict_keys a) -> In (v, o) a -> dict_get Var.eqb a v = Some o.
Proof.
  unfold dict_keys. induction a as [|[k o'] a IH]; simpl; intros Hnd Hin;
    [contradiction|].
  inversion Hnd as [|? ? Hk Hnd']; subst.
  destruct Hin as [Heq | Hin].
  - injection Heq as -> ->. rewrite Var_eqb_refl. reflexivity.
  - destruct (Var.eqb v k) eqn:E; [|apply IH; assumption].
    apply Var_eqb_eq in E. subst k. exfalso. apply Hk.
    apply in_map_iff. exists (v, o). auto.
Qed.

Lemma select_unassigned_complete (a : Assignment) :
  select_unassigned_variable a = None -> assignment_complete a = true.
Proof.
  induction a as [|[v [w|]] a IH]; simpl; intros H; try discriminate; auto.
Qed.
End SearchFacts.

(** ** The search: soundness *)

Lemma dict_set_In_key (a : Assignment) (k k0 : Var.t) (o o1 : option string) :
  In (k0, o1) (dict_set Var.eqb a k o) -> In (k0, o1) a \/ (k0 = k /\ o1 = o).
Proof.
  induction a as [|[k' o'] a IH]; simpl.
  - intros [H | []]. injection H as <- <-. right; auto.
  - destruct (Var.eqb k k') eqn:E; simpl.
    + apply Var_eqb_eq in E. subst k'.
      intros [H | H]; [injection H as <- <-; right; auto | left; right; exact H].
    + intros [H | H]; [left; left; exact H|].
      destruct (IH H) as [H' | H']; [left; right; exact H' | right; exact H'].
Qed.

Lemma dict_set_nonempty (a : Assignment) (k : Var.t) (o : option string) :
  dict_set Var.eqb a k o <> [].
Proof.
  destruct a as [|[k' o'] a]; simpl; [discriminate|].
  destruct (Var.eqb k k'); discriminate.
Qed.

Lemma dict_keys_set_key (a : Assignment) (k : Var.t) (o : option string) :
  In k (dict_keys a) -> dict_keys (dict_set Var.eqb a k o) = dict_keys a.
Proof.
  intros H. apply (dict_key_get _ Var_eqb_eq) in H. destruct H as [o0 H].
  eapply dict_keys_set_present. exact H.
Qed.

Section SearchSound.
Variable cw : Crossword.
Variable st0 : State.

Lemma try_values_sound (rec : Assignment -> M (bool * Assignment))
      (var : Var.t) :
  (forall a st r st',
     same_store st0 st -> a <> [] ->
     rec a st = (Return r, st') -> bt_post cw st0 a r) ->
  (forall a, preserves search_rel (rec a)) ->
  forall values a st r st',
    same_store st0 st ->
    (forall w, In w values -> In w (dom st0 var)) ->
    In var (dict_keys a) ->
    try_values cw rec var values a st = (Return r, st') ->
    dict_keys (snd r) = dict_keys a
    /\ (forall v w, In (v, Some w) (snd r) ->
                    In (v, Some w) a \/ In w (dom st0 v))
    /\ (fst r = true ->
        assignment_complete (snd r) = true
        /\ consistent cw (snd r) = Return true).
Proof.
  intros Hrec Hpres.
  induction values as [|value rest IH]; intros a st r st' Hst Hvals Hvar H;
    cbn [try_values] in H.
  - injection H as <- _. simpl. split; [reflexivity|].
    split; [auto | discriminate].
  - assert (Hrest : forall w, In w rest -> In w (dom st0 var))
      by (intros w Hw; apply Hvals; right; exact Hw).
    inv_bind H as ok s1 E1. apply lift_Return in E1. destruct E1 as [E1 ->].
    destruct ok; [|eapply IH; eassumption].
    set (a1 := dict_set Var.eqb a var (Some value)) in *.
    assert (Hk1 : dict_keys a1 = dict_keys a)
      by (apply dict_keys_set_key; exact Hvar).
    assert (Hv1 : forall v w, In (v, Some w) a1 ->
                              In (v, Some w) a \/ In w (dom st0 v)).
    { intros v w Hin. apply dict_set_In_key in Hin.
      destruct Hin as [Hin | [-> Heq]]; [left; exact Hin|].
      injection Heq as ->. right. apply Hvals. left. reflexivity. }
    inv_bind H as r1 s2 E2.
    destruct (Hrec a1 st r1 s2 Hst (dict_set_nonempty a var _) E2)
      as (Hk & Hv & Hfound).
    destruct (fst r1) eqn:Hf.
    + injection H as <- _. split; [congruence|]. split.
      * intros v w Hin. destruct (Hv v w Hin) as [Hin1 | Hd]; auto.
      * intros _. destruct (Hfound eq_refl) as [Hc [Heq | Hcons]];
          [|auto]. split; [exact Hc|]. rewrite Heq. exact E1.
    + assert (Hst2 : same_store st0 s2).
      { eapply same_store_trans; [exact Hst|]. apply (Hpres a1 _ _ _ E2). }
      assert (Hvar1 : In var (dict_keys (snd r1))) by congruence.
      assert (Hvar2 : In var (dict_keys (dict_set Var.eqb (snd r1) var None)))
        by (rewrite dict_keys_set_key; assumption).
      destruct (IH _ _ _ _ Hst2 Hrest Hvar2 H) as (Hk' & Hv' & Hfound').
      rewrite dict_keys_set_key in Hk' by assumption.
      split; [congruence|]. split; [|exact Hfound'].
      intros v w Hin. destruct (Hv' v w Hin) as [Hin' | Hd]; [|auto].
      apply dict_set_In_key in Hin'.
      destruct Hin' as [Hin' | [_ Heq]]; [|discriminate].
      destruct (Hv v w Hin') as [Hin1 | Hd]; auto.
Qed.

Lemma backtrack_rec_sound (fuel : nat) :
  forall a st r st',
    same_store st0 st ->
    backtrack_rec cw fuel a st = (Return r, st') ->
    bt_post cw st0 (working_assignment cw a) r.
Proof.
  induction fuel as [|fuel IH]; intros a st r st' Hst H;
    cbn [backtrack_rec] in H; [discriminate|].
  inv_bind H as u s1 E1. injection E1 as _ <-.
  fold (working_assignment cw a) in H.
  set (a0 := working_assignment cw a) in *.
  destruct (assignment_complete a0) eqn:Hc.
  - injection H as <- _. unfold bt_post. simpl. auto.
  - destruct (select_unassigned_variable a0) as [var|] eqn:Hsel;
      [|discriminate].
    inv_bind H as values s2 E2.
    apply order_domain_values_In in E2. destruct E2 as [-> Hvals].
    assert (Hst1 : same_store st0
              (mkState (domains st) (heap st) (S (backtrack_calls st)))).
    { destruct Hst as [Hd Hh]. split; simpl; assumption. }
    apply select_unassigned_key in Hsel.
    destruct (try_values_sound (backtrack_rec cw fuel) var) with
      (values := values) (a := a0) (r := r) (st' := st')
      (st := mkState (domains st) (heap st) (S (backtrack_calls st)))
      as (Hk & Hv & Hfound).
    + intros a' st1 r' st1' Hst' Hne Hr.
      specialize (IH a' st1 r' st1' Hst' Hr).
      destruct a'; [congruence | exact IH].
    + intros a'. apply backtrack_rec_search_rel.
    + exact Hst1.
    + intros w Hw. apply Hvals in Hw.
      rewrite (same_store_dom _ _ var Hst1) in Hw. exact Hw.
    + unfold dict_keys. apply in_map_iff. exists (var, None). auto.
    + exact H.
    + unfold bt_post. split; [exact Hk|]. split; [exact Hv|].
      intros Hf. destruct (Hfound Hf). auto.
Qed.
End SearchSound.

Lemma backtrack_inv (cw : Crossword) (a : Assignment) (st : State)
      (res : option Assignment) (st' : State) :
  backtrack cw a st = (Return res, st') ->
  exists r,
    backtrack_rec cw (S (List.length a + List.length (variables cw))) a st
    = (Return r, st')
    /\ res = if fst r then Some (snd r) else None.
Proof.
  unfold backtrack. intros H. inv_bind H as r s1 E.
  injection H as <- <-. exists r. auto.
Qed.

(** C1 — search soundness: when [backtrack], started from the empty
    assignment, returns an assignment, that assignment holds a word for
    every variable of the puzzle and passes [consistent]; so the words of
    distinct variables are distinct, each word has the length of its slot,
    and the words of two overlapping variables agree at the overlap
    indices. *)
Theorem search_soundness (cw : Crossword) (st st' : State) (a : Assignment) :
  backtrack cw [] st = (Return (Some a), st') ->
  (forall v, In v (variables cw) ->
     exists w, dict_get Var.eqb a v = Some (Some w))
  /\ consistent cw a = Return true
  /\ (forall v1 v2 w1 w2,
        dict_get Var.eqb a v1 = Some (Some w1) ->
        dict_get Var.eqb a v2 = Some (Some w2) -> v1 <> v2 -> w1 <> w2)
  /\ (forall v w, dict_get Var.eqb a v = Some (Some w) ->
                  String.length w = Var.length v)
  /\ (forall x y kx ky wx wy,
        In y (neighbors cw x) ->
        overlap_of cw x y = Some (Some (kx, ky)) ->
        dict_get Var.eqb a x = Some (Some wx) ->
        dict_get Var.eqb a y = Some (Some wy) ->
        exists c, String.get kx wx = Some c /\ String.get ky wy = Some c).
Proof.
  intros H. apply backtrack_inv in H. destruct H as (r & Hr & Hres).
  destruct (fst r) eqn:Hf; [|discriminate]. injection Hres as ->.
  destruct (backtrack_rec_sound cw st _ _ _ _ _ (same_store_refl st) Hr)
    as (Hk & _ & Hfound).
  simpl in Hk, Hfound. destruct (Hfound Hf) as [Hc Hcons].
  assert (Hcons' : consistent cw (snd r) = Return true).
  { destruct Hcons as [-> | Hcons]; [apply consistent_blank | exact Hcons]. }
  split.
  - intros v Hv.
    assert (Hin : In v (dict_keys (snd r))).
    { rewrite Hk. apply (dict_get_key Var.eqb Var_eqb_eq _ v None).
      rewrite blank_get. apply mem_var_In in Hv. rewrite Hv. reflexivity. }
    apply (dict_key_get _ Var_eqb_eq) in Hin. destruct Hin as [o Ho].
    destruct (complete_get _ _ _ Hc Ho) as [w ->]. exists w. exact Ho.
  - split; [exact Hcons'|]. exact (consistent_true cw (snd r) Hcons').
Qed.

Lemma search_soundness_witness :
  exists a,
    result (solve puzzle_2x2 (init puzzle_2x2)) = Return (Some a)
    /\ consistent puzzle_2x2 a = Return true.
Proof.
  eexists. split; [vm_compute; reflexivity|].
  eapply (search_soundness puzzle_2x2
            (final_state ((enforce_node_consistency ;;; ac3 puzzle_2x2 None)
                            (init puzzle_2x2)))
            (final_state (solve puzzle_2x2 (init puzzle_2x2)))).
  vm_compute. reflexivity.
Defined.

(** ** Well-formed puzzles *)

Lemma overlap_eqb_eq (o1 o2 : option (nat * nat)) :
  overlap_eqb o1 o2 = true -> o1 = o2.
Proof.
  destruct o1 as [[a b]|], o2 as [[c d]|]; simpl; try discriminate; auto.
  rewrite andb_true_iff, !Nat.eqb_eq. intros [-> ->]. reflexivity.
Qed.

Section WellFormed.
Variable cw : Crossword.
Hypothesis wf : wf_crossword cw = true.

Lemma wf_entry (x y : Var.t) (o : option (nat * nat)) :
  overlap_of cw x y = Some o ->
  In x (variables cw) /\ In y (variables cw) /\ x <> y
  /\ overlap_of cw y x = Some (swap_overlap o).
Proof.
  intros Hov. unfold wf_crossword in wf.
  rewrite !andb_true_iff in wf. destruct wf as [Hent _].
  rewrite forallb_forall in Hent.
  pose proof (dict_get_In _ arc_eqb_eq _ _ _ Hov) as Hin.
  specialize (Hent _ Hin). unfold entry_ok in Hent.
  rewrite !andb_true_iff in Hent. destruct Hent as [[[Hx Hy] Hne] Hsym].
  apply mem_var_In in Hx, Hy. apply negb_true_iff, Var_eqb_neq in Hne.
  rewrite Hov in Hsym.
  destruct (overlap_of cw y x) as [o2|]; [|discriminate].
  apply overlap_eqb_eq in Hsym. subst o2. auto.
Qed.

Lemma wf_symmetric (x y : Var.t) (kx ky : nat) :
  overlap_of cw x y = Some (Some (kx, ky)) ->
  overlap_of cw y x = Some (Some (ky, kx)).
Proof. intros H. apply wf_entry in H. apply H. Qed.

Lemma wf_words : NoDup (words cw).
Proof.
  unfold wf_crossword in wf. rewrite !andb_true_iff in wf.
  apply nodup_words_NoDup. apply wf.
Qed.

Lemma neighbors_spec (x y : Var.t) :
  In y (neighbors cw x) <->
  exists kx ky, overlap_of cw x y = Some (Some (kx, ky)).
Proof.
  unfold neighbors. rewrite filter_In, andb_true_iff, negb_true_iff. split.
  - intros (Hy & Hne & Hov).
    destruct (overlap_of cw y x) as [[[ky kx]|]|] eqn:E; try discriminate.
    exists kx, ky. apply wf_symmetric. exact E.
  - intros (kx & ky & Hov). pose proof (wf_entry _ _ _ Hov) as (Hx & Hy & Hne & Hsym).
    split; [exact Hy|]. split.
    + apply Var_eqb_neq. congruence.
    + rewrite Hsym. reflexivity.
Qed.

Lemma neighbors_variables (x y : Var.t) :
  In y (neighbors cw x) -> In y (variables cw) /\ y <> x.
Proof.
  unfold neighbors. rewrite filter_In, andb_true_iff, negb_true_iff.
  intros (Hy & Hne & _). split; [exact Hy | apply Var_eqb_neq; exact Hne].
Qed.
End WellFormed.

(** ** The search: it returns, it restores, it finds *)

Lemma blank_key (cw : Crossword) (v : Var.t) :
  In v (dict_keys (blank_assignment cw)) <-> In v (variables cw).
Proof.
  split.
  - intros H. apply (dict_key_get _ Var_eqb_eq) in H. destruct H as [o H].
    rewrite blank_get in H. apply mem_var_In.
    destruct (mem_var v (variables cw)); congruence.
  - intros H. apply mem_var_In in H. apply (dict_get_key _ Var_eqb_eq _ _ None).
    rewrite blank_get, H. reflexivity.
Qed.

Lemma str_get_Some (k : nat) (w : string) :
  String.get k w <> None -> exists c, String.get k w = Some c.
Proof. destruct (String.get k w) as [c|]; [exists c; reflexivity | congruence]. Qed.

Section SearchTotal.
Variable cw : Crossword.
Hypothesis wf : wf_crossword cw = true.
Variable st0 : State.
Hypothesis all_domains :
  forall v, In v (variables cw) ->
            exists l, dict_get Var.eqb (domains st0) v = Some l.
Variable P : Var.t -> Prop.
Hypothesis P_index :
  forall x y kx ky w,
    P x -> overlap_of cw x y = Some (Some (kx, ky)) ->
    In w (dom st0 x) -> String.get kx w <> None.

Lemma good_key (a : Assignment) (v : Var.t) :
  good cw st0 P a -> In v (variables cw) ->
  exists o, dict_get Var.eqb a v = Some o.
Proof.
  intros [Hk _] Hv. apply (dict_key_get _ Var_eqb_eq).
  rewrite Hk. apply blank_key. exact Hv.
Qed.

Lemma good_keys_NoDup (a : Assignment) :
  good cw st0 P a -> NoDup (dict_keys a).
Proof. intros [Hk _]. rewrite Hk. apply blank_keys_NoDup. Qed.

Lemma good_In_variable (a : Assignment) (v : Var.t) (o : option string) :
  good cw st0 P a -> In (v, o) a -> In v (variables cw).
Proof.
  intros [Hk _] Hin. apply blank_key. rewrite <- Hk.
  unfold dict_keys. apply in_map_iff. exists (v, o). auto.
Qed.

Lemma neighbors_agree_total (a : Assignment) (v : Var.t) (w : string)
      (nbs : list Var.t) :
  good cw st0 P a -> P v -> In w (dom st0 v) ->
  (forall nb, In nb nbs -> In nb (neighbors cw v)) ->
  exists b, neighbors_agree cw a v w nbs = Return b.
Proof.
  intros Hg Hv Hw. induction nbs as [|nb nbs IH]; intros Hnbs.
  - exists true. reflexivity.
  - cbn [neighbors_agree].
    assert (Hnb : In nb (neighbors cw v)) by (apply Hnbs; left; reflexivity).
    assert (IH' : exists b, neighbors_agree cw a v w nbs = Return b)
      by (apply IH; intros nb' H'; apply Hnbs; right; exact H').
    destruct (neighbors_variables cw v nb Hnb) as [Hnbv _].
    destruct (good_key a nb Hg Hnbv) as [[w'|] Ho]; rewrite Ho; [|exact IH'].
    apply (neighbors_spec cw wf) in Hnb. destruct Hnb as (kx & ky & Hov).
    rewrite Hov. rewrite chars_match_Some.
    destruct (str_get_Some kx w) as [cx Hcx];
      [eapply P_index; eassumption|].
    apply (dict_get_In _ Var_eqb_eq) in Ho. destruct Hg as [_ Hvals].
    destruct (Hvals nb w' Ho) as [Hpnb Hw'].
    destruct (str_get_Some ky w') as [cy Hcy].
    { eapply P_index; [exact Hpnb | apply (wf_symmetric cw wf); exact Hov
                      | exact Hw']. }
    rewrite Hcx, Hcy. destruct (Ascii.eqb cx cy); [exact IH'|].
    exists false. reflexivity.
Qed.

Lemma consistent_loop_total (a todo : Assignment) :
  good cw st0 P a -> incl todo a ->
  exists b, consistent_loop cw a todo = Return b.
Proof.
  intros Hg. induction todo as [|[v [w|]] todo IH]; intros Hincl.
  - exists true. reflexivity.
  - cbn [consistent_loop].
    destruct (shares_word a v w); [exists false; reflexivity|].
    destruct (negb (String.length w =? Var.length v));
      [exists false; reflexivity|].
    destruct Hg as [Hk Hvals].
    destruct (Hvals v w (Hincl _ (or_introl eq_refl))) as [Hpv Hw].
    destruct (neighbors_agree_total a v w (neighbors cw v) (conj Hk Hvals)
                Hpv Hw (fun nb H => H)) as [[|] Hb]; rewrite Hb.
    + apply IH. intros kv Hkv. apply Hincl. right. exact Hkv.
    + exists false. reflexivity.
  - cbn [consistent_loop]. apply IH. intros kv Hkv. apply Hincl. right.
    exact Hkv.
Qed.

Lemma consistent_total (a : Assignment) :
  good cw st0 P a -> exists b, consistent cw a = Return b.
Proof. intros Hg. apply consistent_loop_total; [exact Hg | apply incl_refl]. Qed.

Lemma ruled_out_in_total (var nb : Var.t) (value : string) (kx ky : nat)
      (dn : list string) (num : nat) :
  overlap_of cw var nb = Some (Some (kx, ky)) ->
  exists n, ruled_out_in cw var nb value dn num = Return n.
Proof.
  intros Hov. revert num. induction dn as [|comp_value dn IH]; intros num.
  - exists num. reflexivity.
  - cbn [ruled_out_in]. destruct (String.eqb comp_value value); [apply IH|].
    rewrite Hov, chars_match_Some.
    destruct (String.get kx value); [|apply IH].
    destruct (String.get ky comp_value); [|apply IH].
    destruct (Ascii.eqb _ _); apply IH.
Qed.

Lemma num_ruled_out_total (a : Assignment) (var : Var.t) (value : string)
      (nbs : list Var.t) (num : nat) st :
  good cw st0 P a -> same_store st0 st ->
  (forall nb, In nb nbs -> In nb (neighbors cw var)) ->
  exists n, num_ruled_out cw a var value nbs num st = (Return n, st).
Proof.
  intros Hg Hst. revert num. induction nbs as [|nb nbs IH]; intros num Hnbs.
  - exists num. reflexivity.
  - cbn [num_ruled_out].
    assert (Hnb : In nb (neighbors cw var)) by (apply Hnbs; left; reflexivity).
    assert (IH' : forall num', exists n,
               num_ruled_out cw a var value nbs num' st = (Return n, st))
      by (intros num'; apply IH; intros nb' H'; apply Hnbs; right; exact H').
    destruct (neighbors_variables cw var nb Hnb) as [Hnbv _].
    destruct (good_key a nb Hg Hnbv) as [[w'|] Ho]; rewrite Ho; [apply IH'|].
    destruct (all_domains nb Hnbv) as [l Hl].
    destruct Hst as [Hd Hh]. rewrite <- Hd in Hl.
    rewrite (bind_run _ _ _ _ _ (domain_of_run _ _ _ Hl)).
    apply (neighbors_spec cw wf) in Hnb. destruct Hnb as (kx & ky & Hov).
    destruct (ruled_out_in_total var nb value kx ky (dom st nb) num Hov)
      as [n Hn].
    unfold lift at 1, bind at 1. rewrite Hn. apply IH'.
Qed.

Lemma elimination_counts_total (a : Assignment) (var : Var.t)
      (values : list string) st :
  good cw st0 P a -> same_store st0 st ->
  exists counts,
    elimination_counts cw a var values st = (Return counts, st).
Proof.
  intros Hg Hst. induction values as [|value values IH].
  - exists []. reflexivity.
  - cbn [elimination_counts].
    destruct (num_ruled_out_total a var value (neighbors cw var) 0 st Hg Hst
                (fun nb H => H)) as [n Hn].
    rewrite (bind_run _ _ _ _ _ Hn). destruct IH as [counts Hc].
    rewrite (bind_run _ _ _ _ _ Hc). eexists. reflexivity.
Qed.

Lemma order_domain_values_total (var : Var.t) (a : Assignment) st :
  good cw st0 P a -> same_store st0 st -> In var (variables cw) ->
  exists values,
    order_domain_values cw var a st = (Return values, st)
    /\ forall w, In w values <-> In w (dom st0 var).
Proof.
  intros Hg Hst Hvar. unfold order_domain_values.
  destruct (all_domains var Hvar) as [l Hl].
  pose proof Hst as [Hd Hh]. rewrite <- Hd in Hl.
  rewrite (bind_run _ _ _ _ _ (domain_of_run _ _ _ Hl)).
  destruct (elimination_counts_total a var (dom st var) st Hg Hst)
    as [counts Hc].
  rewrite (bind_run _ _ _ _ _ Hc). eexists. split; [reflexivity|].
  apply elimination_counts_fst in Hc. intros w.
  rewrite <- (same_store_dom _ _ var Hst), <- Hc.
  rewrite !in_map_iff. split; intros (kv & Hk & Hin); exists kv;
    (split; [exact Hk|]); apply (sorted_by_In snd kv counts); exact Hin.
Qed.

Lemma unassigned_set (a : Assignment) (var : Var.t) (value : string) :
  dict_get Var.eqb a var = Some None ->
  S (unassigned (dict_set Var.eqb a var (Some value))) = unassigned a.
Proof.
  unfold unassigned. induction a as [|[k o] a IH]; simpl; [discriminate|].
  destruct (Var.eqb var k) eqn:E; simpl.
  - intros H. injection H as ->. reflexivity.
  - intros H. destruct o; simpl; rewrite <- (IH H); reflexivity.
Qed.

Lemma good_extend (a : Assignment) (var : Var.t) (value : string) :
  good cw st0 P a -> P var -> In value (dom st0 var) ->
  In var (dict_keys a) ->
  good cw st0 P (dict_set Var.eqb a var (Some value)).
Proof.
  intros [Hk Hvals] Hp Hv Hvar. split.
  - rewrite dict_keys_set_key by assumption. exact Hk.
  - intros v w Hin. apply dict_set_In_key in Hin.
    destruct Hin as [Hin | [-> Heq]]; [apply Hvals; exact Hin|].
    injection Heq as ->. auto.
Qed.

Lemma part_of_extend (a s : Assignment) (var : Var.t) (value : string) :
  part_of a s -> dict_get Var.eqb s var = Some (Some value) ->
  part_of (dict_set Var.eqb a var (Some value)) s.
Proof.
  intros Hp Hs v w Hin. apply dict_set_In_key in Hin.
  destruct Hin as [Hin | [-> Heq]]; [apply Hp; exact Hin|].
  injection Heq as ->. exact Hs.
Qed.

(** A part of a satisfying assignment passes the check. *)
Lemma neighbors_agree_part (a s : Assignment) (v : Var.t) (w : string)
      (nbs : list Var.t) :
  satisfies cw s -> good cw st0 P a -> part_of a s ->
  dict_get Var.eqb s v = Some (Some w) ->
  (forall nb, In nb nbs -> In nb (neighbors cw v)) ->
  neighbors_agree cw a v w nbs = Return true.
Proof.
  intros (_ & _ & Hagree) Hg Hp Hv. induction nbs as [|nb nbs IH]; intros Hnbs;
    [reflexivity|].
  cbn [neighbors_agree].
  assert (Hnb : In nb (neighbors cw v)) by (apply Hnbs; left; reflexivity).
  assert (IH' : neighbors_agree cw a v w nbs = Return true)
    by (apply IH; intros nb' H'; apply Hnbs; right; exact H').
  destruct (neighbors_variables cw v nb Hnb) as [Hnbv _].
  destruct (good_key a nb Hg Hnbv) as [[w'|] Ho]; rewrite Ho; [|exact IH'].
  apply (neighbors_spec cw wf) in Hnb. destruct Hnb as (kx & ky & Hov).
  rewrite Hov.
  apply (dict_get_In _ Var_eqb_eq) in Ho. apply Hp in Ho.
  pose proof (Hagree v nb kx ky w w' Hov Hv Ho) as Hag.
  apply agreeb_agree in Hag. rewrite chars_match_Some.
  unfold agreeb in Hag.
  destruct (String.get kx w), (String.get ky w'); try discriminate.
  rewrite Hag. exact IH'.
Qed.

Lemma consistent_part (a s : Assignment) :
  satisfies cw s -> good cw st0 P a -> part_of a s ->
  consistent cw a = Return true.
Proof.
  intros Hs Hg Hp. unfold consistent.
  assert (H : forall todo, incl todo a ->
                           consistent_loop cw a todo = Return true).
  { induction todo as [|[v [w|]] todo IH]; intros Hincl; [reflexivity| |].
    - cbn [consistent_loop].
      assert (Hin : In (v, Some w) a) by (apply Hincl; left; reflexivity).
      pose proof (good_In_variable a v _ Hg Hin) as Hv.
      pose proof (Hp v w Hin) as Hsv.
      destruct Hs as (Hall & Hdistinct & Hagree).
      destruct (shares_word a v w) eqn:Hsh.
      { exfalso. unfold shares_word in Hsh. apply existsb_exists in Hsh.
        destruct Hsh as ([v' o'] & Hin' & Hcond). simpl in Hcond.
        apply andb_true_iff in Hcond. destruct Hcond as [Hne Heq].
        apply negb_true_iff, Var_eqb_neq in Hne.
        destruct o' as [w'|]; [|discriminate].
        apply String.eqb_eq in Heq. subst w'.
        pose proof (good_In_variable a v' _ Hg Hin') as Hv'.
        exact (Hdistinct v v' w w Hv Hv' Hne Hsv (Hp v' w Hin') eq_refl). }
      destruct (Hall v Hv) as (w0 & Hw0 & _ & Hlen).
      rewrite Hsv in Hw0. injection Hw0 as <-.
      apply Nat.eqb_eq in Hlen. rewrite Hlen. simpl.
      rewrite (neighbors_agree_part a s v w (neighbors cw v)
                 (conj Hall (conj Hdistinct Hagree)) Hg Hp Hsv (fun nb H => H)).
      apply IH. intros kv Hkv. apply Hincl. right. exact Hkv.
    - cbn [consistent_loop]. apply IH. intros kv Hkv. apply Hincl. right.
      exact Hkv. }
  apply H. apply incl_refl.
Qed.

Lemma try_values_total (rec : Assignment -> M (bool * Assignment))
      (n : nat) (var : Var.t) :
  (forall a st, same_store st0 st -> good cw st0 P a -> a <> [] ->
                unassigned a < n -> bt_total cw st0 a (rec a st)) ->
  (forall a, preserves search_rel (rec a)) ->
  forall values a st,
    same_store st0 st -> good cw st0 P a ->
    dict_get Var.eqb a var = Some None ->
    unassigned a <= n ->
    (forall w, In w values -> In w (dom st0 var)) ->
    (values <> [] -> P var) ->
    exists r st',
      try_values cw rec var values a st = (Return r, st')
      /\ (fst r = false -> snd r = a)
      /\ (forall s w, viable cw st0 s -> part_of a s ->
                      dict_get Var.eqb s var = Some (Some w) ->
                      In w values -> fst r = true).
Proof.
  intros Hrec Hpres.
  induction values as [|value rest IH]; intros a st Hst Hg Hvar Hn Hvals HP.
  - exists (false, a), st. split; [reflexivity|]. split; [reflexivity|].
    intros s w _ _ _ [].
  - cbn [try_values].
    assert (Hpv : P var) by (apply HP; discriminate).
    assert (Hvalue : In value (dom st0 var)) by (apply Hvals; left; reflexivity).
    assert (Hkey : In var (dict_keys a))
      by (eapply (dict_get_key _ Var_eqb_eq); exact Hvar).
    set (a1 := dict_set Var.eqb a var (Some value)).
    assert (Hg1 : good cw st0 P a1) by (apply good_extend; assumption).
    assert (IHrest : exists r st',
               try_values cw rec var rest a st = (Return r, st')
               /\ (fst r = false -> snd r = a)
               /\ (forall s w, viable cw st0 s -> part_of a s ->
                               dict_get Var.eqb s var = Some (Some w) ->
                               In w rest -> fst r = true)).
    { apply IH; try assumption.
      - intros w Hw. apply Hvals. right. exact Hw.
      - intros _. exact Hpv. }
    destruct (consistent_total a1 Hg1) as [ok Hok].
    unfold lift at 1, bind at 1. rewrite Hok.
    destruct ok.
    + assert (Hun : unassigned a1 < n).
      { pose proof (unassigned_set a var value Hvar). fold a1 in H. lia. }
      destruct (Hrec a1 st Hst Hg1 (dict_set_nonempty a var _) Hun)
        as (r1 & s2 & Hr1 & Hfail & Hfind).
      rewrite (bind_run _ _ _ _ _ Hr1).
      destruct (fst r1) eqn:Hf.
      * exists r1, s2. split; [reflexivity|]. split; [congruence|]. auto.
      * rewrite (Hfail eq_refl). unfold a1.
        rewrite (dict_set_restore _ a var (Some value) None Hvar).
        assert (Hst2 : same_store st0 s2).
        { eapply same_store_trans; [exact Hst|]. apply (Hpres a1 _ _ _ Hr1). }
        destruct (IH a s2 Hst2 Hg Hvar Hn
                    (fun w Hw => Hvals w (or_intror Hw)) (fun _ => Hpv))
          as (r & st' & Hr & Hfail' & Hfind').
        exists r, st'. split; [exact Hr|]. split; [exact Hfail'|].
        intros s w Hs Hp Hsv [<- | Hw].
        -- assert (Hp1 : part_of a1 s) by (apply part_of_extend; assumption).
           pose proof (Hfind s Hs Hp1) as Hcontra. discriminate.
        -- eapply Hfind'; eassumption.
    + destruct IHrest as (r & st' & Hr & Hfail' & Hfind').
      exists r, st'. split; [exact Hr|]. split; [exact Hfail'|].
      intros s w Hs Hp Hsv [<- | Hw].
      * assert (Hp1 : part_of a1 s) by (apply part_of_extend; assumption).
        destruct Hs as [Hsat _].
        rewrite (consistent_part a1 s Hsat Hg1 Hp1) in Hok. discriminate.
      * eapply Hfind'; eassumption.
Qed.

(** The variable picked next belongs to [P], unless its domain is
    empty. *)
Hypothesis P_select :
  forall a var,
    good cw st0 P a -> select_unassigned_variable a = Some var ->
    P var \/ dom st0 var = [].

Lemma backtrack_rec_total (fuel : nat) :
  forall a st,
    same_store st0 st -> good cw st0 P a -> a <> [] ->
    unassigned a < fuel ->
    bt_total cw st0 a (backtrack_rec cw fuel a st).
Proof.
  induction fuel as [|fuel IH]; intros a st Hst Hg Hne Hun; [lia|].
  cbn [backtrack_rec]. unfold enter_backtrack at 1, bind at 1.
  set (st1 := mkState (domains st) (heap st) (S (backtrack_calls st))).
  assert (Hst1 : same_store st0 st1)
    by (destruct Hst as [Hd Hh]; split; simpl; assumption).
  replace (match a with [] => blank_assignment cw | _ :: _ => a end) with a
    by (destruct a; congruence).
  destruct (assignment_complete a) eqn:Hc.
  - exists (true, a), st1. split; [reflexivity|]. split; [discriminate | auto].
  - destruct (select_unassigned_variable a) as [var|] eqn:Hsel.
    2:{ apply select_unassigned_complete in Hsel. congruence. }
    pose proof (select_unassigned_key a var Hsel) as Hin.
    pose proof (In_dict_get_NoDup a var None (good_keys_NoDup a Hg) Hin)
      as Hvar.
    pose proof (good_In_variable a var None Hg Hin) as Hvv.
    destruct (order_domain_values_total var a st1 Hg Hst1 Hvv)
      as (values & Hvalues & Hmem).
    rewrite (bind_run _ _ _ _ _ Hvalues).
    destruct (try_values_total (backtrack_rec cw fuel) fuel var) with
      (values := values) (a := a) (st := st1)
      as (r & st' & Hr & Hfail & Hfind).
    + intros a' st2 Hst2 Hg' Hne' Hun'. apply IH; assumption.
    + intros a'. apply backtrack_rec_search_rel.
    + exact Hst1.
    + exact Hg.
    + exact Hvar.
    + lia.
    + intros w Hw. apply Hmem. exact Hw.
    + intros Hnonempty. destruct (P_select a var Hg Hsel) as [Hp | Hempty];
        [exact Hp|].
      destruct values as [|w values]; [congruence|].
      pose proof (proj1 (Hmem w) (or_introl eq_refl)) as Hw.
      rewrite Hempty in Hw. contradiction.
    + exists r, st'. split; [exact Hr|]. split; [exact Hfail|].
      intros s Hs Hp. pose proof Hs as [(Hall & _) Hdom].
      destruct (Hall var Hvv) as (w & Hw & _).
      eapply Hfind; try eassumption.
      apply Hmem. apply Hdom; assumption.
Qed.

(** The root call, on the empty dictionary. *)
Lemma blank_good : good cw st0 P (blank_assignment cw).
Proof.
  split; [reflexivity|]. intros v w Hin.
  apply blank_values in Hin. discriminate.
Qed.

Lemma blank_length_fold (vars : list Var.t) (a : Assignment) :
  List.length (fold_left (fun a var => dict_set Var.eqb a var None) vars a)
  <= List.length a + List.length vars.
Proof.
  revert a. induction vars as [|v vars IH]; intros a; simpl; [lia|].
  specialize (IH (dict_set Var.eqb a v None)).
  assert (H : List.length (dict_set Var.eqb a v (@None string))
              <= S (List.length a)).
  { clear. induction a as [|[k o] a IHa]; simpl; [lia|].
    destruct (Var.eqb v k); simpl; lia. }
  lia.
Qed.

Lemma blank_unassigned :
  unassigned (blank_assignment cw) <= List.length (variables cw).
Proof.
  unfold unassigned. etransitivity; [apply filter_length_le|].
  apply (blank_length_fold (variables cw) []).
Qed.

Lemma backtrack_root_total st :
  same_store st0 st ->
  exists r st',
    backtrack_rec cw (S (List.length (variables cw))) [] st = (Return r, st')
    /\ (forall s, viable cw st0 s -> fst r = true).
Proof.
  intros Hst.
  destruct (blank_assignment cw) as [|kv a] eqn:Hb.
  - cbn [backtrack_rec]. unfold enter_backtrack at 1, bind at 1.
    rewrite Hb. simpl. eexists. eexists. split; [reflexivity|]. auto.
  - assert (E : backtrack_rec cw (S (List.length (variables cw))) [] st
                = backtrack_rec cw (S (List.length (variables cw)))
                    (blank_assignment cw) st).
    { cbn [backtrack_rec]. rewrite Hb. reflexivity. }
    rewrite E.
    destruct (backtrack_rec_total (S (List.length (variables cw)))
                (blank_assignment cw) st Hst blank_good)
      as (r & st' & Hr & _ & Hfind).
    + rewrite Hb. discriminate.
    + pose proof blank_unassigned. lia.
    + exists r, st'. split; [exact Hr|].
      intros s Hs. apply (Hfind s Hs).
      intros v w Hin. apply blank_values in Hin. discriminate.
Qed.
End SearchTotal.

(** ** [ac3]: it returns, and it keeps every satisfying assignment *)

Lemma heap_set_out (h : list (list string)) (l : loc) (s : list string) :
  List.length h <= l -> heap_set h l s = h.
Proof.
  revert l. induction h as [|s' h IH]; intros [|l] Hl; simpl in *;
    try reflexivity; try lia.
  rewrite IH by lia. reflexivity.
Qed.

Lemma heap_size_filter_le (h : list (list string)) (l : loc)
      (f : string -> bool) :
  heap_size (heap_set h l (filter f (heap_get h l))) <= heap_size h.
Proof.
  destruct (Nat.lt_ge_cases l (List.length h)) as [Hlt | Hge].
  - pose proof (heap_size_set h l (filter f (heap_get h l)) Hlt).
    pose proof (filter_length_le f (heap_get h l)). lia.
  - rewrite heap_set_out by assumption. lia.
Qed.

Lemma heap_size_filter_lt (h : list (list string)) (l : loc)
      (f : string -> bool) (w : string) :
  In w (heap_get h l) -> f w = false ->
  heap_size (heap_set h l (filter f (heap_get h l))) < heap_size h.
Proof.
  intros Hw Hf. pose proof (heap_get_nonempty h l w Hw) as Hlt.
  pose proof (heap_size_set h l (filter f (heap_get h l)) Hlt).
  pose proof (filter_length_lt f (heap_get h l) w Hw Hf). lia.
Qed.

Section Ac3Total.
Variable cw : Crossword.

Lemma ac3_loop_total (fuel : nat) :
  forall q st,
    sets_ok st -> arcs_have_domains cw st ->
    (forall a, In a q -> In a (dict_keys (overlaps cw))) ->
    List.length q + S (List.length (overlaps cw)) * heap_size (heap st) <= fuel ->
    exists b st', ac3_loop cw fuel q st = (Return b, st').
Proof.
  induction fuel as [|fuel IH]; intros [|[X Y] rest] st Hso Harcs Hq Hfuel.
  - exists true, st. reflexivity.
  - simpl in Hfuel. lia.
  - exists true, st. reflexivity.
  - cbn [ac3_loop].
    assert (Hrest : forall a, In a rest -> In a (dict_keys (overlaps cw)))
      by (intros a Ha; apply Hq; right; exact Ha).
    simpl in Hfuel.
    destruct (dict_key_get arc_eqb arc_eqb_eq (overlaps cw) (X, Y)
                (Hq _ (or_introl eq_refl))) as [o Ho].
    rewrite Ho. destruct o as [[kx ky]|].
    2:{ apply IH; try assumption. lia. }
    cbn [fst snd].
    destruct (Harcs X Y (kx, ky) Ho) as [[lx Hlx] [ly Hly]].
    pose proof (revise_run cw X Y kx ky lx st Ho Hlx
                  (or_intror (ex_intro _ ly Hly)) (sets_ok_dom st X Hso)) as Hrev.
    rewrite (bind_run _ _ _ _ _ Hrev).
    set (sup := supportedb kx ky (dom st Y)) in *.
    set (st1 := with_domain st lx (filter sup (dom st X))) in *.
    assert (Hlx1 : dict_get Var.eqb (domains st1) X = Some lx) by exact Hlx.
    rewrite (bind_run _ _ _ _ _ (domain_of_run _ _ _ Hlx1)).
    destruct (dom st1 X) as [|w d] eqn:Hd; [exists false, st1; reflexivity|].
    assert (Hso1 : sets_ok st1) by (apply sets_ok_with_domain; exact Hso).
    assert (Harcs1 : arcs_have_domains cw st1) by exact Harcs.
    assert (HdX : dom st X = heap_get (heap st) lx)
      by (unfold dom; rewrite Hlx; reflexivity).
    destruct (forallb sup (dom st X)) eqn:Hall; simpl.
    + apply IH; try assumption.
      pose proof (heap_size_filter_le (heap st) lx sup) as Hle.
      unfold st1, with_domain. simpl. rewrite HdX.
      assert (S (List.length (overlaps cw))
              * heap_size (heap_set (heap st) lx
                             (filter sup (heap_get (heap st) lx)))
              <= S (List.length (overlaps cw)) * heap_size (heap st))
        by (apply Nat.mul_le_mono_l; exact Hle).
      lia.
    + apply IH; try assumption.
      * intros a Ha. apply in_app_or in Ha. destruct Ha as [Ha | Ha];
          [apply Hrest; exact Ha | apply filter_In in Ha; tauto].
      * apply forallb_false_exists in Hall. destruct Hall as (w0 & Hw0 & Hf).
        rewrite HdX in Hw0.
        pose proof (heap_size_filter_lt (heap st) lx sup w0 Hw0 Hf) as Hlt.
        unfold st1, with_domain. simpl. rewrite HdX.
        rewrite length_app.
        pose proof (filter_length_le
                      (fun potential_arc : arc => Var.eqb X (snd potential_arc))
                      (dict_keys (overlaps cw))) as Hfl.
        unfold dict_keys in Hfl at 2. rewrite length_map in Hfl.
        assert (S (List.length (overlaps cw))
                * S (heap_size (heap_set (heap st) lx
                                  (filter sup (heap_get (heap st) lx))))
                <= S (List.length (overlaps cw)) * heap_size (heap st))
          by (apply Nat.mul_le_mono_l; lia).
        unfold arc in *. nia.
Qed.

Lemma ac3_terminates st :
  sets_ok st -> arcs_have_domains cw st ->
  exists b st', ac3 cw None st = (Return b, st').
Proof.
  intros Hso Harcs. unfold ac3. apply ac3_loop_total; try assumption.
  - auto.
  - unfold ac3_fuel, dict_keys. rewrite length_map. lia.
Qed.

Hypothesis wf : wf_crossword cw = true.
Variable s : Assignment.
Hypothesis s_sat : satisfies cw s.

Lemma revise_keeps_solution (X Y : Var.t) (kx ky : nat) (lx : loc) st :
  no_alias st -> holds_solution cw s st ->
  overlap_of cw X Y = Some (Some (kx, ky)) ->
  dict_get Var.eqb (domains st) X = Some lx ->
  holds_solution cw s
    (with_domain st lx (filter (supportedb kx ky (dom st Y)) (dom st X))).
Proof.
  intros Hna Hs Hov Hlx v w Hv Hsv.
  destruct (Var.eqb v X) eqn:E.
  - apply Var_eqb_eq in E. subst v.
    rewrite (dom_with_domain_same st X lx _ Hlx). apply filter_In.
    split; [apply Hs; assumption|].
    apply supportedb_has_support.
    destruct (wf_entry cw wf X Y _ Hov) as (_ & HY & _).
    destruct s_sat as (Hall & _ & Hagree).
    destruct (Hall Y HY) as (wy & Hwy & _).
    exists wy. split; [apply Hs; assumption|].
    eapply Hagree; eassumption.
  - apply Var_eqb_neq in E.
    rewrite (dom_with_domain_other st X v lx _ Hna Hlx E).
    apply Hs; assumption.
Qed.

Lemma ac3_loop_keeps_solution (fuel : nat) :
  forall q st b st',
    no_alias st -> holds_solution cw s st ->
    ac3_loop cw fuel q st = (Return b, st') ->
    holds_solution cw s st'.
Proof.
  induction fuel as [|fuel IH]; intros [|[X Y] rest] st b st' Hna Hs H;
    cbn [ac3_loop] in H; try discriminate.
  - injection H as _ <-. exact Hs.
  - injection H as _ <-. exact Hs.
  - destruct (dict_get arc_eqb (overlaps cw) (X, Y)) as [[[kx ky]|]|] eqn:Ea;
      try discriminate; [|eapply IH; eassumption].
    cbn [fst snd] in H. inv_bind H as rm s1 E1.
    destruct (revise_inv cw X Y kx ky rm st s1 Ea E1) as (lx & Hlx & Hs1 & _).
    inv_bind H as dx s2 E2.
    apply domain_of_Return in E2. destruct E2 as (-> & -> & _).
    assert (Hs1' : holds_solution cw s s1)
      by (subst s1; apply revise_keeps_solution; assumption).
    assert (Hna1 : no_alias s1) by (subst s1; exact Hna).
    destruct (dom s1 X) as [|w d]; [injection H as _ <-; exact Hs1'|].
    destruct rm; eapply IH; eassumption.
Qed.

Lemma ac3_succeeds st :
  no_alias st -> sets_ok st -> arcs_have_domains cw st ->
  holds_solution cw s st ->
  exists st', ac3 cw None st = (Return true, st') /\ holds_solution cw s st'.
Proof.
  intros Hna Hso Harcs Hs.
  destruct (ac3_terminates st Hso Harcs) as (b & st' & H).
  pose proof H as H0. unfold ac3 in H0.
  pose proof (ac3_loop_keeps_solution _ _ _ _ _ Hna Hs H0) as Hs'.
  exists st'. split; [|exact Hs'].
  destruct b; [exact H|]. exfalso.
  apply ac3_loop_false in H0.
  destruct H0 as (x & y & _ & [o Hov] & _ & Hempty).
  destruct (wf_entry cw wf x y _ Hov) as (Hx & _).
  destruct s_sat as (Hall & _). destruct (Hall x Hx) as (w & Hw & _).
  specialize (Hs' x w Hx Hw). rewrite Hempty in Hs'. contradiction.
Qed.
End Ac3Total.

(** ** [solve]: completeness *)

Lemma fits_exact (v : Var.t) (w : string) :
  String.length w = Var.length v -> fits v w = true.
Proof.
  intros H. unfold fits. apply negb_true_iff. apply Nat.ltb_ge. lia.
Qed.

Lemma arc_ok_index (st : State) (x y : Var.t) (kx ky : nat) (w : string) :
  arc_ok st x y kx ky -> In w (dom st x) -> String.get kx w <> None.
Proof.
  intros [Hsup _] Hw. specialize (Hsup w Hw).
  apply supportedb_has_support in Hsup.
  destruct Hsup as (wy & _ & c & Hc & _). congruence.
Qed.

(** C2 — search completeness: on a well-formed puzzle, when some
    assignment of vocabulary words to all variables satisfies the length,
    distinctness and overlap constraints, [solve] on the freshly built
    creator returns an assignment, and the assignment it returns satisfies
    them. *)
Theorem search_completeness (cw : Crossword) :
  wf_crossword cw = true ->
  (exists s, satisfies cw s) ->
  exists a st',
    solve cw (init cw) = (Return (Some a), st') /\ satisfies cw a.
Proof.
  intros wf [s Hsat].
  (* the initial state *)
  set (st0 := init cw).
  pose proof (init_no_alias cw) as Hna0. fold st0 in Hna0.
  pose proof (init_sets_ok cw (wf_words cw wf)) as Hso0. fold st0 in Hso0.
  (* node consistency *)
  destruct (enforce_node_consistency_run st0 Hna0 Hso0)
    as (st1 & E1 & Hd1 & _ & Hso1 & Hdom1).
  assert (Hna1 : no_alias st1) by (unfold no_alias; rewrite Hd1; exact Hna0).
  assert (Hentries1 : forall v, In v (variables cw) ->
            exists l, dict_get Var.eqb (domains st1) v = Some l).
  { intros v Hv. rewrite Hd1. destruct (init_domain cw v Hv) as (l & Hl & _).
    exists l. exact Hl. }
  assert (Harcs1 : arcs_have_domains cw st1).
  { intros x y o Hov. destruct (wf_entry cw wf x y _ Hov) as (Hx & Hy & _).
    split; apply Hentries1; assumption. }
  assert (Hs1 : holds_solution cw s st1).
  { intros v w Hv Hsv. destruct Hsat as (Hall & _).
    destruct (Hall v Hv) as (w0 & Hw0 & Hin & Hlen).
    rewrite Hsv in Hw0. injection Hw0 as <-.
    rewrite Hdom1. apply filter_In. split.
    - unfold st0. rewrite (init_dom cw v Hv). exact Hin.
    - apply fits_exact. exact Hlen. }
  (* arc consistency *)
  destruct (ac3_succeeds cw wf s Hsat st1 Hna1 Hso1 Harcs1 Hs1)
    as (st2 & E2 & Hs2).
  pose proof (ac3_shrinks cw None st1 _ _ E2) as Hshr.
  assert (Hd2 : domains st2 = domains st1) by apply Hshr.
  assert (Hinv : ac3_inv cw [] st2).
  { unfold ac3 in E2. eapply ac3_loop_sound; [exact Hna1 | | exact E2].
    apply ac3_inv_initial. }
  (* the search *)
  destruct (backtrack_root_total cw wf st2
              ltac:(intros v Hv; rewrite Hd2; apply Hentries1; exact Hv)
              (fun v => In v (variables cw))) with (st := st2)
    as (r & st3 & Hr & Hfind).
  { intros x y kx ky w _ Hov Hw.
    destruct (Hinv x y kx ky Hov) as [[] | Hok].
    eapply arc_ok_index; eassumption. }
  { intros a var Hg Hsel. left.
    apply select_unassigned_key in Hsel.
    destruct Hg as [Hk _]. apply blank_key. rewrite <- Hk.
    unfold dict_keys. apply in_map_iff. exists (var, None). auto. }
  { apply same_store_refl. }
  assert (Hf : fst r = true) by (apply (Hfind s); split; assumption).
  exists (snd r), st3. split.
  - unfold solve. rewrite (bind_run _ _ _ _ _ E1).
    rewrite (bind_run _ _ _ _ _ E2). unfold backtrack.
    cbn [List.length Nat.add]. rewrite (bind_run _ _ _ _ _ Hr).
    rewrite Hf. reflexivity.
  - destruct (backtrack_rec_sound cw st2 _ _ _ _ _ (same_store_refl st2) Hr)
      as (Hk & Hvals & Hfound).
    simpl in Hk, Hvals, Hfound. destruct (Hfound Hf) as [Hc Hcons].
    assert (Hcons' : consistent cw (snd r) = Return true).
    { destruct Hcons as [-> | Hcons]; [apply consistent_blank | exact Hcons]. }
    destruct (consistent_true cw (snd r) Hcons') as (Hdistinct & Hlen & Hagree).
    split; [|split].
    + intros v Hv.
      assert (Hin : In v (dict_keys (snd r)))
        by (rewrite Hk; apply blank_key; exact Hv).
      apply (dict_key_get _ Var_eqb_eq) in Hin. destruct Hin as [o Ho].
      destruct (complete_get _ _ _ Hc Ho) as [w ->]. exists w.
      split; [exact Ho|]. split; [|apply Hlen; exact Ho].
      apply (dict_get_In _ Var_eqb_eq) in Ho.
      destruct (Hvals v w Ho) as [Hb | Hw].
      * apply blank_values in Hb. discriminate.
      * apply (shrinks_incl st1 st2 v w Hshr) in Hw.
        rewrite Hdom1 in Hw. apply filter_In in Hw. destruct Hw as [Hw _].
        unfold st0 in Hw. rewrite (init_dom cw v Hv) in Hw. exact Hw.
    + intros v1 v2 w1 w2 _ _ Hne H1 H2. eapply Hdistinct; eassumption.
    + intros x y kx ky wx wy Hov Hx Hy.
      eapply Hagree; try eassumption.
      apply (neighbors_spec cw wf). exists kx, ky. exact Hov.
Qed.

Lemma satisfiesb_sound (cw : Crossword) (a : Assignment) :
  satisfiesb cw a = true -> satisfies cw a.
Proof.
  unfold satisfiesb. rewrite !andb_true_iff, !forallb_forall.
  intros [[H1 H2] H3]. split; [|split].
  - intros v Hv. specialize (H1 v Hv).
    destruct (dict_get Var.eqb a v) as [[w|]|]; try discriminate.
    apply andb_true_iff in H1. destruct H1 as [Hm Hl].
    exists w. split; [reflexivity|].
    split; [apply set_mem_In; exact Hm | apply Nat.eqb_eq; exact Hl].
  - intros v1 v2 w1 w2 Hv1 Hv2 Hne G1 G2. specialize (H2 v1 Hv1).
    rewrite forallb_forall in H2. specialize (H2 v2 Hv2).
    rewrite G1, G2 in H2. apply Var_eqb_neq in Hne. rewrite Hne in H2.
    simpl in H2. apply negb_true_iff, String.eqb_neq in H2. exact H2.
  - intros x y kx ky wx wy Hov Gx Gy.
    apply (dict_get_In _ arc_eqb_eq) in Hov. specialize (H3 _ Hov).
    simpl in H3. rewrite Gx, Gy in H3. apply agreeb_agree. exact H3.
Qed.

Lemma search_completeness_witness :
  exists a st',
    solve puzzle_2x2 (init puzzle_2x2) = (Return (Some a), st')
    /\ satisfies puzzle_2x2 a.
Proof.
  apply (search_completeness puzzle_2x2); [reflexivity|].
  exists [(across2, Some "AT"%string); (down2, Some "TO"%string)].
  apply satisfiesb_sound. reflexivity.
Defined.

(** ** [solve] after [ac3] reported infeasibility *)

(** C4, as stated, fails: on two crossing slots of length 3 with the
    vocabulary CAT, DOG, [ac3] empties a domain and returns [False], and
    [solve] enters [backtrack] all the same (the call is counted). *)
Lemma solve_short_circuit_counterexample :
  let st1 := final_state (enforce_node_consistency (init puzzle_no_solution)) in
  result (ac3 puzzle_no_solution None st1) = Return false
  /\ dom (final_state (ac3 puzzle_no_solution None st1)) across3 = []
  /\ backtrack_calls (init puzzle_no_solution) = 0
  /\ backtrack_calls (final_state (solve puzzle_no_solution
                                         (init puzzle_no_solution))) = 1.
Proof. vm_compute. repeat split. Qed.

Lemma arcs_eqb_eq (l1 l2 : list arc) : arcs_eqb l1 l2 = true -> l1 = l2.
Proof.
  revert l2. induction l1 as [|a1 l1 IH]; intros [|a2 l2]; simpl;
    try discriminate; [reflexivity|].
  rewrite andb_true_iff. intros [Ha Hl]. apply arc_eqb_eq in Ha.
  rewrite (IH l2 Hl), Ha. reflexivity.
Qed.

Lemma nodup_vars_NoDup (l : list Var.t) : nodup_vars l = true -> NoDup l.
Proof.
  induction l as [|v l IH]; simpl; [constructor|].
  rewrite andb_true_iff, negb_true_iff. intros [Hm Hn].
  constructor; [|apply IH; exact Hn].
  rewrite <- mem_var_In. congruence.
Qed.

(** Two ways of cutting one list: what lies before the first cut lies
    before the second, unless the second cut is inside it. *)
Lemma prefix_in_done {A : Type} (front behind done todo : list A) (e : A) :
  front ++ behind = done ++ e :: todo ->
  ~ In e front -> forall a, In a front -> In a done.
Proof.
  revert done. induction front as [|f front IH]; intros done Heq Hne a Ha;
    [contradiction|].
  destruct done as [|d done]; simpl in Heq.
  - injection Heq as -> _. exfalso. apply Hne. left. reflexivity.
  - injection Heq as -> Heq. destruct Ha as [<- | Ha]; [left; reflexivity|].
    right. apply (IH done Heq); [|exact Ha].
    intros H. apply Hne. right. exact H.
Qed.

Lemma prefix_compare {A : Type} (p1 s1 p2 s2 : list A) (x y : A) :
  NoDup (p1 ++ x :: s1) ->
  p1 ++ x :: s1 = p2 ++ y :: s2 ->
  (forall k, In k p1 -> In k p2) ->
  In x p2 \/ x = y.
Proof.
  revert p2. induction p1 as [|k p1 IH]; intros p2 Hnd Heq Hsub.
  - destruct p2 as [|k2 p2]; simpl in Heq; injection Heq as -> _;
      [right; reflexivity | left; left; reflexivity].
  - destruct p2 as [|k2 p2].
    + exfalso. apply (Hsub k). left. reflexivity.
    + simpl in Heq. injection Heq as <- Heq.
      simpl in Hnd. inversion Hnd as [|? ? Hk Hnd']; subst.
      destruct (IH p2 Hnd' Heq) as [Hin | ->]; [|left; right; exact Hin | right; reflexivity].
      intros k0 Hk0. destruct (Hsub k0 (or_intror Hk0)) as [<- | Hin];
        [|exact Hin].
      exfalso. apply Hk. apply in_or_app. left. exact Hk0.
Qed.

Lemma product_arcs_fst (vars front : list Var.t) (a : arc) :
  In a (flat_map (fun v1 =>
          flat_map (fun v2 => if Var.eqb v1 v2 then [] else [(v1, v2)]) vars)
          front) ->
  In (fst a) front.
Proof.
  intros H. apply in_flat_map in H. destruct H as (v1 & Hv1 & H).
  apply in_flat_map in H. destruct H as (v2 & _ & H).
  destruct (Var.eqb v1 v2); [contradiction|].
  destruct H as [<- | []]. exact Hv1.
Qed.

Lemma select_unassigned_split (a : Assignment) (var : Var.t) :
  select_unassigned_variable a = Some var ->
  exists a1 a2,
    a = a1 ++ (var, None) :: a2
    /\ forall kv, In kv a1 -> exists w, snd kv = Some w.
Proof.
  induction a as [|[v [w|]] a IH]; simpl; intros H; try discriminate.
  - destruct (IH H) as (a1 & a2 & -> & Ha1).
    exists ((v, Some w) :: a1), a2. split; [reflexivity|].
    intros kv [<- | Hkv]; [exists w; reflexivity | apply Ha1; exact Hkv].
  - injection H as ->. exists [], a. split; [reflexivity|]. intros kv [].
Qed.

Lemma blank_fold_keys (vars : list Var.t) (a : Assignment) :
  NoDup (dict_keys a ++ vars) ->
  dict_keys (fold_left (fun a var => dict_set Var.eqb a var None) vars a)
  = dict_keys a ++ vars.
Proof.
  revert a. induction vars as [|v vars IH]; intros a Hnd; simpl.
  - rewrite app_nil_r. reflexivity.
  - assert (Hset : dict_keys (dict_set Var.eqb a v (@None string))
                   = dict_keys a ++ [v]).
    { apply NoDup_remove_2 in Hnd.
      assert (Hv : ~ In v (dict_keys a))
        by (intros H; apply Hnd; apply in_or_app; left; exact H).
      clear Hnd IH. unfold dict_keys in *.
      induction a as [|[k o] a IHa]; simpl; [reflexivity|].
      destruct (Var.eqb v k) eqn:E.
      - apply Var_eqb_eq in E. subst k. exfalso. apply Hv. left. reflexivity.
      - simpl. rewrite IHa; [reflexivity|].
        intros H. apply Hv. right. exact H. }
    rewrite IH; rewrite Hset, <- app_assoc; [reflexivity | exact Hnd].
Qed.

Lemma blank_keys_eq (cw : Crossword) :
  NoDup (variables cw) ->
  dict_keys (blank_assignment cw) = variables cw.
Proof. intros H. apply (blank_fold_keys (variables cw) []). exact H. Qed.

Section Ac3Prefix.
Variable cw : Crossword.

Lemma arc_indexed_shrinks (st st' : State) (a : arc) :
  shrinks st st' -> arc_indexed cw st a -> arc_indexed cw st' a.
Proof.
  intros Hshr H kx ky w Hov Hw. apply (H kx ky w Hov).
  eapply shrinks_incl; eassumption.
Qed.

(** When [ac3] reports [False]: the arcs of the table before the one
    that emptied a domain have all been revised. *)
Lemma ac3_loop_false_prefix (fuel : nat) :
  forall q st st' done todo extra,
    dict_keys (overlaps cw) = done ++ todo ->
    q = todo ++ extra ->
    (forall a, In a done -> arc_indexed cw st a) ->
    ac3_loop cw fuel q st = (Return false, st') ->
    exists X Y done' todo',
      dom st' X = []
      /\ (exists o, overlap_of cw X Y = Some (Some o))
      /\ dict_keys (overlaps cw) = done' ++ todo'
      /\ (forall a, In a done' -> arc_indexed cw st' a)
      /\ (todo' = [] \/ exists t, todo' = (X, Y) :: t).
Proof.
  induction fuel as [|fuel IH]; intros [|[X Y] rest] st st' done todo extra
    Hkeys Hq Hdone H; cbn [ac3_loop] in H; try discriminate.
  (* the next state of the bookkeeping *)
  assert (Hnext : exists done1 todo1 extra1,
             dict_keys (overlaps cw) = done1 ++ todo1
             /\ rest = todo1 ++ extra1
             /\ (forall a, In a done1 -> a = (X, Y) \/ In a done)
             /\ (todo = [] \/ exists t, todo = (X, Y) :: t)).
  { destruct todo as [|a' todo1].
    - exists done, [], rest. simpl in Hq. subst extra.
      repeat split; auto.
    - simpl in Hq. injection Hq as <- ->.
      exists (done ++ [(X, Y)]), todo1, extra.
      rewrite <- app_assoc. simpl. repeat split; auto.
      + intros a Ha. apply in_app_or in Ha.
        destruct Ha as [Ha | [<- | []]]; auto.
      + right. exists todo1. reflexivity. }
  destruct Hnext as (done1 & todo1 & extra1 & Hkeys1 & Hq1 & Hdone1 & Hhead).
  destruct (dict_get arc_eqb (overlaps cw) (X, Y)) as [[[kx ky]|]|] eqn:Ea;
    try discriminate.
  - cbn [fst snd] in H. inv_bind H as rm s1 E1.
    pose proof (revise_shrinks cw X Y _ _ _ E1) as Hshr.
    destruct (revise_inv cw X Y kx ky rm st s1 Ea E1) as (lx & Hlx & Hs1 & _).
    inv_bind H as dx s2 E2.
    apply domain_of_Return in E2. destruct E2 as (-> & -> & _).
    destruct (dom s1 X) as [|w d] eqn:Hd.
    + injection H as <-. exists X, Y, done, todo.
      split; [exact Hd|]. split; [exists (kx, ky); exact Ea|].
      split; [exact Hkeys|]. split; [|exact Hhead].
      intros a Ha. eapply arc_indexed_shrinks; [exact Hshr | apply Hdone, Ha].
    + assert (Hdone1' : forall a, In a done1 -> arc_indexed cw s1 a).
      { intros a Ha. destruct (Hdone1 a Ha) as [-> | Ha'].
        - intros kx' ky' w' Hov Hw'. simpl in Hov, Hw'.
          unfold overlap_of in Hov. rewrite Ea in Hov.
          injection Hov as <- <-.
          rewrite Hs1, (dom_with_domain_same st X lx _ Hlx) in Hw'.
          apply filter_In in Hw'. destruct Hw' as [_ Hsup].
          apply supportedb_has_support in Hsup.
          destruct Hsup as (wy & _ & c & Hc & _). congruence.
        - eapply arc_indexed_shrinks; [exact Hshr | apply Hdone, Ha']. }
      destruct rm.
      * eapply (IH _ s1 st' done1 todo1); [exact Hkeys1 | | exact Hdone1' | exact H].
        rewrite Hq1, <- app_assoc. reflexivity.
      * eapply (IH _ s1 st' done1 todo1); [exact Hkeys1 | exact Hq1
                                           | exact Hdone1' | exact H].
  - eapply (IH _ st st' done1 todo1); [exact Hkeys1 | exact Hq1 | | exact H].
    intros a Ha. destruct (Hdone1 a Ha) as [-> | Ha']; [|apply Hdone, Ha'].
    intros kx ky w Hov _. simpl in Hov. unfold overlap_of in Hov. congruence.
Qed.
End Ac3Prefix.

Lemma product_arcs_cut (vars l1 : list Var.t) (X : Var.t) (l2 : list Var.t) :
  vars = l1 ++ X :: l2 ->
  exists front behind,
    product_arcs vars = front ++ behind
    /\ (forall a, In a front -> In (fst a) l1)
    /\ (forall a, In a behind -> In (fst a) (X :: l2)).
Proof.
  intros Hvars.
  exists (flat_map (fun v1 =>
            flat_map (fun v2 => if Var.eqb v1 v2 then [] else [(v1, v2)]) vars)
            l1),
         (flat_map (fun v1 =>
            flat_map (fun v2 => if Var.eqb v1 v2 then [] else [(v1, v2)]) vars)
            (X :: l2)).
  split; [|split; intros a Ha; eapply product_arcs_fst; exact Ha].
  unfold product_arcs.
  generalize (fun v1 : Var.t =>
                flat_map (fun v2 => if Var.eqb v1 v2 then [] else [(v1, v2)])
                         vars) as g.
  intros g. rewrite Hvars. apply flat_map_app.
Qed.

(** C4, as amended — after [ac3] reported infeasibility: on a well-formed
    puzzle whose overlap table is listed variable by variable, when [ac3],
    run by [solve] after node consistency, empties a domain and returns
    [False], [solve] goes on to the backtracking search all the same (the
    call is counted), the search fails, and [solve] returns [None]. *)
Theorem solve_after_infeasible (cw : Crossword) (st2 : State) :
  wf_crossword cw = true ->
  table_in_order cw = true ->
  ac3 cw None (final_state (enforce_node_consistency (init cw)))
  = (Return false, st2) ->
  exists st3,
    solve cw (init cw) = (Return None, st3)
    /\ backtrack cw [] st2 = (Return None, st3)
    /\ backtrack_calls st2 < backtrack_calls st3.
Proof.
  intros wf Hord E2.
  unfold table_in_order in Hord. apply andb_true_iff in Hord.
  destruct Hord as [Hnd Hkeys].
  apply nodup_vars_NoDup in Hnd. apply arcs_eqb_eq in Hkeys.
  (* node consistency *)
  destruct (enforce_node_consistency_run (init cw) (init_no_alias cw)
              (init_sets_ok cw (wf_words cw wf)))
    as (st1 & E1 & Hd1 & _ & _ & _).
  rewrite E1 in E2. unfold final_state in E2. cbn [snd] in E2.
  pose proof (ac3_shrinks cw None st1 _ _ E2) as Hshr.
  assert (Hentries : forall v, In v (variables cw) ->
            exists l, dict_get Var.eqb (domains st2) v = Some l).
  { intros v Hv. destruct Hshr as (Hd2 & _). rewrite Hd2, Hd1.
    destruct (init_domain cw v Hv) as (l & Hl & _). exists l. exact Hl. }
  (* what the failed propagation leaves *)
  pose proof E2 as E2'. unfold ac3 in E2'.
  destruct (ac3_loop_false_prefix cw _ _ _ _ [] (dict_keys (overlaps cw)) []
              eq_refl (eq_sym (app_nil_r _)) ltac:(intros a []) E2')
    as (X & Y & done & todo & Hempty & [o Hov] & Hsplit & Hdone & Hhead).
  destruct (wf_entry cw wf X Y _ Hov) as (HX & _).
  destruct (in_split X (variables cw) HX) as (l1 & l2 & Hvars).
  assert (HXl1 : ~ In X l1).
  { rewrite Hvars in Hnd. apply NoDup_remove_2 in Hnd.
    intros H. apply Hnd. apply in_or_app. left. exact H. }
  assert (Hindexed : forall x y kx ky w,
            In x l1 -> overlap_of cw x y = Some (Some (kx, ky)) ->
            In w (dom st2 x) -> String.get kx w <> None).
  { intros x y kx ky w Hx Hxy Hw.
    apply (Hdone (x, y)) with (ky := ky); [|exact Hxy | exact Hw].
    pose proof (overlap_of_key cw x y _ Hxy) as Hkey.
    destruct Hhead as [-> | [t ->]].
    - rewrite app_nil_r in Hsplit. rewrite <- Hsplit. exact Hkey.
    - rewrite Hkeys in Hsplit, Hkey.
      destruct (product_arcs_cut (variables cw) l1 X l2 Hvars)
        as (front & behind & Hprod & Hfront & Hbehind).
      rewrite Hprod in Hsplit, Hkey.
      apply (prefix_in_done _ _ _ _ _ Hsplit).
      + intros H. apply Hfront in H. contradiction.
      + apply in_app_or in Hkey. destruct Hkey as [Hkey | Hkey]; [exact Hkey|].
        exfalso. apply Hbehind in Hkey. simpl in Hkey.
        rewrite Hvars in Hnd. clear - Hnd Hx Hkey.
        induction l1 as [|k l1 IH]; [contradiction|].
        simpl in Hnd. inversion Hnd as [|? ? Hk Hnd']; subst.
        destruct Hx as [-> | Hx]; [|apply IH; assumption].
        apply Hk. apply in_or_app. right. exact Hkey. }
  (* the search *)
  destruct (backtrack_root_total cw wf st2 Hentries (fun v => In v l1))
    with (st := st2) as (r & st3 & Hr & _).
  { intros x y kx ky w Hx Hxy Hw. eapply Hindexed; eassumption. }
  { intros a var Hg Hsel.
    destruct (select_unassigned_split a var Hsel) as (a1 & a2 & Ha & Ha1).
    assert (Hka : dict_keys a = variables cw).
    { destruct Hg as [Hk _]. rewrite Hk. apply blank_keys_eq. exact Hnd. }
    unfold dict_keys in Hka. rewrite Ha, map_app in Hka. simpl in Hka.
    destruct (prefix_compare (map fst a1) (map fst a2) l1 l2 var X) as [H | ->].
    - rewrite Hka. exact Hnd.
    - rewrite Hka. exact Hvars.
    - intros k Hk. apply in_map_iff in Hk. destruct Hk as ([k' o'] & <- & Hin).
      destruct (Ha1 _ Hin) as [w Hw]. simpl in Hw. subst o'.
      destruct Hg as [_ Hvals]. apply (Hvals k' w).
      rewrite Ha. apply in_or_app. left. exact Hin.
    - left. exact H.
    - right. exact Hempty. }
  { apply same_store_refl. }
  assert (Hf : fst r = false).
  { destruct (fst r) eqn:Hf; [|reflexivity]. exfalso.
    destruct (backtrack_rec_sound cw st2 _ _ _ _ _ (same_store_refl st2) Hr)
      as (Hk & Hvals & Hfound).
    simpl in Hk, Hvals. destruct (Hfound Hf) as [Hc _].
    assert (Hin : In X (dict_keys (snd r)))
      by (rewrite Hk; apply blank_key; exact HX).
    apply (dict_key_get _ Var_eqb_eq) in Hin. destruct Hin as [ox Hox].
    destruct (complete_get _ _ _ Hc Hox) as [w ->].
    apply (dict_get_In _ Var_eqb_eq) in Hox.
    destruct (Hvals X w Hox) as [Hb | Hw].
    - apply blank_values in Hb. discriminate.
    - rewrite Hempty in Hw. contradiction. }
  assert (Hbt : backtrack cw [] st2 = (Return None, st3)).
  { unfold backtrack. cbn [List.length Nat.add].
    rewrite (bind_run _ _ _ _ _ Hr). rewrite Hf. reflexivity. }
  exists st3. split; [|split; [exact Hbt|]].
  - unfold solve. rewrite (bind_run _ _ _ _ _ E1).
    rewrite (bind_run _ _ _ _ _ E2). exact Hbt.
  - apply backtrack_rec_counted in Hr. apply Hr.
Qed.

Lemma solve_after_infeasible_witness :
  result (solve puzzle_no_solution (init puzzle_no_solution)) = Return None.
Proof.
  destruct (solve_after_infeasible puzzle_no_solution
              (final_state (ac3 puzzle_no_solution None
                 (final_state (enforce_node_consistency
                                 (init puzzle_no_solution))))))
    as (st3 & Hsolve & _).
  - reflexivity.
  - reflexivity.
  - reflexivity.
  - rewrite Hsolve. reflexivity.
Defined.

(** ** The fuel of the model is always enough *)

Lemma settles_weaken {A : Type} (Q : A -> Prop) (run : outcome A * State) :
  settles Q run -> settles (fun _ => True) run.
Proof. unfold settles. destruct (fst run); auto. Qed.

Lemma nto_ret {A : Type} (a : A) : never_times_out (ret a).
Proof. intros st. exact I. Qed.

Lemma nto_raise {A : Type} (e : exn) : never_times_out (@raise A e).
Proof. intros st. exact I. Qed.

Lemma nto_lift {A : Type} (o : outcome A) :
  o <> OutOfFuel -> never_times_out (lift o).
Proof. intros H st. unfold settles, lift. simpl. destruct o; auto. Qed.

Lemma nto_domain_of (x : Var.t) : never_times_out (domain_of x).
Proof.
  intros st. unfold settles, domain_of.
  destruct (dict_get Var.eqb (domains st) x); exact I.
Qed.

Lemma nto_domain_remove (x : Var.t) (value : string) :
  never_times_out (domain_remove x value).
Proof.
  intros st. unfold settles, domain_remove.
  destruct (dict_get Var.eqb (domains st) x); [|exact I].
  destruct (set_mem value _); exact I.
Qed.

Lemma nto_bind {A B : Type} (m : M A) (f : A -> M B) :
  never_times_out m -> (forall a, never_times_out (f a)) ->
  never_times_out (bind m f).
Proof.
  intros Hm Hf st. specialize (Hm st). unfold settles, bind in *.
  destruct (m st) as [[a | e |] st1]; simpl in *; auto. apply Hf.
Qed.

Lemma nto_for_each {A : Type} (l : list A) (body : A -> M unit) :
  (forall x, never_times_out (body x)) -> never_times_out (for_each l body).
Proof.
  intros Hb. induction l as [|x l IH]; cbn [for_each].
  - apply nto_ret.
  - apply nto_bind; [apply Hb | intros _; exact IH].
Qed.

Lemma chars_match_settles (ov : option (nat * nat)) (wx wy : string) :
  chars_match ov wx wy <> OutOfFuel.
Proof.
  unfold chars_match, str_index. destruct ov as [[kx ky]|]; [|discriminate].
  destruct (String.get kx wx); [|discriminate].
  destruct (String.get ky wy); discriminate.
Qed.

Lemma find_support_settles (ov : option (nat * nat)) (val_x : string)
      (dy : list string) :
  find_support ov val_x dy <> OutOfFuel.
Proof.
  induction dy as [|val_y dy IH]; cbn [find_support]; [discriminate|].
  pose proof (chars_match_settles ov val_x val_y).
  destruct (chars_match ov val_x val_y) as [[|] | [] |];
    try discriminate; try exact IH; contradiction.
Qed.

Lemma nto_revise_scan ov y dx : never_times_out (revise_scan ov y dx).
Proof.
  induction dx as [|val_x dx IH]; cbn [revise_scan]; [apply nto_ret|].
  apply nto_bind; [apply nto_domain_of | intros dy].
  apply nto_bind; [apply nto_lift, find_support_settles | intros found].
  apply nto_bind; [exact IH | intros removed; apply nto_ret].
Qed.

Lemma nto_revise (cw : Crossword) (x y : Var.t) :
  never_times_out (revise cw x y).
Proof.
  unfold revise. destruct (overlap_of cw x y); [|apply nto_raise].
  apply nto_bind; [apply nto_domain_of | intros dx].
  apply nto_bind; [apply nto_revise_scan | intros removed].
  apply nto_bind; [|intros _; apply nto_ret].
  apply nto_for_each. intros v. apply nto_domain_remove.
Qed.

Lemma nto_enforce_node_consistency : never_times_out enforce_node_consistency.
Proof.
  intros st. unfold enforce_node_consistency.
  apply nto_for_each. intros v.
  apply nto_bind; [apply nto_domain_of | intros d].
  apply nto_for_each. intros w. apply nto_domain_remove.
Qed.

Lemma with_domain_size_le (st : State) (x : Var.t) (lx : loc)
      (f : string -> bool) :
  dict_get Var.eqb (domains st) x = Some lx ->
  heap_size (heap (with_domain st lx (filter f (dom st x))))
  <= heap_size (heap st).
Proof.
  intros Hlx. unfold dom. rewrite Hlx. simpl. apply heap_size_filter_le.
Qed.

Lemma with_domain_size_lt (st : State) (x : Var.t) (lx : loc)
      (f : string -> bool) :
  dict_get Var.eqb (domains st) x = Some lx ->
  forallb f (dom st x) = false ->
  heap_size (heap (with_domain st lx (filter f (dom st x))))
  < heap_size (heap st).
Proof.
  intros Hlx Hall. apply forallb_false_exists in Hall.
  destruct Hall as (w & Hw & Hf). unfold dom in *. rewrite Hlx in *. simpl.
  eapply heap_size_filter_lt; eassumption.
Qed.

Lemma requeued_length (cw : Crossword) (X : Var.t) :
  List.length (filter (fun potential_arc : arc => Var.eqb X (snd potential_arc))
                      (dict_keys (overlaps cw)))
  <= List.length (overlaps cw).
Proof.
  etransitivity; [apply filter_length_le|].
  unfold dict_keys. rewrite length_map. lia.
Qed.

Lemma ac3_loop_settles (cw : Crossword) (fuel : nat) :
  forall q st,
    List.length q + S (List.length (overlaps cw)) * heap_size (heap st) <= fuel ->
    settles (fun _ => True) (ac3_loop cw fuel q st).
Proof.
  induction fuel as [|fuel IH]; intros [|[X Y] rest] st Hfuel;
    try exact I; [simpl in Hfuel; lia|].
  cbn [ac3_loop].
  destruct (dict_get arc_eqb (overlaps cw) (X, Y)) as [[[kx ky]|]|] eqn:Ea;
    [| apply IH; simpl in Hfuel; lia | exact I].
  cbn [fst snd]. unfold bind at 1.
  pose proof (nto_revise cw X Y st) as Hnto. unfold settles in Hnto.
  destruct (revise cw X Y st) as [[rm | e |] s1] eqn:E1; simpl in Hnto;
    [| exact I | contradiction].
  destruct (revise_inv cw X Y kx ky rm st s1 Ea E1) as (lx & Hlx & Hs1 & Hrm).
  assert (Hlx1 : dict_get Var.eqb (domains s1) X = Some lx)
    by (subst s1; exact Hlx).
  rewrite (bind_run _ _ _ _ _ (domain_of_run _ _ _ Hlx1)).
  destruct (dom s1 X) as [|w d]; [exact I|].
  pose proof (requeued_length cw X) as Hreq.
  set (K := List.length (overlaps cw)) in *.
  destruct rm.
  - symmetry in Hrm. apply negb_true_iff in Hrm.
    pose proof (with_domain_size_lt st X lx _ Hlx Hrm) as Hlt.
    rewrite <- Hs1 in Hlt.
    apply IH. rewrite length_app. simpl in Hfuel.
    assert (S K * S (heap_size (heap s1)) <= S K * heap_size (heap st))
      by (apply Nat.mul_le_mono_l; lia).
    unfold arc in *. nia.
  - pose proof (with_domain_size_le st X lx
                  (supportedb kx ky (dom st Y)) Hlx) as Hle.
    rewrite <- Hs1 in Hle.
    apply IH. simpl in Hfuel.
    assert (S K * heap_size (heap s1) <= S K * heap_size (heap st))
      by (apply Nat.mul_le_mono_l; exact Hle).
    lia.
Qed.

(** [ac3] never runs out of the fuel its model gives it. *)
Lemma nto_ac3 (cw : Crossword) (arcs : option (list arc)) :
  never_times_out (ac3 cw arcs).
Proof.
  intros st. destruct arcs; [exact I|]. unfold ac3.
  apply ac3_loop_settles. unfold ac3_fuel, dict_keys. rewrite length_map. lia.
Qed.

Section SearchFuel.
Variable cw : Crossword.

Lemma neighbors_agree_settles a v w nbs :
  neighbors_agree cw a v w nbs <> OutOfFuel.
Proof.
  induction nbs as [|nb nbs IH]; cbn [neighbors_agree]; [discriminate|].
  destruct (dict_get Var.eqb a nb) as [[w'|]|]; try discriminate; [|exact IH].
  destruct (overlap_of cw v nb) as [[ov|]|]; try discriminate; [|exact IH].
  pose proof (chars_match_settles (Some ov) w w').
  destruct (chars_match (Some ov) w w') as [[|] | e |];
    try discriminate; [exact IH | contradiction].
Qed.

Lemma consistent_loop_settles a todo : consistent_loop cw a todo <> OutOfFuel.
Proof.
  induction todo as [|[v [w|]] todo IH]; cbn [consistent_loop];
    [discriminate | | exact IH].
  destruct (shares_word a v w); [discriminate|].
  destruct (negb (String.length w =? Var.length v)); [discriminate|].
  pose proof (neighbors_agree_settles a v w (neighbors cw v)).
  destruct (neighbors_agree cw a v w (neighbors cw v)) as [[|] | e |];
    try discriminate; [exact IH | contradiction].
Qed.

Lemma ruled_out_in_settles var nb value dn num :
  ruled_out_in cw var nb value dn num <> OutOfFuel.
Proof.
  revert num. induction dn as [|comp_value dn IH]; intros num;
    cbn [ruled_out_in]; [discriminate|].
  destruct (String.eqb comp_value value); [apply IH|].
  destruct (overlap_of cw var nb) as [ov|]; [|discriminate].
  pose proof (chars_match_settles ov value comp_value).
  destruct (chars_match ov value comp_value) as [[|] | [] |];
    try discriminate; try apply IH; contradiction.
Qed.

Lemma nto_num_ruled_out a var value nbs num :
  never_times_out (num_ruled_out cw a var value nbs num).
Proof.
  revert num. induction nbs as [|nb nbs IH]; intros num; cbn [num_ruled_out];
    [apply nto_ret|].
  destruct (dict_get Var.eqb a nb) as [[w|]|]; [apply IH | | apply nto_raise].
  apply nto_bind; [apply nto_domain_of | intros dn].
  apply nto_bind; [apply nto_lift, ruled_out_in_settles | intros n; apply IH].
Qed.

Lemma nto_elimination_counts a var values :
  never_times_out (elimination_counts cw a var values).
Proof.
  induction values as [|value values IH]; cbn [elimination_counts];
    [apply nto_ret|].
  apply nto_bind; [apply nto_num_ruled_out | intros n].
  apply nto_bind; [exact IH | intros counts; apply nto_ret].
Qed.

Lemma nto_order_domain_values var a :
  never_times_out (order_domain_values cw var a).
Proof.
  unfold order_domain_values.
  apply nto_bind; [apply nto_domain_of | intros d].
  apply nto_bind; [apply nto_elimination_counts | intros c; apply nto_ret].
Qed.

Lemma try_values_settles (rec : Assignment -> M (bool * Assignment))
      (n : nat) (var : Var.t) :
  (forall a st, NoDup (dict_keys a) -> a <> [] -> unassigned a < n ->
                settles (restores a) (rec a st)) ->
  forall values a st,
    NoDup (dict_keys a) -> dict_get Var.eqb a var = Some None ->
    unassigned a <= n ->
    settles (restores a) (try_values cw rec var values a st).
Proof.
  intros Hrec. induction values as [|value rest IH]; intros a st Hnd Hvar Hn.
  - unfold settles, restores. simpl. auto.
  - cbn [try_values]. unfold lift at 1, bind at 1.
    pose proof (consistent_loop_settles
                  (dict_set Var.eqb a var (Some value))
                  (dict_set Var.eqb a var (Some value))) as Hc.
    fold (consistent cw (dict_set Var.eqb a var (Some value))) in Hc.
    destruct (consistent cw (dict_set Var.eqb a var (Some value)))
      as [[|] | e |]; [| apply IH; assumption | exact I | contradiction].
    set (a1 := dict_set Var.eqb a var (Some value)).
    assert (Hun : unassigned a1 < n).
    { pose proof (unassigned_set a var value Hvar). fold a1 in H. lia. }
    pose proof (Hrec a1 st (dict_set_keys_NoDup a var _ Hnd)
                  (dict_set_nonempty a var _) Hun) as Hr.
    unfold bind at 1. unfold settles in Hr.
    destruct (rec a1 st) as [[r1 | e |] s2]; simpl in Hr;
      [| exact I | contradiction].
    destruct (fst r1) eqn:Hf.
    + unfold settles, restores. simpl. congruence.
    + rewrite (Hr Hf). unfold a1.
      rewrite (dict_set_restore _ a var (Some value) None Hvar).
      apply IH; assumption.
Qed.

Lemma backtrack_rec_settles (fuel : nat) :
  forall a st,
    NoDup (dict_keys a) -> a <> [] -> unassigned a < fuel ->
    settles (restores a) (backtrack_rec cw fuel a st).
Proof.
  induction fuel as [|fuel IH]; intros a st Hnd Hne Hun; [lia|].
  cbn [backtrack_rec]. unfold enter_backtrack at 1, bind at 1.
  replace (match a with [] => blank_assignment cw | _ :: _ => a end) with a
    by (destruct a; congruence).
  destruct (assignment_complete a) eqn:Hc.
  - unfold settles, restores. simpl. discriminate.
  - destruct (select_unassigned_variable a) as [var|] eqn:Hsel; [|exact I].
    pose proof (select_unassigned_key a var Hsel) as Hin.
    pose proof (In_dict_get_NoDup a var None Hnd Hin) as Hvar.
    unfold bind at 1.
    pose proof (nto_order_domain_values var a
                  (mkState (domains st) (heap st) (S (backtrack_calls st))))
      as Ho.
    unfold settles in Ho.
    destruct (order_domain_values cw var a _) as [[values | e |] s1];
      simpl in Ho; [| exact I | contradiction].
    apply (try_values_settles (backtrack_rec cw fuel) fuel var);
      [|assumption | assumption | lia].
    intros a' st' Hnd' Hne' Hun'. apply IH; assumption.
Qed.

(** [backtrack], started on the empty dictionary, never runs out of the
    fuel its model gives it. *)
Lemma nto_backtrack : never_times_out (backtrack cw []).
Proof.
  intros st. unfold backtrack. apply nto_bind; [|intros r; apply nto_ret].
  clear st. intros st. cbn [List.length Nat.add].
  destruct (blank_assignment cw) as [|kv a] eqn:Hb.
  - cbn [backtrack_rec]. unfold enter_backtrack at 1, bind at 1.
    rewrite Hb. exact I.
  - assert (E : backtrack_rec cw (S (List.length (variables cw))) [] st
                = backtrack_rec cw (S (List.length (variables cw)))
                    (blank_assignment cw) st).
    { cbn [backtrack_rec]. rewrite Hb. reflexivity. }
    rewrite E. eapply settles_weaken. apply backtrack_rec_settles.
    + apply blank_keys_NoDup.
    + rewrite Hb. discriminate.
    + pose proof (blank_unassigned cw). lia.
Qed.

(** [solve] ends by returning or by raising: the fuel is a device of the
    model only. *)
Lemma nto_solve : never_times_out (solve cw).
Proof.
  unfold solve.
  apply nto_bind; [apply nto_enforce_node_consistency | intros _].
  apply nto_bind; [apply nto_ac3 | intros _]. apply nto_backtrack.
Qed.
End SearchFuel.

(** ** The scenarios of section 8 of the specification *)

(** Two crossing slots of length 2, vocabulary AT, TO, OX: node
    consistency removes nothing, [ac3] removes OX across and AT down, and
    the search puts AT across and TO down. *)
Example scenario_2x2 :
  let st1 := final_state (enforce_node_consistency (init puzzle_2x2)) in
  let st2 := final_state (ac3 puzzle_2x2 None st1) in
  dom st1 across2 = ["AT"; "TO"; "OX"]%string
  /\ dom st1 down2 = ["AT"; "TO"; "OX"]%string
  /\ result (ac3 puzzle_2x2 None st1) = Return true
  /\ dom st2 across2 = ["AT"; "TO"]%string
  /\ dom st2 down2 = ["TO"; "OX"]%string
  /\ result (solve puzzle_2x2 (init puzzle_2x2))
     = Return (Some [(across2, Some "AT"%string); (down2, Some "TO"%string)]).
Proof. vm_compute. repeat split. Qed.

(** A single slot of length 3, vocabulary AB, CAT, DOG: [ac3] has nothing
    to do and the search returns CAT (AB, which node consistency left in
    the domain, is turned down by the consistency check). *)
Example scenario_single :
  let st1 := final_state (enforce_node_consistency (init puzzle_single)) in
  ac3 puzzle_single None st1 = (Return true, st1)
  /\ result (solve puzzle_single (init puzzle_single))
     = Return (Some [(across3, Some "CAT"%string)]).
Proof. vm_compute. repeat split. Qed.

(** Two crossing slots of length 3, vocabulary CAT, DOG: [ac3] empties a
    domain and [solve] returns [None]. *)
Example scenario_no_solution :
  let st1 := final_state (enforce_node_consistency (init puzzle_no_solution)) in
  result (ac3 puzzle_no_solution None st1) = Return false
  /\ result (solve puzzle_no_solution (init puzzle_no_solution)) = Return None.
Proof. vm_compute. repeat split. Qed.

(** * Further properties of the code *)

(** ** [enforce_node_consistency], [revise], [ac3]: pruning *)

(** X1 — what [enforce_node_consistency] does: on a creator whose domains
    are separate sets the call returns, [self.domains] maps the same
    variables to the same set objects, and a word is in a domain afterwards
    exactly when it was there and is not longer than the slot. *)
Theorem enforce_node_consistency_keeps_fitting (st : State) :
  no_alias st -> sets_ok st ->
  exists st',
    enforce_node_consistency st = (Return tt, st')
    /\ domains st' = domains st
    /\ forall v w, In w (dom st' v) <->
                   In w (dom st v) /\ String.length w <= Var.length v.
Proof.
  intros Hna Hso.
  destruct (enforce_node_consistency_run st Hna Hso)
    as (st' & E & Hd & _ & _ & Hdom).
  exists st'. split; [exact E|]. split; [exact Hd|].
  intros v w. rewrite Hdom, filter_In. unfold fits.
  rewrite negb_true_iff, Nat.ltb_ge. reflexivity.
Qed.

Lemma enforce_node_consistency_keeps_fitting_witness :
  exists st',
    enforce_node_consistency (init puzzle_apart) = (Return tt, st')
    /\ (In "AT"%string (dom st' across3) /\ ~ In "CAT"%string (dom st' far_down2)).
Proof.
  destruct (enforce_node_consistency_keeps_fitting (init puzzle_apart))
    as (st' & E & _ & Hdom).
  - apply init_no_alias.
  - apply init_sets_ok. vm_compute. repeat constructor; simpl; intuition discriminate.
  - exists st'. split; [exact E|]. split.
    + apply Hdom. vm_compute. split; [tauto | lia].
    + intros H. apply Hdom in H. vm_compute in H. lia.
Defined.





Lemma shrinks_domains (st st' : State) :
  shrinks st st' ->
  domains st' = domains st
  /\ forall v w, In w (dom st' v) -> In w (dom st v).
Proof.
  intros H. split; [apply H|]. intros v w. apply shrinks_incl. exact H.
Qed.

(** X3 — monotonic shrinkage: [enforce_node_consistency], [revise] and
    [ac3], however they end (by returning or by raising), leave
    [self.domains] mapping the same variables to the same set objects and
    add no word to any domain. *)
Theorem pruning_only_removes (cw : Crossword) :
  (forall st o st',
     enforce_node_consistency st = (o, st') ->
     domains st' = domains st
     /\ forall v w, In w (dom st' v) -> In w (dom st v))
  /\ (forall x y st o st',
        revise cw x y st = (o, st') ->
        domains st' = domains st
        /\ forall v w, In w (dom st' v) -> In w (dom st v))
  /\ (forall arcs st o st',
        ac3 cw arcs st = (o, st') ->
        domains st' = domains st
        /\ forall v w, In w (dom st' v) -> In w (dom st v)).
Proof.
  split; [|split].
  - intros st o st' H. apply shrinks_domains.
    eapply enforce_node_consistency_shrinks. exact H.
  - intros x y st o st' H. apply shrinks_domains.
    eapply revise_shrinks. exact H.
  - intros arcs st o st' H. apply shrinks_domains.
    eapply ac3_shrinks. exact H.
Qed.

(** ** [ac3]: what its result says, and that it returns *)

Lemma init_arcs_have_domains (cw : Crossword) :
  wf_crossword cw = true -> arcs_have_domains cw (init cw).
Proof.
  intros wf x y o Hov. destruct (wf_entry cw wf x y _ Hov) as (Hx & Hy & _).
  destruct (init_domain cw x Hx) as (lx & Hlx & _).
  destruct (init_domain cw y Hy) as (ly & Hly & _).
  split; [exists lx | exists ly]; assumption.
Qed.

(** X4 — when [ac3()] returns [True] on a creator whose domains are
    separate set objects, every arc with a defined overlap is consistent:
    each word left in the domain of [x] has a word in the domain of [y]
    with the same character at the overlap indices, and neither domain
    is empty. *)
Theorem ac3_true_arc_consistent (cw : Crossword) (st st' : State) :
  no_alias st ->
  ac3 cw None st = (Return true, st') ->
  forall x y kx ky,
    overlap_of cw x y = Some (Some (kx, ky)) ->
    (forall wx, In wx (dom st' x) ->
       exists wy, In wy (dom st' y)
                  /\ exists c, String.get kx wx = Some c
                               /\ String.get ky wy = Some c)
    /\ dom st' x <> [] /\ dom st' y <> [].
Proof.
  intros Hna H x y kx ky Hov. unfold ac3 in H.
  apply ac3_loop_sound in H; [|exact Hna | apply ac3_inv_initial].
  destruct (H x y kx ky Hov) as [[] | Hok].
  apply arc_ok_has_support. exact Hok.
Qed.

Lemma ac3_true_arc_consistent_witness :
  let st' := final_state (ac3 puzzle_cross3 None (init puzzle_cross3)) in
  (forall wx, In wx (dom st' across3) ->
     exists wy, In wy (dom st' down3)
                /\ exists c, String.get 0 wx = Some c
                             /\ String.get 2 wy = Some c)
  /\ dom st' across3 <> [] /\ dom st' down3 <> [].
Proof.
  intros st'.
  apply (ac3_true_arc_consistent puzzle_cross3 (init puzzle_cross3) st').
  - apply init_no_alias.
  - reflexivity.
  - reflexivity.
Defined.

(** X5 — when [ac3()] returns [False], the domain of the first variable of
    some arc with a defined overlap is empty. *)
Theorem ac3_false_empty_domain (cw : Crossword) (st st' : State) :
  ac3 cw None st = (Return false, st') ->
  exists x y o,
    overlap_of cw x y = Some (Some o)
    /\ (exists l, dict_get Var.eqb (domains st') x = Some l)
    /\ dom st' x = [].
Proof.
  intros H. unfold ac3 in H. apply ac3_loop_false in H.
  destruct H as (x & y & _ & [o Ho] & Hl & He).
  exists x, y, o. auto.
Qed.

Lemma ac3_false_empty_domain_witness :
  exists x y o,
    overlap_of puzzle_no_solution x y = Some (Some o)
    /\ (exists l,
          dict_get Var.eqb
            (domains (final_state (ac3 puzzle_no_solution None
                                       (init puzzle_no_solution)))) x = Some l)
    /\ dom (final_state (ac3 puzzle_no_solution None
                             (init puzzle_no_solution))) x = [].
Proof.
  apply (ac3_false_empty_domain puzzle_no_solution (init puzzle_no_solution)).
  reflexivity.
Defined.

(** X6 — [ac3()] returns: on a creator whose set objects hold no word
    twice and whose arcs with a defined overlap join variables that have a
    domain, the call ends by returning a boolean; it does not raise and the
    loop comes to an end. *)
Theorem ac3_returns (cw : Crossword) (st : State) :
  sets_ok st -> arcs_have_domains cw st ->
  exists b st', ac3 cw None st = (Return b, st').
Proof.
  intros Hso Harcs. apply ac3_terminates; assumption.
Qed.

Lemma ac3_returns_witness :
  exists b st', ac3 puzzle_2x2 None (init puzzle_2x2) = (Return b, st').
Proof.
  apply (ac3_returns puzzle_2x2 (init puzzle_2x2)).
  - apply init_sets_ok. apply nodup_words_NoDup. reflexivity.
  - apply init_arcs_have_domains. reflexivity.
Defined.

(** X7 — [ac3()] removes no word of a solution: on a well-formed puzzle,
    when every word of a satisfying assignment is in the domain of its
    variable, [ac3()] returns [True] and every word of that assignment is
    still in the domain of its variable. *)
Theorem ac3_keeps_solutions (cw : Crossword) (s : Assignment) (st : State) :
  wf_crossword cw = true -> satisfies cw s ->
  no_alias st -> sets_ok st -> arcs_have_domains cw st ->
  (forall v w, In v (variables cw) ->
               dict_get Var.eqb s v = Some (Some w) -> In w (dom st v)) ->
  exists st',
    ac3 cw None st = (Return true, st')
    /\ forall v w, In v (variables cw) ->
                   dict_get Var.eqb s v = Some (Some w) -> In w (dom st' v).
Proof.
  intros wf Hsat Hna Hso Harcs Hs.
  exact (ac3_succeeds cw wf s Hsat st Hna Hso Harcs Hs).
Qed.

Lemma ac3_keeps_solutions_witness :
  exists st',
    ac3 puzzle_2x2 None (init puzzle_2x2) = (Return true, st')
    /\ forall v w, In v (variables puzzle_2x2) ->
         dict_get Var.eqb [(across2, Some "AT"%string); (down2, Some "TO"%string)] v
         = Some (Some w) ->
         In w (dom st' v).
Proof.
  apply (ac3_keeps_solutions puzzle_2x2
           [(across2, Some "AT"%string); (down2, Some "TO"%string)]
           (init puzzle_2x2)).
  - reflexivity.
  - apply satisfiesb_sound. reflexivity.
  - apply init_no_alias.
  - apply init_sets_ok. apply nodup_words_NoDup. reflexivity.
  - apply init_arcs_have_domains. reflexivity.
  - intros v w Hv Hw. rewrite (init_dom puzzle_2x2 v Hv).
    destruct Hv as [<- | [<- | []]]; vm_compute in Hw; injection Hw as <-;
      vm_compute; tauto.
Defined.

(** ** [revise]: a second call, and the pairs without an overlap *)


Lemma forallb_filter_same {A : Type} (f : A -> bool) (l : list A) :
  forallb f (filter f l) = true.
Proof.
  apply forallb_forall. intros x Hx. apply filter_In in Hx. apply Hx.
Qed.

(** X8 — [revise] is idempotent: for distinct variables [x] and [y] with a
    defined overlap, on a creator whose domains are separate set objects, a
    second call of [revise(x, y)] right after a first one returns [False]
    and changes nothing. *)
Theorem revise_idempotent (cw : Crossword) (st st1 : State) (x y : Var.t)
        (kx ky : nat) (lx ly : loc) (b : bool) :
  overlap_of cw x y = Some (Some (kx, ky)) ->
  dict_get Var.eqb (domains st) x = Some lx ->
  dict_get Var.eqb (domains st) y = Some ly ->
  NoDup (dom st x) -> no_alias st -> x <> y ->
  revise cw x y st = (Return b, st1) ->
  revise cw x y st1 = (Return false, st1).
Proof.
  intros Hov Hlx Hly Hnd Hna Hne H.
  rewrite (revise_run cw x y kx ky lx st Hov Hlx
             (or_intror (ex_intro _ ly Hly)) Hnd) in H.
  injection H as _ <-.
  set (sup := supportedb kx ky (dom st y)).
  set (st1 := with_domain st lx (filter sup (dom st x))).
  assert (Hx1 : dom st1 x = filter sup (dom st x))
    by (apply dom_with_domain_same; exact Hlx).
  assert (Hy1 : dom st1 y = dom st y).
  { apply (dom_with_domain_other st x y lx); [exact Hna | exact Hlx |].
    intros E. apply Hne. symmetry. exact E. }
  rewrite (revise_run cw x y kx ky lx st1 Hov Hlx
             (or_intror (ex_intro _ ly Hly))).
  - rewrite Hy1, Hx1. fold sup. rewrite forallb_filter_same, filter_idem.
    unfold st1, with_domain. simpl. rewrite heap_set_set. reflexivity.
  - rewrite Hx1. apply NoDup_filter. exact Hnd.
Qed.

Lemma revise_idempotent_witness :
  let st1 := final_state (revise puzzle_2x2 across2 down2 (init puzzle_2x2)) in
  revise puzzle_2x2 across2 down2 st1 = (Return false, st1).
Proof.
  intros st1.
  apply (revise_idempotent puzzle_2x2 (init puzzle_2x2) st1 across2 down2
           1 0 1 2 true).
  - reflexivity.
  - reflexivity.
  - reflexivity.
  - vm_compute. repeat constructor; simpl; intuition discriminate.
  - apply init_no_alias.
  - discriminate.
  - reflexivity.
Defined.



(** ** [select_unassigned_variable] and [consistent] *)

(** X10 — [select_unassigned_variable] returns the first key of the
    dictionary, in iteration order, whose value is [None]; it returns
    nothing ([None], by falling off the end) exactly when
    [assignment_complete] holds of the dictionary. *)
Theorem select_unassigned_first (a : Assignment) :
  (forall var,
     select_unassigned_variable a = Some var <->
     exists a1 a2,
       a = a1 ++ (var, None) :: a2
       /\ forall kv, In kv a1 -> snd kv <> None)
  /\ (select_unassigned_variable a = None <-> assignment_complete a = true).
Proof.
  split.
  - intros var. split.
    + intros H. destruct (select_unassigned_split a var H)
        as (a1 & a2 & Ha & Ha1).
      exists a1, a2. split; [exact Ha|].
      intros kv Hkv. destruct (Ha1 kv Hkv) as [w ->]. discriminate.
    + intros (a1 & a2 & -> & Ha1).
      induction a1 as [|[v [w|]] a1 IH]; simpl.
      * reflexivity.
      * apply IH. intros kv Hkv. apply Ha1. right. exact Hkv.
      * exfalso. apply (Ha1 (v, None)); [left|]; reflexivity.
  - split; [apply select_unassigned_complete|].
    induction a as [|[v [w|]] a IH]; simpl; intros H;
      [reflexivity | apply IH; exact H | discriminate].
Qed.

Lemma neighbors_agree_holds (cw : Crossword) (a : Assignment) (v : Var.t)
      (w : string) (nbs : list Var.t) :
  (forall nb, In nb nbs -> exists o, dict_get Var.eqb a nb = Some o) ->
  (forall nb w', In nb nbs -> dict_get Var.eqb a nb = Some (Some w') ->
     exists kx ky, overlap_of cw v nb = Some (Some (kx, ky))
                   /\ agree kx ky w w') ->
  neighbors_agree cw a v w nbs = Return true.
Proof.
  induction nbs as [|nb nbs IH]; intros Hkeys Hagree; [reflexivity|].
  cbn [neighbors_agree].
  assert (IH' : neighbors_agree cw a v w nbs = Return true).
  { apply IH.
    - intros nb' H'. apply Hkeys. right. exact H'.
    - intros nb' w' H'. apply Hagree. right. exact H'. }
  destruct (Hkeys nb (or_introl eq_refl)) as [[w'|] Ho]; rewrite Ho;
    [|exact IH'].
  destruct (Hagree nb w' (or_introl eq_refl) Ho) as (kx & ky & Hov & Hag).
  rewrite Hov, chars_match_Some. destruct Hag as (c & -> & ->).
  rewrite Ascii.eqb_refl. exact IH'.
Qed.

Lemma consistent_loop_holds (cw : Crossword) (a todo : Assignment) :
  (forall v w, In (v, Some w) todo ->
     shares_word a v w = false
     /\ String.length w = Var.length v
     /\ neighbors_agree cw a v w (neighbors cw v) = Return true) ->
  consistent_loop cw a todo = Return true.
Proof.
  induction todo as [|[v [w|]] todo IH]; intros H; cbn [consistent_loop].
  - reflexivity.
  - destruct (H v w (or_introl eq_refl)) as (-> & Hlen & ->).
    rewrite Hlen, Nat.eqb_refl. simpl.
    apply IH. intros v' w' H'. apply H. right. exact H'.
  - apply IH. intros v' w' H'. apply H. right. exact H'.
Qed.

(** X11 — what [consistent] checks: on a well-formed puzzle, for a
    dictionary that has every variable of the puzzle among its keys,
    [consistent] returns [True] exactly when distinct variables hold
    distinct words, every word has the length of its slot, and the words
    of two variables with a defined overlap agree at the overlap indices
    (both characters exist and are equal).  Entries holding [None] are
    passed over. *)
Theorem consistent_iff_constraints (cw : Crossword) (a : Assignment) :
  wf_crossword cw = true ->
  NoDup (dict_keys a) ->
  (forall v, In v (variables cw) -> In v (dict_keys a)) ->
  (consistent cw a = Return true <->
   (forall v1 v2 w1 w2,
      dict_get Var.eqb a v1 = Some (Some w1) ->
      dict_get Var.eqb a v2 = Some (Some w2) -> v1 <> v2 -> w1 <> w2)
   /\ (forall v w, dict_get Var.eqb a v = Some (Some w) ->
                   String.length w = Var.length v)
   /\ (forall x y kx ky wx wy,
         overlap_of cw x y = Some (Some (kx, ky)) ->
         dict_get Var.eqb a x = Some (Some wx) ->
         dict_get Var.eqb a y = Some (Some wy) ->
         exists c, String.get kx wx = Some c /\ String.get ky wy = Some c)).
Proof.
  intros wf Hnd Hkeys. split.
  - intros Hc. destruct (consistent_true cw a Hc) as (Hd & Hl & Hag).
    split; [exact Hd|]. split; [exact Hl|].
    intros x y kx ky wx wy Hov Hx Hy.
    apply (Hag x y kx ky wx wy); try assumption.
    apply (neighbors_spec cw wf). exists kx, ky. exact Hov.
  - intros (Hd & Hl & Hag). unfold consistent.
    apply consistent_loop_holds. intros v w Hin.
    pose proof (In_dict_get_NoDup a v (Some w) Hnd Hin) as Hv.
    split; [|split].
    + unfold shares_word.
      destruct (existsb _ a) eqn:E; [|reflexivity]. exfalso.
      apply existsb_exists in E. destruct E as ([v' o'] & Hin' & E).
      simpl in E. apply andb_true_iff in E. destruct E as [Hne E].
      destruct o' as [w'|]; [|discriminate].
      apply String.eqb_eq in E. subst w'.
      apply negb_true_iff, Var_eqb_neq in Hne.
      pose proof (In_dict_get_NoDup a v' (Some w) Hnd Hin') as Hv'.
      exact (Hd v v' w w Hv Hv' Hne eq_refl).
    + apply Hl. exact Hv.
    + apply neighbors_agree_holds.
      * intros nb Hnb. apply (dict_key_get _ Var_eqb_eq). apply Hkeys.
        apply (neighbors_variables cw v nb Hnb).
      * intros nb w' Hnb Hw'.
        apply (neighbors_spec cw wf) in Hnb. destruct Hnb as (kx & ky & Hov).
        exists kx, ky. split; [exact Hov|].
        exact (Hag v nb kx ky w w' Hov Hv Hw').
Qed.

Lemma consistent_iff_constraints_witness :
  consistent puzzle_2x2
    [(across2, Some "AT"%string); (down2, Some "TO"%string)] = Return true
  /\ consistent puzzle_2x2
       [(across2, Some "TO"%string); (down2, Some "TO"%string)] <> Return true.
Proof.
  split.
  - apply (consistent_iff_constraints puzzle_2x2
             [(across2, Some "AT"%string); (down2, Some "TO"%string)]).
    + reflexivity.
    + vm_compute. repeat constructor; simpl; intuition discriminate.
    + intros v [<- | [<- | []]]; vm_compute; tauto.
    + split; [|split].
      * intros v1 v2 w1 w2 H1 H2 Hne. simpl in H1, H2.
        destruct (Var.eqb v1 across2) eqn:E1; destruct (Var.eqb v2 across2) eqn:E2.
        -- apply Var_eqb_eq in E1, E2. congruence.
        -- destruct (Var.eqb v2 down2); [|discriminate]. congruence.
        -- destruct (Var.eqb v1 down2); [|discriminate]. congruence.
        -- destruct (Var.eqb v1 down2) eqn:E3; [|discriminate].
           destruct (Var.eqb v2 down2) eqn:E4; [|discriminate].
           apply Var_eqb_eq in E3, E4. congruence.
      * intros v w H. simpl in H.
        destruct (Var.eqb v across2) eqn:E1.
        -- apply Var_eqb_eq in E1. subst v. injection H as <-. reflexivity.
        -- destruct (Var.eqb v down2) eqn:E2; [|discriminate].
           apply Var_eqb_eq in E2. subst v. injection H as <-. reflexivity.
      * intros x y kx ky wx wy Hov Hx Hy.
        apply (dict_get_In _ arc_eqb_eq) in Hov. simpl in Hov.
        destruct Hov as [Hov | [Hov | []]]; injection Hov as <- <- <- <-;
          vm_compute in Hx, Hy; injection Hx as <-; injection Hy as <-;
          eexists; split; reflexivity.
  - vm_compute. discriminate.
Defined.

(** ** [backtrack]: the domains, the dictionary, termination *)

(** X12 — the search only reads the domains: [backtrack], on any
    assignment and however it ends, leaves [self.domains] and every set
    object as they were. *)
Theorem backtrack_reads_only (cw : Crossword) (a : Assignment)
        (st st' : State) (o : outcome (option Assignment)) :
  backtrack cw a st = (o, st') ->
  domains st' = domains st
  /\ heap st' = heap st
  /\ forall v, dom st' v = dom st v.
Proof.
  intros H.
  assert (Hs : same_store st st').
  { unfold backtrack, bind in H.
    destruct (backtrack_rec cw _ a st) as [[r | e |] s1] eqn:E;
      apply backtrack_rec_search_rel in E; injection H as _ <-; apply E. }
  destruct Hs as [Hd Hh]. split; [exact Hd|]. split; [exact Hh|].
  intros v. unfold dom. rewrite Hd, Hh. reflexivity.
Qed.

Lemma backtrack_reads_only_witness :
  dom (final_state (backtrack puzzle_2x2 [] (init puzzle_2x2))) across2
  = dom (init puzzle_2x2) across2.
Proof.
  apply (backtrack_reads_only puzzle_2x2 [] (init puzzle_2x2)
           (final_state (backtrack puzzle_2x2 [] (init puzzle_2x2)))
           (result (backtrack puzzle_2x2 [] (init puzzle_2x2)))).
  vm_compute. reflexivity.
Defined.

(** X13 — where the words of a found assignment come from: when
    [backtrack], started from the empty assignment, returns an assignment,
    its keys are the variables of the puzzle and nothing else, no entry is
    [None], and every word is in the domain of its variable. *)
Theorem backtrack_result_from_domains (cw : Crossword) (st st' : State)
        (a : Assignment) :
  backtrack cw [] st = (Return (Some a), st') ->
  (forall v, In v (dict_keys a) <-> In v (variables cw))
  /\ NoDup (dict_keys a)
  /\ forall v o, In (v, o) a -> exists w, o = Some w /\ In w (dom st v).
Proof.
  intros H. apply backtrack_inv in H. destruct H as (r & Hr & Hres).
  destruct (fst r) eqn:Hf; [|discriminate]. injection Hres as ->.
  destruct (backtrack_rec_sound cw st _ _ _ _ _ (same_store_refl st) Hr)
    as (Hk & Hvals & Hfound).
  simpl in Hk, Hvals, Hfound. destruct (Hfound Hf) as [Hc _].
  split; [|split].
  - intros v. rewrite Hk. apply blank_key.
  - rewrite Hk. apply blank_keys_NoDup.
  - intros v o Hin.
    unfold assignment_complete in Hc. rewrite forallb_forall in Hc.
    specialize (Hc _ Hin). simpl in Hc.
    destruct o as [w|]; [|discriminate]. exists w. split; [reflexivity|].
    destruct (Hvals v w Hin) as [Hb | Hw]; [|exact Hw].
    apply blank_values in Hb. discriminate.
Qed.

Lemma backtrack_result_from_domains_witness :
  exists w,
    Some "TO"%string = Some w
    /\ In w (dom (final_state
                    ((enforce_node_consistency ;;; ac3 puzzle_2x2 None)
                       (init puzzle_2x2))) down2).
Proof.
  destruct (backtrack_result_from_domains puzzle_2x2
              (final_state ((enforce_node_consistency ;;; ac3 puzzle_2x2 None)
                              (init puzzle_2x2)))
              (final_state (solve puzzle_2x2 (init puzzle_2x2)))
              [(across2, Some "AT"%string); (down2, Some "TO"%string)])
    as (_ & _ & Hwords).
  - vm_compute. reflexivity.
  - apply (Hwords down2 (Some "TO"%string)). right. left. reflexivity.
Defined.

Lemma unassigned_le_length (a : Assignment) : unassigned a <= List.length a.
Proof. unfold unassigned. apply filter_length_le. Qed.




(** X15 — termination: whatever the creator holds, [revise],
    [enforce_node_consistency], [ac3] (whose loop runs at most
    [ac3_fuel] times: every revision that puts arcs back has removed a
    word), [backtrack] on a dictionary and [solve] come to an end, by
    returning or by raising. *)
Theorem calls_terminate (cw : Crossword) (st : State) :
  (forall x y, fst (revise cw x y st) <> OutOfFuel)
  /\ fst (enforce_node_consistency st) <> OutOfFuel
  /\ (forall arcs, fst (ac3 cw arcs st) <> OutOfFuel)
  /\ (forall a, NoDup (dict_keys a) -> fst (backtrack cw a st) <> OutOfFuel)
  /\ fst (solve cw st) <> OutOfFuel.
Proof.
  assert (Hs : forall (A : Type) (m : M A),
            never_times_out m -> fst (m st) <> OutOfFuel).
  { intros A m Hm. specialize (Hm st). unfold settles in Hm.
    intros E. rewrite E in Hm. exact Hm. }
  split; [|split; [|split; [|split]]].
  - intros x y. apply Hs, nto_revise.
  - apply Hs, nto_enforce_node_consistency.
  - intros arcs. apply Hs, nto_ac3.
  - intros a Hnd. destruct a as [|kv a]; [apply Hs, nto_backtrack|].
    unfold backtrack, bind.
    pose proof (backtrack_rec_settles cw
                  (S (List.length (kv :: a) + List.length (variables cw)))
                  (kv :: a) st Hnd ltac:(discriminate)
                  ltac:(pose proof (unassigned_le_length (kv :: a)); lia)) as H.
    unfold settles in H.
    destruct (backtrack_rec cw _ (kv :: a) st) as [[r | e |] s1];
      simpl in *; [discriminate | discriminate | contradiction].
  - apply Hs, nto_solve.
Qed.

(** ** [solve]: what its result says *)

(** The search after a failed propagation: some domain is empty, and on a
    puzzle whose table is listed variable by variable the search comes to
    the variable of that domain before it reads a word that is too short
    for an overlap index; it returns [None]. *)
Lemma backtrack_after_ac3_false (cw : Crossword) (st2 : State) :
  wf_crossword cw = true ->
  table_in_order cw = true ->
  ac3 cw None (final_state (enforce_node_consistency (init cw)))
  = (Return false, st2) ->
  exists st3, backtrack cw [] st2 = (Return None, st3).
Proof.
  intros wf Hord E2.
  unfold table_in_order in Hord. apply andb_true_iff in Hord.
  destruct Hord as [Hnd Hkeys].
  apply nodup_vars_NoDup in Hnd. apply arcs_eqb_eq in Hkeys.
  (* node consistency *)
  destruct (enforce_node_consistency_run (init cw) (init_no_alias cw)
              (init_sets_ok cw (wf_words cw wf)))
    as (st1 & E1 & Hd1 & _ & _ & _).
  rewrite E1 in E2. unfold final_state in E2. cbn [snd] in E2.
  pose proof (ac3_shrinks cw None st1 _ _ E2) as Hshr.
  assert (Hentries : forall v, In v (variables cw) ->
            exists l, dict_get Var.eqb (domains st2) v = Some l).
  { intros v Hv. destruct Hshr as (Hd2 & _). rewrite Hd2, Hd1.
    destruct (init_domain cw v Hv) as (l & Hl & _). exists l. exact Hl. }
  (* what the failed propagation leaves *)
  pose proof E2 as E2'. unfold ac3 in E2'.
  destruct (ac3_loop_false_prefix cw _ _ _ _ [] (dict_keys (overlaps cw)) []
              eq_refl (eq_sym (app_nil_r _)) ltac:(intros a []) E2')
    as (X & Y & done & todo & Hempty & [o Hov] & Hsplit & Hdone & Hhead).
  destruct (wf_entry cw wf X Y _ Hov) as (HX & _).
  destruct (in_split X (variables cw) HX) as (l1 & l2 & Hvars).
  assert (HXl1 : ~ In X l1).
  { rewrite Hvars in Hnd. apply NoDup_remove_2 in Hnd.
    intros H. apply Hnd. apply in_or_app. left. exact H. }
  assert (Hindexed : forall x y kx ky w,
            In x l1 -> overlap_of cw x y = Some (Some (kx, ky)) ->
            In w (dom st2 x) -> String.get kx w <> None).
  { intros x y kx ky w Hx Hxy Hw.
    apply (Hdone (x, y)) with (ky := ky); [|exact Hxy | exact Hw].
    pose proof (overlap_of_key cw x y _ Hxy) as Hkey.
    destruct Hhead as [-> | [t ->]].
    - rewrite app_nil_r in Hsplit. rewrite <- Hsplit. exact Hkey.
    - rewrite Hkeys in Hsplit, Hkey.
      destruct (product_arcs_cut (variables cw) l1 X l2 Hvars)
        as (front & behind & Hprod & Hfront & Hbehind).
      rewrite Hprod in Hsplit, Hkey.
      apply (prefix_in_done _ _ _ _ _ Hsplit).
      + intros H. apply Hfront in H. contradiction.
      + apply in_app_or in Hkey. destruct Hkey as [Hkey | Hkey]; [exact Hkey|].
        exfalso. apply Hbehind in Hkey. simpl in Hkey.
        rewrite Hvars in Hnd. clear - Hnd Hx Hkey.
        induction l1 as [|k l1 IH]; [contradiction|].
        simpl in Hnd. inversion Hnd as [|? ? Hk Hnd']; subst.
        destruct Hx as [-> | Hx]; [|apply IH; assumption].
        apply Hk. apply in_or_app. right. exact Hkey. }
  (* the search *)
  destruct (backtrack_root_total cw wf st2 Hentries (fun v => In v l1))
    with (st := st2) as (r & st3 & Hr & _).
  { intros x y kx ky w Hx Hxy Hw. eapply Hindexed; eassumption. }
  { intros a var Hg Hsel.
    destruct (select_unassigned_split a var Hsel) as (a1 & a2 & Ha & Ha1).
    assert (Hka : dict_keys a = variables cw).
    { destruct Hg as [Hk _]. rewrite Hk. apply blank_keys_eq. exact Hnd. }
    unfold dict_keys in Hka. rewrite Ha, map_app in Hka. simpl in Hka.
    destruct (prefix_compare (map fst a1) (map fst a2) l1 l2 var X) as [H | ->].
    - rewrite Hka. exact Hnd.
    - rewrite Hka. exact Hvars.
    - intros k Hk. apply in_map_iff in Hk. destruct Hk as ([k' o'] & <- & Hin).
      destruct (Ha1 _ Hin) as [w Hw]. simpl in Hw. subst o'.
      destruct Hg as [_ Hvals]. apply (Hvals k' w).
      rewrite Ha. apply in_or_app. left. exact Hin.
    - left. exact H.
    - right. exact Hempty. }
  { apply same_store_refl. }
  assert (Hf : fst r = false).
  { destruct (fst r) eqn:Hf; [|reflexivity]. exfalso.
    destruct (backtrack_rec_sound cw st2 _ _ _ _ _ (same_store_refl st2) Hr)
      as (Hk & Hvals & Hfound).
    simpl in Hk, Hvals. destruct (Hfound Hf) as [Hc _].
    assert (Hin : In X (dict_keys (snd r)))
      by (rewrite Hk; apply blank_key; exact HX).
    apply (dict_key_get _ Var_eqb_eq) in Hin. destruct Hin as [ox Hox].
    destruct (complete_get _ _ _ Hc Hox) as [w ->].
    apply (dict_get_In _ Var_eqb_eq) in Hox.
    destruct (Hvals X w Hox) as [Hb | Hw].
    - apply blank_values in Hb. discriminate.
    - rewrite Hempty in Hw. contradiction. }
  assert (Hbt : backtrack cw [] st2 = (Return None, st3)).
  { unfold backtrack. cbn [List.length Nat.add].
    rewrite (bind_run _ _ _ _ _ Hr). rewrite Hf. reflexivity. }
  exists st3. exact Hbt.
Qed.

Lemma solve_inv (cw : Crossword) (st : State) (res : option Assignment)
      (st' : State) :
  solve cw st = (Return res, st') ->
  exists st1 b st2,
    enforce_node_consistency st = (Return tt, st1)
    /\ ac3 cw None st1 = (Return b, st2)
    /\ backtrack cw [] st2 = (Return res, st').
Proof.
  unfold solve. intros H. inv_bind H as u st1 E1. inv_bind H as b st2 E2.
  destruct u. exists st1, b, st2. auto.
Qed.

(** X16 — soundness of [solve]: on a well-formed puzzle, an assignment
    returned by [solve] on the freshly built creator is a solution: every
    variable holds a word of the vocabulary of the length of its slot,
    distinct variables hold distinct words, and the words of two variables
    with a defined overlap agree at the overlap indices. *)
Theorem solve_sound (cw : Crossword) (a : Assignment) (st' : State) :
  wf_crossword cw = true ->
  solve cw (init cw) = (Return (Some a), st') ->
  satisfies cw a.
Proof.
  intros wf H. apply solve_inv in H.
  destruct H as (st1 & b & st2 & E1 & E2 & E3).
  destruct (enforce_node_consistency_run (init cw) (init_no_alias cw)
              (init_sets_ok cw (wf_words cw wf)))
    as (st1' & E1' & _ & _ & _ & Hdom1).
  rewrite E1 in E1'. injection E1' as <-.
  pose proof (ac3_shrinks cw None st1 _ _ E2) as Hshr.
  apply backtrack_inv in E3. destruct E3 as (r & Hr & Hres).
  destruct (fst r) eqn:Hf; [|discriminate]. injection Hres as ->.
  destruct (backtrack_rec_sound cw st2 _ _ _ _ _ (same_store_refl st2) Hr)
    as (Hk & Hvals & Hfound).
  simpl in Hk, Hvals, Hfound. destruct (Hfound Hf) as [Hc Hcons].
  assert (Hcons' : consistent cw (snd r) = Return true).
  { destruct Hcons as [-> | Hcons]; [apply consistent_blank | exact Hcons]. }
  destruct (consistent_true cw (snd r) Hcons') as (Hdistinct & Hlen & Hagree).
  split; [|split].
  - intros v Hv.
    assert (Hin : In v (dict_keys (snd r)))
      by (rewrite Hk; apply blank_key; exact Hv).
    apply (dict_key_get _ Var_eqb_eq) in Hin. destruct Hin as [o Ho].
    destruct (complete_get _ _ _ Hc Ho) as [w ->]. exists w.
    split; [exact Ho|]. split; [|apply Hlen; exact Ho].
    apply (dict_get_In _ Var_eqb_eq) in Ho.
    destruct (Hvals v w Ho) as [Hb | Hw].
    + apply blank_values in Hb. discriminate.
    + apply (shrinks_incl st1 st2 v w Hshr) in Hw.
      rewrite Hdom1 in Hw. apply filter_In in Hw. destruct Hw as [Hw _].
      rewrite (init_dom cw v Hv) in Hw. exact Hw.
  - intros v1 v2 w1 w2 _ _ Hne H1 H2. eapply Hdistinct; eassumption.
  - intros x y kx ky wx wy Hov Hx Hy.
    eapply Hagree; try eassumption.
    apply (neighbors_spec cw wf). exists kx, ky. exact Hov.
Qed.

Lemma solve_sound_witness :
  satisfies puzzle_cross3
    [(across3, Some "CAT"%string); (down3, Some "DOC"%string)].
Proof.
  apply (solve_sound puzzle_cross3 _
           (final_state (solve puzzle_cross3 (init puzzle_cross3)))).
  - reflexivity.
  - vm_compute. reflexivity.
Defined.

(** X17 — [solve] decides the puzzle: on a well-formed puzzle whose
    overlap table is listed variable by variable, [solve] on the freshly
    built creator returns (it does not raise), and when it returns [None]
    no assignment satisfies the constraints of the puzzle. *)
Theorem solve_decides (cw : Crossword) :
  wf_crossword cw = true ->
  table_in_order cw = true ->
  exists res st',
    solve cw (init cw) = (Return res, st')
    /\ (res = None -> forall s, ~ satisfies cw s).
Proof.
  intros wf Hord.
  set (st0 := init cw).
  pose proof (init_no_alias cw) as Hna0. fold st0 in Hna0.
  pose proof (init_sets_ok cw (wf_words cw wf)) as Hso0. fold st0 in Hso0.
  destruct (enforce_node_consistency_run st0 Hna0 Hso0)
    as (st1 & E1 & Hd1 & _ & Hso1 & Hdom1).
  assert (Hna1 : no_alias st1) by (unfold no_alias; rewrite Hd1; exact Hna0).
  assert (Hentries1 : forall v, In v (variables cw) ->
            exists l, dict_get Var.eqb (domains st1) v = Some l).
  { intros v Hv. rewrite Hd1. destruct (init_domain cw v Hv) as (l & Hl & _).
    exists l. exact Hl. }
  assert (Harcs1 : arcs_have_domains cw st1).
  { intros x y o Hov. destruct (wf_entry cw wf x y _ Hov) as (Hx & Hy & _).
    split; apply Hentries1; assumption. }
  assert (Hs1 : forall s, satisfies cw s -> holds_solution cw s st1).
  { intros s Hsat v w Hv Hsv. destruct Hsat as (Hall & _).
    destruct (Hall v Hv) as (w0 & Hw0 & Hin & Hlen).
    rewrite Hsv in Hw0. injection Hw0 as <-.
    rewrite Hdom1. apply filter_In. split.
    - unfold st0. rewrite (init_dom cw v Hv). exact Hin.
    - apply fits_exact. exact Hlen. }
  destruct (ac3_terminates cw st1 Hso1 Harcs1) as (b & st2 & E2).
  destruct b.
  - (* the propagation succeeded *)
    pose proof (ac3_shrinks cw None st1 _ _ E2) as Hshr.
    assert (Hd2 : domains st2 = domains st1) by apply Hshr.
    assert (Hinv : ac3_inv cw [] st2).
    { unfold ac3 in E2. eapply ac3_loop_sound; [exact Hna1 | | exact E2].
      apply ac3_inv_initial. }
    destruct (backtrack_root_total cw wf st2
                ltac:(intros v Hv; rewrite Hd2; apply Hentries1; exact Hv)
                (fun v => In v (variables cw))) with (st := st2)
      as (r & st3 & Hr & Hfind).
    { intros x y kx ky w _ Hov Hw.
      destruct (Hinv x y kx ky Hov) as [[] | Hok].
      eapply arc_ok_index; eassumption. }
    { intros a var Hg Hsel. left.
      apply select_unassigned_key in Hsel.
      destruct Hg as [Hk _]. apply blank_key. rewrite <- Hk.
      unfold dict_keys. apply in_map_iff. exists (var, None). auto. }
    { apply same_store_refl. }
    exists (if fst r then Some (snd r) else None), st3. split.
    + unfold solve. rewrite (bind_run _ _ _ _ _ E1).
      rewrite (bind_run _ _ _ _ _ E2). unfold backtrack.
      cbn [List.length Nat.add]. rewrite (bind_run _ _ _ _ _ Hr).
      reflexivity.
    + intros Hnone s Hsat.
      assert (Hf : fst r = true).
      { apply (Hfind s). split; [exact Hsat|].
        unfold ac3 in E2.
        exact (ac3_loop_keeps_solution cw wf s Hsat _ _ _ _ _ Hna1
                 (Hs1 s Hsat) E2). }
      rewrite Hf in Hnone. discriminate.
  - (* the propagation failed *)
    assert (E2' : ac3 cw None (final_state (enforce_node_consistency (init cw)))
                  = (Return false, st2)).
    { fold st0. rewrite E1. exact E2. }
    destruct (backtrack_after_ac3_false cw st2 wf Hord E2') as (st3 & Hbt).
    exists None, st3. split.
    + unfold solve. rewrite (bind_run _ _ _ _ _ E1).
      rewrite (bind_run _ _ _ _ _ E2). exact Hbt.
    + intros _ s Hsat.
      destruct (ac3_succeeds cw wf s Hsat st1 Hna1 Hso1 Harcs1 (Hs1 s Hsat))
        as (st2' & E & _).
      rewrite E in E2. discriminate.
Qed.

Lemma solve_decides_witness :
  ~ satisfies puzzle_no_solution
      [(across3, Some "CAT"%string); (down3, Some "DOG"%string)].
Proof.
  destruct (solve_decides puzzle_no_solution) as (res & st' & Hsolve & Hnone).
  - reflexivity.
  - reflexivity.
  - apply Hnone.
    assert (E : fst (solve puzzle_no_solution (init puzzle_no_solution))
                = Return None) by (vm_compute; reflexivity).
    rewrite Hsolve in E. simpl in E. congruence.
Defined.

(** ** [order_domain_values]: the order *)

Lemma insert_by_Permutation {A : Type} (key : A -> nat) (x : A) (l : list A) :
  Permutation (insert_by key x l) (x :: l).
Proof.
  induction l as [|y l IH]; simpl; [reflexivity|].
  destruct (key x <=? key y); [reflexivity|].
  rewrite IH. apply perm_swap.
Qed.

Lemma sorted_by_Permutation {A : Type} (key : A -> nat) (l : list A) :
  Permutation (sorted_by key l) l.
Proof.
  unfold sorted_by. induction l as [|x l IH]; simpl; [reflexivity|].
  rewrite insert_by_Permutation. constructor. exact IH.
Qed.

Lemma insert_by_sorted {A : Type} (key : A -> nat) (x : A) (l : list A) :
  StronglySorted (fun y z => key y <= key z) l ->
  StronglySorted (fun y z => key y <= key z) (insert_by key x l).
Proof.
  induction 1 as [|y l Hs IH Hy]; simpl.
  - constructor; constructor.
  - destruct (key x <=? key y) eqn:E.
    + apply Nat.leb_le in E. constructor; [constructor; assumption|].
      constructor; [exact E|].
      rewrite Forall_forall in *. intros z Hz. specialize (Hy z Hz). lia.
    + apply Nat.leb_gt in E. constructor; [exact IH|].
      rewrite Forall_forall in *. intros z Hz.
      apply insert_by_In in Hz. destruct Hz as [-> | Hz]; [lia | auto].
Qed.

Lemma sorted_by_sorted {A : Type} (key : A -> nat) (l : list A) :
  StronglySorted (fun y z => key y <= key z) (sorted_by key l).
Proof.
  unfold sorted_by. induction l as [|x l IH]; simpl; [constructor|].
  apply insert_by_sorted. exact IH.
Qed.

Lemma insert_by_tagged {A : Type} (f : A -> nat) (x : A)
      (l : list (A * nat)) :
  (forall p, In p l -> snd p = f (fst p)) ->
  map fst (insert_by snd (x, f x) l) = insert_by f x (map fst l).
Proof.
  induction l as [|[y n] l IH]; intros H; simpl; [reflexivity|].
  pose proof (H (y, n) (or_introl eq_refl)) as Hn. simpl in Hn. subst n.
  destruct (f x <=? f y); simpl; [reflexivity|].
  rewrite IH; [reflexivity|]. intros p Hp. apply H. right. exact Hp.
Qed.

Lemma sorted_by_tagged {A : Type} (f : A -> nat) (l : list A) :
  map fst (sorted_by snd (map (fun x => (x, f x)) l)) = sorted_by f l.
Proof.
  unfold sorted_by. induction l as [|x l IH]; simpl; [reflexivity|].
  rewrite insert_by_tagged; [rewrite IH; reflexivity|].
  intros p Hp.
  change (In p (sorted_by snd (map (fun x => (x, f x)) l))) in Hp.
  rewrite sorted_by_In in Hp. apply in_map_iff in Hp.
  destruct Hp as (y & <- & _). reflexivity.
Qed.

Lemma ruled_out_in_count (cw : Crossword) (var nb : Var.t) (value : string)
      (kx ky : nat) (dn : list string) (num : nat) :
  overlap_of cw var nb = Some (Some (kx, ky)) ->
  ruled_out_in cw var nb value dn num
  = Return (num + ruled_out_by kx ky value dn).
Proof.
  intros Hov. unfold ruled_out_by. revert num.
  induction dn as [|comp_value dn IH]; intros num; cbn [ruled_out_in filter].
  - simpl. rewrite Nat.add_0_r. reflexivity.
  - destruct (String.eqb comp_value value); simpl.
    + rewrite IH, Nat.add_succ_r. reflexivity.
    + rewrite Hov, chars_match_Some. unfold agreeb at 1.
      destruct (String.get kx value) as [cx|];
        [destruct (String.get ky comp_value) as [cy|];
         [destruct (Ascii.eqb cx cy)|]|];
        simpl; rewrite IH, ?Nat.add_succ_r; reflexivity.
Qed.

Section OrderFacts.
Variable cw : Crossword.
Hypothesis wf : wf_crossword cw = true.
Variable st : State.
Variable a : Assignment.
Hypothesis all_domains :
  forall v, In v (variables cw) ->
            exists l, dict_get Var.eqb (domains st) v = Some l.
Hypothesis all_keys :
  forall v, In v (variables cw) -> In v (dict_keys a).

Lemma num_ruled_out_count (var : Var.t) (value : string) (nbs : list Var.t)
      (num : nat) :
  (forall nb, In nb nbs -> In nb (neighbors cw var)) ->
  num_ruled_out cw a var value nbs num st
  = (Return
       (num + list_sum
                (map (fun nb =>
                        match dict_get Var.eqb a nb, overlap_of cw var nb with
                        | Some None, Some (Some (kx, ky)) =>
                            ruled_out_by kx ky value (dom st nb)
                        | _, _ => 0
                        end) nbs)), st).
Proof.
  revert num. induction nbs as [|nb nbs IH]; intros num Hnbs;
    cbn [num_ruled_out map list_sum].
  - rewrite Nat.add_0_r. reflexivity.
  - assert (Hnb : In nb (neighbors cw var)) by (apply Hnbs; left; reflexivity).
    assert (IH' : forall num',
               num_ruled_out cw a var value nbs num' st
               = (Return
                    (num' + list_sum
                       (map (fun nb =>
                          match dict_get Var.eqb a nb, overlap_of cw var nb with
                          | Some None, Some (Some (kx, ky)) =>
                              ruled_out_by kx ky value (dom st nb)
                          | _, _ => 0
                          end) nbs)), st))
      by (intros num'; apply IH; intros nb' H'; apply Hnbs; right; exact H').
    destruct (neighbors_variables cw var nb Hnb) as [Hnbv _].
    pose proof (all_keys nb Hnbv) as Hkey.
    apply (dict_key_get _ Var_eqb_eq) in Hkey. destruct Hkey as [o Ho].
    rewrite Ho. destruct o as [w'|].
    + rewrite IH'. reflexivity.
    + apply (neighbors_spec cw wf) in Hnb. destruct Hnb as (kx & ky & Hov).
      rewrite Hov. destruct (all_domains nb Hnbv) as [l Hl].
      rewrite (bind_run _ _ _ _ _ (domain_of_run _ _ _ Hl)).
      unfold lift, bind at 1.
      rewrite (ruled_out_in_count cw var nb value kx ky _ num Hov).
      rewrite IH'. cbv beta iota. cbn [list_sum fold_right].
      rewrite Nat.add_assoc. reflexivity.
Qed.

Lemma elimination_counts_count (var : Var.t) (values : list string) :
  elimination_counts cw a var values st
  = (Return (map (fun value => (value, eliminations cw st a var value)) values),
     st).
Proof.
  induction values as [|value values IH]; cbn [elimination_counts map];
    [reflexivity|].
  rewrite (bind_run _ _ _ _ _
             (num_ruled_out_count var value (neighbors cw var) 0
                (fun nb H => H))).
  rewrite (bind_run _ _ _ _ _ IH). reflexivity.
Qed.

Lemma order_domain_values_run (var : Var.t) :
  In var (variables cw) ->
  order_domain_values cw var a st
  = (Return (sorted_by (eliminations cw st a var) (dom st var)), st).
Proof.
  intros Hvar. unfold order_domain_values.
  destruct (all_domains var Hvar) as [l Hl].
  rewrite (bind_run _ _ _ _ _ (domain_of_run _ _ _ Hl)).
  rewrite (bind_run _ _ _ _ _ (elimination_counts_count var _)).
  unfold ret. rewrite sorted_by_tagged. reflexivity.
Qed.
End OrderFacts.

(** X18 — the order of [order_domain_values]: on a well-formed puzzle, for
    a variable of the puzzle, when every variable has a domain and is a key
    of the assignment, the call returns, leaves the creator as it was, and
    the list it returns holds the words of the domain of the variable, each
    once, in ascending order of the number of words they rule out for the
    unassigned neighbours (for each such neighbour: the word itself if it
    is in the neighbour's domain, and every word of that domain that does
    not agree with it at the overlap indices). *)
Theorem order_domain_values_ascending (cw : Crossword) (st : State)
        (a : Assignment) (var : Var.t) :
  wf_crossword cw = true ->
  (forall v, In v (variables cw) ->
             exists l, dict_get Var.eqb (domains st) v = Some l) ->
  (forall v, In v (variables cw) -> In v (dict_keys a)) ->
  In var (variables cw) ->
  exists values,
    order_domain_values cw var a st = (Return values, st)
    /\ Permutation values (dom st var)
    /\ StronglySorted
         (fun w1 w2 => eliminations cw st a var w1
                       <= eliminations cw st a var w2) values.
Proof.
  intros wf Hdoms Hkeys Hvar.
  exists (sorted_by (eliminations cw st a var) (dom st var)).
  split; [|split].
  - apply order_domain_values_run; assumption.
  - apply sorted_by_Permutation.
  - apply sorted_by_sorted.
Qed.

Lemma order_domain_values_ascending_witness :
  exists values,
    order_domain_values puzzle_2x2 across2 [(across2, None); (down2, None)]
      (init puzzle_2x2)
    = (Return values, init puzzle_2x2)
    /\ Permutation values (dom (init puzzle_2x2) across2)
    /\ StronglySorted
         (fun w1 w2 =>
            eliminations puzzle_2x2 (init puzzle_2x2)
              [(across2, None); (down2, None)] across2 w1
            <= eliminations puzzle_2x2 (init puzzle_2x2)
                 [(across2, None); (down2, None)] across2 w2) values.
Proof.
  apply (order_domain_values_ascending puzzle_2x2 (init puzzle_2x2)
           [(across2, None); (down2, None)] across2).
  - reflexivity.
  - intros v [<- | [<- | []]]; eexists; vm_compute; reflexivity.
  - intros v [<- | [<- | []]]; vm_compute; tauto.
  - left. reflexivity.
Defined.

(** ** [letter_grid] *)

Lemma list_update_length {A : Type} (l : list A) (n : nat) (x : A) :
  List.length (list_update l n x) = List.length l.
Proof.
  revert n. induction l as [|y l IH]; intros [|n]; simpl; auto.
Qed.

Lemma nth_error_update_same {A : Type} (l : list A) (n : nat) (x : A) :
  n < List.length l -> nth_error (list_update l n x) n = Some x.
Proof.
  revert n. induction l as [|y l IH]; intros [|n] H; simpl in *; try lia.
  - reflexivity.
  - apply IH. lia.
Qed.

Lemma nth_error_update_other {A : Type} (l : list A) (n m : nat) (x : A) :
  n <> m -> nth_error (list_update l n x) m = nth_error l m.
Proof.
  revert n m. induction l as [|y l IH]; intros [|n] [|m] H; simpl;
    try reflexivity; try congruence.
  apply IH. congruence.
Qed.

Lemma In_list_update {A : Type} (l : list A) (n : nat) (x y : A) :
  In y (list_update l n x) -> y = x \/ In y l.
Proof.
  revert n. induction l as [|z l IH]; intros [|n]; simpl; try tauto.
  - intros [<- | H]; auto.
  - intros [<- | H]; auto. destruct (IH n H); auto.
Qed.

Lemma str_get_lt (k : nat) (w : string) :
  k < String.length w -> exists c, String.get k w = Some c.
Proof.
  revert k. induction w as [|c w IH]; intros [|k] H; simpl in *; try lia.
  - exists c. reflexivity.
  - apply IH. lia.
Qed.

Lemma blank_grid_shape (height width : nat) :
  grid_shape height width (blank_grid height width).
Proof.
  unfold grid_shape, blank_grid. split; [apply repeat_length|].
  intros row H. apply repeat_spec in H. subst row. apply repeat_length.
Qed.

Lemma grid_get_blank (height width i j : nat) :
  grid_get (blank_grid height width) i j = None.
Proof.
  unfold grid_get, blank_grid.
  destruct (nth_error (repeat (repeat None width) height) i) as [row|] eqn:E;
    [|reflexivity].
  apply nth_error_In, repeat_spec in E. subst row.
  destruct (nth_error (repeat None width) j) as [c|] eqn:E; [|reflexivity].
  apply nth_error_In, repeat_spec in E. exact E.
Qed.

Lemma grid_set_run (height width : nat) (g : Grid) (i j : nat) (c : ascii) :
  grid_shape height width g -> i < height -> j < width ->
  exists g',
    grid_set g i j c = Return g'
    /\ grid_shape height width g'
    /\ grid_get g' i j = Some c
    /\ forall i' j', (i', j') <> (i, j) -> grid_get g' i' j' = grid_get g i' j'.
Proof.
  intros [Hh Hw] Hi Hj. unfold grid_set.
  destruct (nth_error g i) as [row|] eqn:Erow.
  2: { apply nth_error_None in Erow. lia. }
  pose proof (Hw row (nth_error_In _ _ Erow)) as Hrow.
  assert (Hlt : (j <? List.length row) = true) by (apply Nat.ltb_lt; lia).
  rewrite Hlt. eexists. split; [reflexivity|]. split; [|split].
  - split; [rewrite list_update_length; exact Hh|].
    intros r Hr. apply In_list_update in Hr. destruct Hr as [-> | Hr].
    + rewrite list_update_length. exact Hrow.
    + apply Hw. exact Hr.
  - unfold grid_get. rewrite nth_error_update_same by lia.
    rewrite nth_error_update_same by lia. reflexivity.
  - intros i' j' Hne. unfold grid_get.
    destruct (Nat.eq_dec i i') as [<- | Hi'].
    + rewrite nth_error_update_same by lia. rewrite Erow.
      rewrite nth_error_update_other; [reflexivity|]. congruence.
    + rewrite nth_error_update_other by exact Hi'. reflexivity.
Qed.

Lemma grid_set_Return (height width : nat) (g g' : Grid) (i j : nat)
      (c : ascii) :
  grid_shape height width g -> grid_set g i j c = Return g' ->
  i < height /\ j < width.
Proof.
  intros [Hh Hw] H. unfold grid_set in H.
  destruct (nth_error g i) as [row|] eqn:Erow; [|discriminate].
  destruct (j <? List.length row) eqn:Hlt; [|discriminate].
  apply Nat.ltb_lt in Hlt.
  rewrite <- (Hw row (nth_error_In _ _ Erow)). split; [|exact Hlt].
  rewrite <- Hh. apply nth_error_Some. congruence.
Qed.

(** One word: the loop over [k]. *)
Lemma write_word_run (height width : nat) (v : Var.t) (w : string)
      (ks : list nat) (g : Grid) :
  grid_shape height width g ->
  (forall k, In k ks ->
     k < String.length w
     /\ fst (cell v k) < height /\ snd (cell v k) < width) ->
  exists g', write_word v w ks g = Return g' /\ grid_shape height width g'.
Proof.
  revert g. induction ks as [|k ks IH]; intros g Hs Hin; cbn [write_word].
  - exists g. auto.
  - destruct (Hin k (or_introl eq_refl)) as (Hk & Hi & Hj).
    destruct (cell v k) as [i j] eqn:Ec. simpl in Hi, Hj.
    destruct (str_get_lt k w Hk) as [c Hc]. unfold str_index. rewrite Hc.
    destruct (grid_set_run height width g i j c Hs Hi Hj)
      as (g1 & E & Hs1 & _).
    rewrite E. apply IH; [exact Hs1|].
    intros k' Hk'. apply Hin. right. exact Hk'.
Qed.

Lemma write_word_Return (height width : nat) (v : Var.t) (w : string)
      (ks : list nat) (g g' : Grid) :
  grid_shape height width g ->
  write_word v w ks g = Return g' ->
  grid_shape height width g'
  /\ forall k, In k ks -> fst (cell v k) < height /\ snd (cell v k) < width.
Proof.
  revert g. induction ks as [|k ks IH]; intros g Hs H; cbn [write_word] in H.
  - injection H as <-. split; [exact Hs | intros k []].
  - destruct (cell v k) as [i j] eqn:Ec.
    destruct (str_index w k) as [c | e |]; try discriminate.
    destruct (grid_set g i j c) as [g1 | e |] eqn:E; try discriminate.
    destruct (grid_set_Return height width g g1 i j c Hs E) as [Hi Hj].
    destruct (grid_set_run height width g i j c Hs Hi Hj)
      as (g1' & E' & Hs1 & _).
    rewrite E in E'. injection E' as <-.
    destruct (IH g1 Hs1 H) as [Hs' Hin]. split; [exact Hs'|].
    intros k' [<- | Hk']; [rewrite Ec; simpl; auto | apply Hin; exact Hk'].
Qed.

(** X19 — when [letter_grid] returns: the call returns a grid exactly
    when every entry of the assignment holds a word (the length of [None]
    cannot be taken) and every character of every word falls inside the
    grid (a character is written for every index of the word, whatever
    the length of the slot; outside the grid the subscript raises). *)
Theorem letter_grid_returns (height width : nat) (a : Assignment) :
  (exists g, letter_grid height width a = Return g) <->
  (forall v o, In (v, o) a ->
     exists word,
       o = Some word
       /\ forall k, k < String.length word ->
                    fst (cell v k) < height /\ snd (cell v k) < width).
Proof.
  unfold letter_grid.
  generalize (blank_grid_shape height width).
  generalize (blank_grid height width) as g0.
  induction a as [|[v [w|]] a IH]; intros g0 Hs; cbn [letter_grid_loop].
  - split; [intros _ v o [] | intros _; exists g0; reflexivity].
  - split.
    + intros [g H].
      destruct (write_word v w (seq 0 (String.length w)) g0) as [g1 | e |]
        eqn:E; try discriminate.
      destruct (write_word_Return height width v w _ g0 g1 Hs E) as [Hs1 Hin].
      intros v' o' [Heq | Hin'].
      * injection Heq as <- <-. exists w. split; [reflexivity|].
        intros k Hk. apply Hin. apply in_seq. lia.
      * apply (proj1 (IH g1 Hs1)); [exists g; exact H | exact Hin'].
    + intros Hall.
      destruct (Hall v (Some w) (or_introl eq_refl)) as (w' & Hw' & Hin).
      injection Hw' as <-.
      destruct (write_word_run height width v w (seq 0 (String.length w)) g0 Hs)
        as (g1 & E & Hs1).
      { intros k Hk. apply in_seq in Hk. split; [lia | apply Hin; lia]. }
      rewrite E. apply (proj2 (IH g1 Hs1)).
      intros v' o' H'. apply Hall. right. exact H'.
  - split; [intros [g H]; discriminate|].
    intros Hall. destruct (Hall v None (or_introl eq_refl)) as (w & Hw & _).
    discriminate.
Qed.

Lemma shows_ext (W W' : Var.t -> string -> nat -> Prop) (g : Grid) :
  (forall v w k, W v w k <-> W' v w k) -> shows W g -> shows W' g.
Proof.
  intros Hext [H1 H2]. split.
  - intros v w k H. apply H1. apply Hext. exact H.
  - intros i j H. apply H2. intros v w k Hw. apply (H v w k).
    apply Hext. exact Hw.
Qed.

Lemma grid_set_shows (height width : nat)
      (W : Var.t -> string -> nat -> Prop) (g g' : Grid)
      (v0 : Var.t) (w0 : string) (k0 : nat) (c : ascii) :
  grid_shape height width g -> shows W g ->
  String.get k0 w0 = Some c ->
  (forall v w k, W v w k -> cell v k = cell v0 k0 -> String.get k w = Some c) ->
  grid_set g (fst (cell v0 k0)) (snd (cell v0 k0)) c = Return g' ->
  grid_shape height width g'
  /\ shows (fun v w k => W v w k \/ (v = v0 /\ w = w0 /\ k = k0)) g'.
Proof.
  intros Hs [H1 H2] Hc Hag E.
  destruct (grid_set_Return height width g g' _ _ c Hs E) as [Hi Hj].
  destruct (grid_set_run height width g _ _ c Hs Hi Hj)
    as (g1 & E1 & Hs1 & Hsame & Hother).
  rewrite E in E1. injection E1 as <-. split; [exact Hs1|].
  assert (Hcell : forall v k,
            cell v k = cell v0 k0 \/
            grid_get g' (fst (cell v k)) (snd (cell v k))
            = grid_get g (fst (cell v k)) (snd (cell v k))).
  { intros v k.
    destruct (Nat.eq_dec (fst (cell v k)) (fst (cell v0 k0))) as [Ei | Ni];
      [destruct (Nat.eq_dec (snd (cell v k)) (snd (cell v0 k0))) as [Ej | Nj]|].
    - left. destruct (cell v k), (cell v0 k0). simpl in *. congruence.
    - right. apply Hother. intros Heq. apply Nj. exact (f_equal snd Heq).
    - right. apply Hother. intros Heq. apply Ni. exact (f_equal fst Heq). }
  split.
  - intros v w k [Hw | (-> & -> & ->)].
    + destruct (Hcell v k) as [Heq | Heq].
      * rewrite Heq, Hsame. symmetry. apply (Hag v w k); assumption.
      * rewrite Heq. apply H1. exact Hw.
    + rewrite Hsame. symmetry. exact Hc.
  - intros i j Hfree.
    rewrite Hother.
    + apply H2. intros v w k Hw. apply (Hfree v w k). left. exact Hw.
    + intros Heq. apply (Hfree v0 w0 k0); [right; auto|].
      rewrite Heq. destruct (cell v0 k0); reflexivity.
Qed.

Lemma write_word_shows (height width : nat) (a : Assignment)
      (v0 : Var.t) (w0 : string) (ks : list nat) :
  cells_agree a ->
  (forall k, In k ks -> chars_of a v0 w0 k) ->
  forall (W : Var.t -> string -> nat -> Prop) (g g' : Grid),
    (forall v w k, W v w k -> chars_of a v w k) ->
    grid_shape height width g -> shows W g ->
    write_word v0 w0 ks g = Return g' ->
    grid_shape height width g'
    /\ shows (fun v w k => W v w k \/ (v = v0 /\ w = w0 /\ In k ks)) g'.
Proof.
  intros Hag. induction ks as [|k0 ks IH]; intros Hks W g g' HW Hs Hshow H;
    cbn [write_word] in H.
  - injection H as <-. split; [exact Hs|].
    eapply shows_ext; [|exact Hshow].
    intros v w k. simpl. tauto.
  - pose proof (Hks k0 (or_introl eq_refl)) as Hk0.
    destruct (cell v0 k0) as [i j] eqn:Ec.
    unfold str_index in H.
    destruct (String.get k0 w0) as [c|] eqn:Hc; [|discriminate].
    destruct (grid_set g i j c) as [g1 | e |] eqn:E; try discriminate.
    assert (E' : grid_set g (fst (cell v0 k0)) (snd (cell v0 k0)) c = Return g1)
      by (rewrite Ec; exact E).
    destruct (grid_set_shows height width W g g1 v0 w0 k0 c Hs Hshow Hc)
      as [Hs1 Hshow1]; [|exact E'|].
    { intros v w k Hw Hcell. rewrite <- Hc.
      apply (Hag v w k v0 w0 k0); [apply HW; exact Hw | exact Hk0 | exact Hcell]. }
    assert (HW1 : forall v w k,
              W v w k \/ (v = v0 /\ w = w0 /\ k = k0) -> chars_of a v w k).
    { intros v w k [Hw | (-> & -> & ->)]; [apply HW; exact Hw | exact Hk0]. }
    destruct (IH (fun k Hk => Hks k (or_intror Hk))
                 (fun v w k => W v w k \/ (v = v0 /\ w = w0 /\ k = k0))
                 g1 g' HW1 Hs1 Hshow1 H) as [Hs' Hshow'].
    split; [exact Hs'|]. eapply shows_ext; [|exact Hshow'].
    intros v w k. simpl. split.
    + intros [[Hw | (-> & -> & ->)] | (-> & -> & Hk)]; auto.
    + intros [Hw | (-> & -> & [<- | Hk])]; auto.
Qed.

Lemma letter_grid_loop_shows (height width : nat) (a : Assignment)
      (items : Assignment) :
  cells_agree a -> incl items a ->
  forall (W : Var.t -> string -> nat -> Prop) (g g' : Grid),
    (forall v w k, W v w k -> chars_of a v w k) ->
    grid_shape height width g -> shows W g ->
    letter_grid_loop items g = Return g' ->
    grid_shape height width g'
    /\ shows (fun v w k => W v w k \/ chars_of items v w k) g'.
Proof.
  intros Hag. induction items as [|[v0 [w0|]] items IH];
    intros Hincl W g g' HW Hs Hshow H; cbn [letter_grid_loop] in H.
  - injection H as <-. split; [exact Hs|].
    eapply shows_ext; [|exact Hshow].
    intros v w k. unfold chars_of. simpl. tauto.
  - destruct (write_word v0 w0 (seq 0 (String.length w0)) g) as [g1 | e |]
      eqn:E; try discriminate.
    assert (Hks : forall k, In k (seq 0 (String.length w0)) ->
                            chars_of a v0 w0 k).
    { intros k Hk. apply in_seq in Hk. split; [|lia].
      apply Hincl. left. reflexivity. }
    destruct (write_word_shows height width a v0 w0 _ Hag Hks W g g1 HW Hs
                Hshow E) as [Hs1 Hshow1].
    assert (HW1 : forall v w k,
              W v w k
              \/ (v = v0 /\ w = w0 /\ In k (seq 0 (String.length w0))) ->
              chars_of a v w k).
    { intros v w k [Hw | (-> & -> & Hk)];
        [apply HW; exact Hw | apply Hks; exact Hk]. }
    destruct (IH (fun kv Hkv => Hincl kv (or_intror Hkv))
                 (fun v w k =>
                    W v w k
                    \/ (v = v0 /\ w = w0
                        /\ In k (seq 0 (String.length w0))))
                 g1 g' HW1 Hs1 Hshow1 H) as [Hs' Hshow'].
    split; [exact Hs'|]. eapply shows_ext; [|exact Hshow'].
    intros v w k. unfold chars_of. simpl. rewrite in_seq. split.
    + intros [[Hw | (-> & -> & Hk)] | [Hin Hk]]; auto.
      right. split; [left; reflexivity | lia].
    + intros [Hw | [[Heq | Hin] Hk]]; auto.
      injection Heq as <- <-. left. right. repeat split; lia.
  - discriminate.
Qed.

(** X20 — what the grid of [letter_grid] shows: when the characters of
    the words of the assignment that fall on the same cell are the same
    character and the call returns, the grid has [height] rows of [width]
    cells, every word is spelled out from the first cell of its slot in
    the direction of the slot (character [k] of the word of a DOWN slot at
    row [i + k], of an ACROSS slot at column [j + k]), and every cell no
    character falls on holds [None]. *)
Theorem letter_grid_shows_words (height width : nat) (a : Assignment)
        (g : Grid) :
  cells_agree a ->
  letter_grid height width a = Return g ->
  grid_shape height width g
  /\ (forall v word k,
        In (v, Some word) a -> k < String.length word ->
        grid_get g (fst (cell v k)) (snd (cell v k)) = String.get k word)
  /\ (forall i j,
        (forall v word k, In (v, Some word) a -> k < String.length word ->
                          cell v k <> (i, j)) ->
        grid_get g i j = None).
Proof.
  intros Hag H. unfold letter_grid in H.
  destruct (letter_grid_loop_shows height width a a Hag (incl_refl a)
              (fun _ _ _ => False) (blank_grid height width) g)
    as [Hs [H1 H2]].
  - intros v w k [].
  - apply blank_grid_shape.
  - split; [intros v w k [] | intros i j _; apply grid_get_blank].
  - exact H.
  - split; [exact Hs|]. split.
    + intros v word k Hin Hk. apply H1. right. split; assumption.
    + intros i j Hfree. apply H2. intros v w k [[] | [Hin Hk]].
      apply (Hfree v w k); assumption.
Qed.

Lemma letter_grid_shows_words_witness :
  letter_grid 2 2 [(across2, Some "AT"%string); (down2, Some "TO"%string)]
  = Return [[Some "A"%char; Some "T"%char]; [None; Some "O"%char]]
  /\ grid_get [[Some "A"%char; Some "T"%char]; [None; Some "O"%char]] 1 1
     = Some "O"%char.
Proof.
  split; [reflexivity|].
  destruct (letter_grid_shows_words 2 2
              [(across2, Some "AT"%string); (down2, Some "TO"%string)]
              [[Some "A"%char; Some "T"%char]; [None; Some "O"%char]])
    as (_ & Hword & _).
  - intros v1 w1 k1 v2 w2 k2 [Hin1 Hk1] [Hin2 Hk2] Hcell.
    destruct Hin1 as [E1 | [E1 | []]]; injection E1 as <- <-;
      destruct Hin2 as [E2 | [E2 | []]]; injection E2 as <- <-;
      simpl in Hk1, Hk2;
      destruct k1 as [|[|k1]]; try lia;
      destruct k2 as [|[|k2]]; try lia;
      try reflexivity; vm_compute in Hcell; discriminate.
  - reflexivity.
  - exact (Hword down2 "TO"%string 1 (or_intror (or_introl eq_refl))
             ltac:(simpl; lia)).
Defined.

(** ** [__init__]: the keys of [self.domains] *)

Lemma init_fold_other (ws : list string) (vars : list Var.t) (st : State)
      (v : Var.t) :
  ~ In v vars ->
  dict_get Var.eqb (domains (fold_left (init_step ws) vars st)) v
  = dict_get Var.eqb (domains st) v.
Proof.
  revert st. induction vars as [|v0 vars IH]; intros st Hv; simpl;
    [reflexivity|].
  rewrite IH by (intros H; apply Hv; right; exact H).
  unfold init_step. simpl.
  apply (dict_get_set_other _ Var_eqb_eq).
  intros ->. apply Hv. left. reflexivity.
Qed.

(** X21 — [__init__] gives a domain to the variables of the puzzle and to
    nothing else: the keys of [self.domains] are exactly the variables,
    whatever the vocabulary; the domain of a variable is the whole
    vocabulary, also when the vocabulary is empty or a word fits no
    slot. *)
Theorem init_keys_are_variables (cw : Crossword) (v : Var.t) :
  (In v (dict_keys (domains (init cw))) <-> In v (variables cw))
  /\ dom (init cw) v = if mem_var v (variables cw) then words cw else [].
Proof.
  assert (Hiff : In v (dict_keys (domains (init cw))) <-> In v (variables cw)).
  { split.
    - intros H. apply (dict_key_get _ Var_eqb_eq) in H. destruct H as [l Hl].
      destruct (mem_var v (variables cw)) eqn:E; [apply mem_var_In; exact E|].
      exfalso. unfold init in Hl. rewrite init_fold_other in Hl.
      + discriminate.
      + intros H. apply mem_var_In in H. congruence.
    - intros H. destruct (init_domain cw v H) as (l & Hl & _).
      apply (dict_get_key _ Var_eqb_eq _ _ l). exact Hl. }
  split; [exact Hiff|].
  destruct (mem_var v (variables cw)) eqn:E.
  - apply init_dom. apply mem_var_In. exact E.
  - unfold dom.
    destruct (dict_get Var.eqb (domains (init cw)) v) as [l|] eqn:El;
      [|reflexivity].
    exfalso. apply (dict_get_key _ Var_eqb_eq) in El. apply Hiff in El.
    apply mem_var_In in El. congruence.
Qed.

(** ** [ac3]: a second run *)

Lemma with_domain_same (st : State) (x : Var.t) (lx : loc) :
  dict_get Var.eqb (domains st) x = Some lx ->
  with_domain st lx (dom st x) = st.
Proof.
  intros Hlx. unfold with_domain, dom. rewrite Hlx, heap_set_same.
  destruct st; reflexivity.
Qed.

Lemma ac3_loop_fixed (cw : Crossword) (st : State) :
  sets_ok st -> arcs_have_domains cw st ->
  (forall x y kx ky, overlap_of cw x y = Some (Some (kx, ky)) ->
                     arc_ok st x y kx ky) ->
  forall q fuel,
    List.length q <= fuel ->
    (forall a, In a q -> In a (dict_keys (overlaps cw))) ->
    ac3_loop cw fuel q st = (Return true, st).
Proof.
  intros Hso Harcs Hok. induction q as [|[X Y] q IH]; intros fuel Hfuel Hq.
  - destruct fuel; reflexivity.
  - destruct fuel as [|fuel]; [simpl in Hfuel; lia|]. cbn [ac3_loop].
    assert (IH' : ac3_loop cw fuel q st = (Return true, st)).
    { apply IH; [simpl in Hfuel; lia|].
      intros a Ha. apply Hq. right. exact Ha. }
    pose proof (Hq (X, Y) (or_introl eq_refl)) as Hkey.
    apply (dict_key_get _ arc_eqb_eq) in Hkey. destruct Hkey as [o Ho].
    rewrite Ho. destruct o as [[kx ky]|]; [|exact IH'].
    cbn [fst snd].
    destruct (Harcs X Y (kx, ky) Ho) as [[lx Hlx] [ly Hly]].
    destruct (Hok X Y kx ky Ho) as [Hsup Hne].
    rewrite (bind_run _ _ _ _ _
               (revise_run cw X Y kx ky lx st Ho Hlx
                  (or_intror (ex_intro _ ly Hly)) (sets_ok_dom st X Hso))).
    assert (Hall : forallb (supportedb kx ky (dom st Y)) (dom st X) = true)
      by (apply forallb_forall; exact Hsup).
    rewrite Hall, (filter_all _ _ Hall), (with_domain_same st X lx Hlx).
    rewrite (bind_run _ _ _ _ _ (domain_of_run _ _ _ Hlx)).
    destruct (dom st X) as [|w d]; [congruence|]. exact IH'.
Qed.

(** X22 — [ac3] is idempotent: when [ac3()] has returned [True], a second
    call returns [True] and removes nothing. *)
Theorem ac3_idempotent (cw : Crossword) (st st1 : State) :
  no_alias st -> sets_ok st -> arcs_have_domains cw st ->
  ac3 cw None st = (Return true, st1) ->
  ac3 cw None st1 = (Return true, st1).
Proof.
  intros Hna Hso Harcs H.
  pose proof (ac3_shrinks cw None st _ _ H) as Hshr.
  assert (Hinv : ac3_inv cw [] st1).
  { unfold ac3 in H. eapply ac3_loop_sound; [exact Hna | | exact H].
    apply ac3_inv_initial. }
  unfold ac3. apply ac3_loop_fixed.
  - eapply shrinks_sets_ok; eassumption.
  - intros x y o Hov. destruct Hshr as (Hd & _). rewrite Hd.
    exact (Harcs x y o Hov).
  - intros x y kx ky Hov. destruct (Hinv x y kx ky Hov) as [[] | Hok].
    exact Hok.
  - unfold ac3_fuel, dict_keys. rewrite length_map. lia.
  - intros a Ha. exact Ha.
Qed.

Lemma ac3_idempotent_witness :
  let st1 := final_state (ac3 puzzle_2x2 None (init puzzle_2x2)) in
  ac3 puzzle_2x2 None st1 = (Return true, st1).
Proof.
  intros st1.
  apply (ac3_idempotent puzzle_2x2 (init puzzle_2x2) st1).
  - apply init_no_alias.
  - apply init_sets_ok. apply nodup_words_NoDup. reflexivity.
  - apply init_arcs_have_domains. reflexivity.
  - reflexivity.
Defined.
